(** * The realtime subscription manager

    A shallow embedding of [packages/realtime/src/subscription-manager.ts]:
    the [SubscriptionManager] class, its connection state machine, its read
    loop and its bounded message buffer, followed by the properties proved
    about them.

    Conventions of the embedding.
    - The manager object is a record with the fields of the class.  Methods
      are actions of a small state-and-exception monad over a [World]: the
      manager, the store of JavaScript arrays, and the chronological list of
      calls the manager made to code it does not own (user callbacks, the
      console, the credential provider, the stream and its reader).
    - An array is a store cell and [this.messages] holds its address, so that
      [push] (in place), [slice] and spread (fresh array) and the reference
      handed to [onChange] alias or not exactly as in the source.  Messages
      themselves are immutable values.
    - External collaborators are described by what their calls answer: a
      callback returns or throws, depending on its arguments; a promise is
      fulfilled or rejected; a reader delivers a finite script of read
      results.  When the script is used up the next [read()] stays pending:
      the action is [Awaiting], and carries the world in which it waits.
      Callbacks do not call back into the manager.  What a callback does to
      an array it was handed is a step of its own ([mutate]), taken after
      the call: nothing happens in a turn of the loop after [onChange].
    - An [async] method is given twice.  As an action, it is run on its
      own, up to its completion or up to a read that stays pending; the
      other awaits (credential fetch, stream open, cancellation) settle at
      once.  This is the method as one caller sees it when nothing else
      happens to the manager meanwhile.  As a program with its awaits
      ([Async]), it is suspended at every [await], and calls of other
      methods and the continuations of other suspended operations can run
      in between; the two agree when every promise settles at once
      ([run_now]).
    - Numbers that count messages are integers ([Z]); [NaN] and fractions
      are not modelled.

    The publishing helpers of [packages/realtime/src/publish.ts] and two of
    the handlers of [examples/publish-from-route-handler.ts] are embedded
    after the manager, over the list of the calls of [api.publish] and of
    the console: the API answers a call by its position among the calls
    made, and the promises of a batch settle in an order given from
    outside. *)

From Stdlib Require Import ZArith Lia.
From stdpp Require Import base option list strings gmap.

Local Open Scope Z_scope.

(** ** Values exchanged with the outside *)

(** [Realtime.Subscribe.Token]: an opaque credential; an object, hence
    truthy. *)
Record Token : Type := mkToken { token_key : string }.

(** A JavaScript [Error]. *)
Record Error : Type := mkError { message : string }.

(** [Realtime.Message]: the read loop only inspects [topic]. *)
Record Message : Type := mkMessage { msg_topic : string; msg_data : Z }.

(** What a call into foreign code answers: it completes with a value, or it
    throws (a rejected promise, once awaited, throws as well). *)
Inductive Outcome (A : Type) : Type :=
| Ok (a : A)
| Fails (e : Error).
Arguments Ok {A} a.
Arguments Fails {A} e.

Module SubscriptionState.
Inductive t : Type := Idle | Connecting | Active | Error | Closed.
End SubscriptionState.

#[global] Instance SubscriptionState_eq_dec : EqDecision SubscriptionState.t.
Proof. solve_decision. Defined.

(** One answer of [reader.read()]: [{done: false, value}], [{done: true}],
    or a rejection. *)
Inductive ReadResult : Type :=
| ReadValue (value : Message)
| ReadDone
| ReadFails (e : Error).

(** [ReadableStreamDefaultReader]: the answers its next reads will give, and
    what [cancel()] and [releaseLock()] answer. *)
Record Reader : Type := mkReader {
  rd_reads : list ReadResult;
  rd_cancel : Outcome unit;
  rd_releaseLock : Outcome unit
}.

(** [Realtime.Subscribe.StreamSubscription]. *)
Record StreamSubscription : Type := mkStream {
  getReader : Outcome Reader;
  cancel : Outcome unit
}.

(** Addresses of arrays in the store. *)
Definition addr : Type := nat.

(** Calls that leave the manager, in the order they happen. *)
Inductive Event : Type :=
| OnChange (message : Message) (allMessages : addr) (seen : list Message)
| OnStateChange (s : SubscriptionState.t)
| OnError (e : Error)
| OnStop
| ConsoleWarn (text : string)
| ConsoleError (text : string) (e : Error)
| RefreshTokenCall
| SubscribeCall (t : Token)
| GetReaderCall
| ReadCall (* a read that was answered *)
| ReaderCancelCall
| ReleaseLockCall
| StreamCancelCall.

(** ** The manager *)

(** [SubscriptionManagerOptions].  The credential provider answers by the
    number of times it was called before. *)
Record SubscriptionManagerOptions : Type := mkOptions {
  opt_token : option Token;
  opt_refreshToken : option (nat -> Outcome Token);
  opt_topic : option string;
  opt_onChange : Message -> list Message -> Outcome unit;
  opt_onStateChange : option (SubscriptionState.t -> Outcome unit);
  opt_onError : option (Error -> Outcome unit);
  opt_onStop : option (unit -> Outcome unit);
  opt_autoStart : option bool;
  opt_maxMessages : option Z
}.

(** The private fields of [class SubscriptionManager]. *)
Record SubscriptionManager : Type := mkManager {
  token : option Token;
  refreshToken : option (nat -> Outcome Token);
  topic : option string;
  onChange : Message -> list Message -> Outcome unit;
  onStateChange : option (SubscriptionState.t -> Outcome unit);
  onError : option (Error -> Outcome unit);
  onStop : option (unit -> Outcome unit);
  state : SubscriptionState.t;
  messages : addr;
  maxMessages : Z;
  subscription : option StreamSubscription;
  reader : option Reader;
  isRunning : bool
}.

Record World : Type := mkWorld {
  this : SubscriptionManager;
  heap : gmap nat (list Message);
  nextAddr : addr;
  events : list Event;
  refreshCalls : nat;
  subscribeCalls : nat
}.

(** Field assignments. *)
Definition set_token (v : option Token) (m : SubscriptionManager) :=
  mkManager v (refreshToken m) (topic m) (onChange m) (onStateChange m)
    (onError m) (onStop m) (state m) (messages m) (maxMessages m)
    (subscription m) (reader m) (isRunning m).
Definition set_topic (v : option string) (m : SubscriptionManager) :=
  mkManager (token m) (refreshToken m) v (onChange m) (onStateChange m)
    (onError m) (onStop m) (state m) (messages m) (maxMessages m)
    (subscription m) (reader m) (isRunning m).
Definition set_state (v : SubscriptionState.t) (m : SubscriptionManager) :=
  mkManager (token m) (refreshToken m) (topic m) (onChange m) (onStateChange m)
    (onError m) (onStop m) v (messages m) (maxMessages m)
    (subscription m) (reader m) (isRunning m).
Definition set_messages (v : addr) (m : SubscriptionManager) :=
  mkManager (token m) (refreshToken m) (topic m) (onChange m) (onStateChange m)
    (onError m) (onStop m) (state m) v (maxMessages m)
    (subscription m) (reader m) (isRunning m).
Definition set_subscription (v : option StreamSubscription) (m : SubscriptionManager) :=
  mkManager (token m) (refreshToken m) (topic m) (onChange m) (onStateChange m)
    (onError m) (onStop m) (state m) (messages m) (maxMessages m)
    v (reader m) (isRunning m).
Definition set_reader (v : option Reader) (m : SubscriptionManager) :=
  mkManager (token m) (refreshToken m) (topic m) (onChange m) (onStateChange m)
    (onError m) (onStop m) (state m) (messages m) (maxMessages m)
    (subscription m) v (isRunning m).
Definition set_isRunning (v : bool) (m : SubscriptionManager) :=
  mkManager (token m) (refreshToken m) (topic m) (onChange m) (onStateChange m)
    (onError m) (onStop m) (state m) (messages m) (maxMessages m)
    (subscription m) (reader m) v.

Definition with_this (m : SubscriptionManager) (w : World) : World :=
  mkWorld m (heap w) (nextAddr w) (events w) (refreshCalls w) (subscribeCalls w).
Definition with_heap (h : gmap nat (list Message)) (w : World) : World :=
  mkWorld (this w) h (nextAddr w) (events w) (refreshCalls w) (subscribeCalls w).
Definition record (evs : list Event) (w : World) : World :=
  mkWorld (this w) (heap w) (nextAddr w) (events w ++ evs)
    (refreshCalls w) (subscribeCalls w).

(** ** Actions: state, exceptions, and awaits that never settle *)

Inductive Completion (A : Type) : Type :=
| Returns (a : A) (w : World)
| Throws (e : Error) (w : World)
| Awaiting (w : World).
Arguments Returns {A} a w.
Arguments Throws {A} e w.
Arguments Awaiting {A} w.

Definition Action (A : Type) : Type := World -> Completion A.

Definition ret {A} (a : A) : Action A := fun w => Returns a w.

Definition bind {A B} (m : Action A) (k : A -> Action B) : Action B :=
  fun w =>
    match m w with
    | Returns a w' => k a w'
    | Throws e w' => Throws e w'
    | Awaiting w' => Awaiting w'
    end.

Definition throw {A} (e : Error) : Action A := fun w => Throws e w.

(** [try { body } catch (error) { handler }]. *)
Definition try_catch {A} (body : Action A) (handler : Error -> Action A) : Action A :=
  fun w =>
    match body w with
    | Throws e w' => handler e w'
    | r => r
    end.

Declare Scope action_scope.
Delimit Scope action_scope with act.
Notation "x <- m ;; k" := (bind m (fun x => k))
  (at level 100, m at next level, k at level 200, right associativity) : action_scope.
Notation "m ;; k" := (bind m (fun _ => k))
  (at level 100, k at level 200, right associativity) : action_scope.
Local Open Scope action_scope.

(** The world a completion leaves behind, whichever way it completed. *)
Definition world_of {A} (c : Completion A) : World :=
  match c with
  | Returns _ w => w
  | Throws _ w => w
  | Awaiting w => w
  end.

(** Reading and assigning fields of [this]. *)
Definition get {A} (field : SubscriptionManager -> A) : Action A :=
  fun w => Returns (field (this w)) w.
Definition assign (f : SubscriptionManager -> SubscriptionManager) : Action unit :=
  fun w => Returns tt (with_this (f (this w)) w).

Definition emit (e : Event) : Action unit :=
  fun w => Returns tt (record [e] w).

(** The answer of a foreign call, as the caller sees it. *)
Definition settle {A} (r : Outcome A) : Action A :=
  match r with
  | Ok a => ret a
  | Fails e => throw e
  end.

(** A call into foreign code: it is recorded, then it answers. *)
Definition call {A} (e : Event) (r : Outcome A) : Action A :=
  emit e ;; settle r.

Definition console_warn (text : string) : Action unit := emit (ConsoleWarn text).
Definition console_error (text : string) (e : Error) : Action unit :=
  emit (ConsoleError text e).

(** ** Arrays *)

Definition array_read (a : addr) : Action (list Message) :=
  fun w => Returns (heap w !!! a) w.

(** [new Array] / array literal / spread / slice: a fresh cell. *)
Definition array_alloc (l : list Message) : Action addr :=
  fun w =>
    Returns (nextAddr w)
      (mkWorld (this w) (<[nextAddr w := l]> (heap w)) (S (nextAddr w))
         (events w) (refreshCalls w) (subscribeCalls w)).

(** [a.push(v)]: the cell changes, the address does not. *)
Definition array_push (a : addr) (v : Message) : Action unit :=
  fun w => Returns tt (with_heap (<[a := (heap w !!! a) ++ [v]]> (heap w)) w).

(** [Array.prototype.slice(start)] for an integer [start]: a negative start
    counts from the end, and both ends are clamped. *)
Definition slice {A} (start : Z) (l : list A) : list A :=
  let len := Z.of_nat (length l) in
  let k := if start <? 0 then Z.max (len + start) 0 else Z.min start len in
  drop (Z.to_nat k) l.

(** What a holder of a reference to an array can do to it from outside. *)
Definition mutate (a : addr) (f : list Message -> list Message) : Action unit :=
  fun w => Returns tt (with_heap (<[a := f (heap w !!! a)]> (heap w)) w).

(** The contents of the manager's buffer. *)
Definition messageLog (w : World) : list Message := heap w !!! messages (this w).

(** ** Methods that do not need the stream source *)

(** [private updateState(newState)]. *)
Definition updateState (newState : SubscriptionState.t) : Action unit :=
  assign (set_state newState) ;;
  h <- get onStateChange ;;
  match h with
  | Some f =>
      try_catch (call (OnStateChange newState) (f newState))
        (fun error => console_error "Error in onStateChange callback:" error)
  | None => ret tt
  end.

(** [private handleError(error)]. *)
Definition handleError (error : Error) : Action unit :=
  updateState SubscriptionState.Error ;;
  h <- get onError ;;
  match h with
  | Some f =>
      try_catch (call (OnError error) (f error))
        (fun err => console_error "Error in onError callback:" err)
  | None => ret tt
  end.

(** [async stop()]. *)
Definition stop : Action unit :=
  assign (set_isRunning false) ;;
  try_catch
    (r <- get reader ;;
     match r with
     | Some rd =>
         call ReaderCancelCall (rd_cancel rd) ;;
         call ReleaseLockCall (rd_releaseLock rd) ;;
         assign (set_reader None)
     | None => ret tt
     end ;;
     s <- get subscription ;;
     match s with
     | Some sub =>
         call StreamCancelCall (cancel sub) ;;
         assign (set_subscription None)
     | None => ret tt
     end ;;
     updateState SubscriptionState.Closed ;;
     h <- get onStop ;;
     match h with
     | Some f =>
         try_catch (call OnStop (f tt))
           (fun error => console_error "Error in onStop callback:" error)
     | None => ret tt
     end)
    (fun error => console_error "Error stopping subscription:" error).

(** [getState()]. *)
Definition getState : Action SubscriptionState.t := get state.

(** [getMessages()]: [[...this.messages]], a fresh array. *)
Definition getMessages : Action addr :=
  a <- get messages ;;
  l <- array_read a ;;
  array_alloc l.

(** [getLatestMessage()]: [this.messages[this.messages.length - 1] || null]
    (a message is an object, hence truthy). *)
Definition getLatestMessage : Action (option Message) :=
  a <- get messages ;;
  l <- array_read a ;;
  ret (last l).

(** [clearMessages()]: [this.messages = []]. *)
Definition clearMessages : Action unit :=
  a <- array_alloc [] ;;
  assign (set_messages a).

(** [setTopic(topic)]. *)
Definition setTopic (t : option string) : Action unit := assign (set_topic t).

(** [isActive()]. *)
Definition isActive : Action bool :=
  running <- get isRunning ;;
  s <- get state ;;
  ret (running && bool_decide (s = SubscriptionState.Active)).

(** ** The read loop *)

(** [this.topic && value.topic !== this.topic]: the empty string is falsy,
    as is [undefined]. *)
Definition filtered_out (t : option string) (value : Message) : bool :=
  match t with
  | None => false
  | Some s => negb (String.eqb s "") && negb (String.eqb (msg_topic value) s)
  end.

(** Dereferencing [this.reader] when it is [null]. *)
Definition TypeError_null_reader : Error :=
  mkError "TypeError: Cannot read properties of null (reading 'read')".

(** [await this.reader.read()]: [None] stands for [{done: true}]. *)
Definition reader_read : Action (option Message) :=
  r <- get reader ;;
  match r with
  | None => throw TypeError_null_reader
  | Some rd =>
      match rd_reads rd with
      | [] => fun w => Awaiting w
      | x :: rest =>
          assign (set_reader (Some (mkReader rest (rd_cancel rd) (rd_releaseLock rd)))) ;;
          emit ReadCall ;;
          match x with
          | ReadValue value => ret (Some value)
          | ReadDone => ret None
          | ReadFails e => throw e
          end
      end
  end.

(** [this.messages.push(value)]. *)
Definition push_message (value : Message) : Action unit :=
  a <- get messages ;;
  array_push a value.

(** [if (this.messages.length > this.maxMessages)
      this.messages = this.messages.slice(-this.maxMessages)]. *)
Definition trim_messages : Action unit :=
  a <- get messages ;;
  l <- array_read a ;;
  max <- get maxMessages ;;
  if Z.of_nat (length l) >? max then
    a' <- array_alloc (slice (- max) l) ;;
    assign (set_messages a')
  else ret tt.

(** [try { this.onChange(value, this.messages) } catch ...]: the callback
    receives the reference held in [this.messages]. *)
Definition fire_onChange (value : Message) : Action unit :=
  a <- get messages ;;
  l <- array_read a ;;
  f <- get onChange ;;
  try_catch (call (OnChange value a l) (f value l))
    (fun error => console_error "Error in onChange callback:" error).

(** [while (this.isRunning) { ... }].  Every turn that does not leave the
    loop consumes one answer of the reader, so [fuel] larger than the
    reader's script is never used up. *)
Fixpoint whileRunning (fuel : nat) : Action unit :=
  running <- get isRunning ;;
  if negb running then ret tt
  else
    match fuel with
    | O => fun w => Awaiting w
    | S fuel' =>
        r <- reader_read ;;
        match r with
        | None => ret tt
        | Some value =>
            running' <- get isRunning ;;
            if negb running' then ret tt
            else
              t <- get topic ;;
              if filtered_out t value then whileRunning fuel'
              else
                push_message value ;;
                trim_messages ;;
                fire_onChange value ;;
                whileRunning fuel'
        end
    end.

(** [private async readLoop()]. *)
Definition readLoop : Action unit :=
  r <- get reader ;;
  match r with
  | None => ret tt
  | Some rd =>
      try_catch
        (whileRunning (S (length (rd_reads rd))) ;;
         running <- get isRunning ;;
         if running then updateState SubscriptionState.Closed else ret tt)
        (fun error =>
           running <- get isRunning ;;
           if running then handleError error else ret tt)
  end.

(** ** Methods that open the stream *)

Section WithStreamSource.

(** [subscribe] of [./subscribe], which is not part of the sources: what
    its [n]-th call answers for a token. *)
Variable subscribe : nat -> Token -> Outcome StreamSubscription.

Definition call_refreshToken (f : nat -> Outcome Token) : Action Token :=
  fun w =>
    settle (f (refreshCalls w))
      (mkWorld (this w) (heap w) (nextAddr w) (events w ++ [RefreshTokenCall])
         (S (refreshCalls w)) (subscribeCalls w)).

Definition call_subscribe (t : Token) : Action StreamSubscription :=
  fun w =>
    settle (subscribe (subscribeCalls w) t)
      (mkWorld (this w) (heap w) (nextAddr w) (events w ++ [SubscribeCall t])
         (refreshCalls w) (S (subscribeCalls w))).

Definition NoTokenError : Error :=
  mkError "No token provided and no refreshToken function available".

(** [async start()]. *)
Definition start : Action unit :=
  running <- get isRunning ;;
  if running then console_warn "Subscription is already running"
  else
    assign (set_isRunning true) ;;
    try_catch
      (tok <- get token ;;
       rt <- get refreshToken ;;
       match tok, rt with
       | None, Some f =>
           updateState SubscriptionState.Connecting ;;
           t <- call_refreshToken f ;;
           assign (set_token (Some t))
       | _, _ => ret tt
       end ;;
       tok' <- get token ;;
       match tok' with
       | None => throw NoTokenError
       | Some t =>
           updateState SubscriptionState.Connecting ;;
           s <- call_subscribe t ;;
           assign (set_subscription (Some s)) ;;
           rd <- call GetReaderCall (getReader s) ;;
           assign (set_reader (Some rd)) ;;
           updateState SubscriptionState.Active ;;
           readLoop
       end)
      handleError.

(** [async restart()]. *)
Definition restart : Action unit :=
  stop ;;
  clearMessages ;;
  start.

Definition NoRefreshTokenError : Error :=
  mkError "No refreshToken function available".

(** [async refreshAndRestart()]. *)
Definition refreshAndRestart : Action unit :=
  rt <- get refreshToken ;;
  match rt with
  | None => throw NoRefreshTokenError
  | Some f =>
      try_catch
        (t <- call_refreshToken f ;;
         assign (set_token (Some t)) ;;
         restart)
        handleError
  end.

(** The field initialisers and assignments of the constructor.
    [options.token || null] keeps a token, [options.maxMessages || 1000]
    replaces [undefined] and [0]. *)
Definition fresh (options : SubscriptionManagerOptions) : World :=
  mkWorld
    (mkManager (opt_token options) (opt_refreshToken options) (opt_topic options)
       (opt_onChange options) (opt_onStateChange options) (opt_onError options)
       (opt_onStop options) SubscriptionState.Idle 0%nat
       (match opt_maxMessages options with
        | Some n => if n =? 0 then 1000 else n
        | None => 1000
        end)
       None None false)
    {[ 0%nat := [] ]} 1%nat [] 0%nat 0%nat.

(** [new SubscriptionManager(options)]: with [autoStart !== false] the
    constructor calls [this.start()].  The constructor does not await that
    call; the completion given here is the one of the call it started. *)
Definition createSubscriptionManager (options : SubscriptionManagerOptions)
  : Completion unit :=
  match opt_autoStart options with
  | Some false => Returns tt (fresh options)
  | _ => start (fresh options)
  end.

End WithStreamSource.

(** ** Notions used to state the properties *)

(** The calls [updateState s] makes, given the hook: the hook, when there is
    one, and the console when the hook throws. *)
Definition stateChange_events (h : option (SubscriptionState.t -> Outcome unit))
  (s : SubscriptionState.t) : list Event :=
  match h with
  | None => []
  | Some f =>
      OnStateChange s ::
      match f s with
      | Ok _ => []
      | Fails e => [ConsoleError "Error in onStateChange callback:" e]
      end
  end.

(** The calls [handleError e] makes after its state transition. *)
Definition error_events (h : option (Error -> Outcome unit)) (e : Error)
  : list Event :=
  match h with
  | None => []
  | Some f =>
      OnError e ::
      match f e with
      | Ok _ => []
      | Fails e' => [ConsoleError "Error in onError callback:" e']
      end
  end.

(** The calls made to announce an accepted message. *)
Definition change_events (f : Message -> list Message -> Outcome unit)
  (v : Message) (a : addr) (l : list Message) : list Event :=
  OnChange v a l ::
  match f v l with
  | Ok _ => []
  | Fails e => [ConsoleError "Error in onChange callback:" e]
  end.

(** Projections of a list of events on one kind of call. *)
Definition stateChanges (evs : list Event) : list SubscriptionState.t :=
  omap (fun ev => match ev with OnStateChange s => Some s | _ => None end) evs.
Definition errorsReported (evs : list Event) : list Error :=
  omap (fun ev => match ev with OnError e => Some e | _ => None end) evs.
Definition changesReported (evs : list Event) : list Message :=
  omap (fun ev => match ev with OnChange v _ _ => Some v | _ => None end) evs.
Definition stopsReported (evs : list Event) : nat :=
  length (omap (fun ev => match ev with OnStop => Some ev | _ => None end) evs).
Definition connectionAttempts (evs : list Event) : nat :=
  length (omap (fun ev => match ev with
                          | SubscribeCall _ | RefreshTokenCall => Some ev
                          | _ => None
                          end) evs).

(** The events recorded after the first [n]: what an operation started with
    [n] events on record has added. *)
Definition since (n : nat) (w : World) : list Event := drop n (events w).

(** The fields [stop], [start] and the read loop never assign. *)
Definition same_configuration (m m' : SubscriptionManager) : Prop :=
  refreshToken m' = refreshToken m /\ topic m' = topic m /\
  onChange m' = onChange m /\ onStateChange m' = onStateChange m /\
  onError m' = onError m /\ onStop m' = onStop m /\
  maxMessages m' = maxMessages m.

(** Cancelling and releasing what the manager holds does not throw. *)
Definition reader_releases (rd : Reader) : Prop :=
  rd_cancel rd = Ok tt /\ rd_releaseLock rd = Ok tt.
Definition stream_releases (s : StreamSubscription) : Prop :=
  cancel s = Ok tt /\ forall rd, getReader s = Ok rd -> reader_releases rd.
Definition releases_cleanly (m : SubscriptionManager) : Prop :=
  (forall rd, reader m = Some rd -> reader_releases rd) /\
  (forall s, subscription m = Some s -> cancel s = Ok tt).

(** The last [n] entries of a list: "the most recent [n]". *)
Definition most_recent {A} (n : nat) (l : list A) : list A :=
  drop (length l - n) l.

(** The buffer after [push] and the trimming that follows it. *)
Definition trimmed (max : Z) (l : list Message) : list Message :=
  if Z.of_nat (length l) >? max then slice (- max) l else l.

(** The messages a script delivers before the stream ends, fails or stalls. *)
Fixpoint delivered (rs : list ReadResult) : list Message :=
  match rs with
  | ReadValue v :: rs' => v :: delivered rs'
  | _ => []
  end.

(** The messages of a list that pass the topic filter [t]. *)
Definition accepted (t : option string) (vs : list Message) : list Message :=
  filter (fun v => filtered_out t v = false) vs.

(** One answer of the reader has been taken. *)
Definition advance (w : World) : World :=
  match reader (this w) with
  | Some rd =>
      record [ReadCall]
        (with_this
           (set_reader (Some (mkReader (tail (rd_reads rd)) (rd_cancel rd)
                                (rd_releaseLock rd))) (this w)) w)
  | None => w
  end.

(** The body of the loop for a message that passes the filter. *)
Definition accept (value : Message) : Action unit :=
  push_message value ;;
  trim_messages ;;
  fire_onChange value.

(** The world after one turn of the loop that took the message [value]. *)
Definition deliver (w : World) (value : Message) : World :=
  let w1 := advance w in
  if filtered_out (topic (this w1)) value then w1 else world_of (accept value w1).

(** The world after the turns that took the messages [vs], in order. *)
Definition feed (vs : list Message) (w : World) : World := foldl deliver w vs.

(** The buffer after a turn of the loop that took [v], from the buffer [l]
    before it. *)
Definition buffer_step (t : option string) (max : Z) (l : list Message)
  (v : Message) : list Message :=
  if filtered_out t v then l else trimmed max (l ++ [v]).

(** What the turns of the read loop leave as they found it. *)
Definition turn_frame (w w' : World) : Prop :=
  same_configuration (this w) (this w') /\
  token (this w') = token (this w) /\
  state (this w') = state (this w) /\
  isRunning (this w') = isRunning (this w) /\
  subscription (this w') = subscription (this w) /\
  refreshCalls w' = refreshCalls w /\
  subscribeCalls w' = subscribeCalls w.

(** The reader [rd] after [n] of its answers were taken. *)
Definition reader_after (n : nat) (rd : Reader) : Reader :=
  mkReader (drop n (rd_reads rd)) (rd_cancel rd) (rd_releaseLock rd).

(** The calls [evs] are those of turns of the read loop that announced the
    messages [vs]: [onChange] for each of them, in order, and no other
    callback, credential fetch or stream open. *)
Definition turn_calls (evs : list Event) (vs : list Message) : Prop :=
  stateChanges evs = [] /\ errorsReported evs = [] /\
  changesReported evs = vs /\ stopsReported evs = 0%nat /\
  connectionAttempts evs = 0%nat.

(** What a hook that may be absent is called with: once with [x] when it is
    there. *)
Definition fired {H B : Type} (h : option H) (x : B) : list B :=
  match h with
  | Some _ => [x]
  | None => []
  end.

(** How a script of read results ends. *)
Inductive Ending : Type :=
| Stalls
| Ends
| Breaks (e : Error).

Fixpoint ending (rs : list ReadResult) : Ending :=
  match rs with
  | [] => Stalls
  | ReadValue _ :: rs' => ending rs'
  | ReadDone :: _ => Ends
  | ReadFails e :: _ => Breaks e
  end.

(** The credential [start] ends up with: the token it holds, else what the
    credential provider answers, else the configuration error. *)
Definition credential (w : World) : Outcome Token :=
  match token (this w), refreshToken (this w) with
  | Some t, _ => Ok t
  | None, Some f => f (refreshCalls w)
  | None, None => Fails NoTokenError
  end.

(** The reader [start] ends up with, or the first failure on the way:
    credential fetch, stream open, reader acquisition. *)
Definition opening (subscribe : nat -> Token -> Outcome StreamSubscription)
  (w : World) : Outcome Reader :=
  match credential w with
  | Fails e => Fails e
  | Ok t =>
      match subscribe (subscribeCalls w) t with
      | Fails e => Fails e
      | Ok s => getReader s
      end
  end.


(** The contents of the array an action returned. *)
Definition contents (c : Completion addr) : list Message :=
  match c with
  | Returns a w => heap w !!! a
  | _ => []
  end.

(** The value an action returned, if it returned. *)
Definition returned {A} (c : Completion A) : option A :=
  match c with
  | Returns a _ => Some a
  | _ => None
  end.

(** ** Histories of a manager *)

(** The reader has further answers [rs] for the suspended read loop, which
    goes on with them. *)
Definition resume (rs : list ReadResult) : Action unit :=
  r <- get reader ;;
  match r with
  | Some rd =>
      assign (set_reader (Some (mkReader (rd_reads rd ++ rs) (rd_cancel rd)
                                  (rd_releaseLock rd)))) ;;
      readLoop
  | None => ret tt
  end.

(** What can happen to a manager between two observations: a call of one of
    its public methods by the application, further data on the stream, or a
    mutation of an array by a holder of a reference to it. *)
Inductive Step : Type :=
| CallStart
| CallStop
| CallRestart
| CallRefreshAndRestart
| CallGetMessages
| CallClearMessages
| CallSetTopic (t : option string)
| MoreData (rs : list ReadResult)
| Mutation (a : addr) (f : list Message -> list Message).

Definition perform (subscribe : nat -> Token -> Outcome StreamSubscription)
  (s : Step) (w : World) : World :=
  match s with
  | CallStart => world_of (start subscribe w)
  | CallStop => world_of (stop w)
  | CallRestart => world_of (restart subscribe w)
  | CallRefreshAndRestart => world_of (refreshAndRestart subscribe w)
  | CallGetMessages => world_of (getMessages w)
  | CallClearMessages => world_of (clearMessages w)
  | CallSetTopic t => world_of (setTopic t w)
  | MoreData rs => world_of (resume rs w)
  | Mutation a f => world_of (mutate a f w)
  end.

(** The worlds a manager is in after its construction and after any
    sequence of such steps, each operation run on its own: to its
    completion, or to the read at which it is left waiting.  The
    interleavings at the other awaits of the operations are those of
    [observable], further down. *)
Inductive reachable (subscribe : nat -> Token -> Outcome StreamSubscription)
  : World -> Prop :=
| reachable_created options :
    reachable subscribe (world_of (createSubscriptionManager subscribe options))
| reachable_step w s :
    reachable subscribe w -> reachable subscribe (perform subscribe s w).

(** ** Collaborators and managers used in scenarios *)

Definition a_token : Token := mkToken "key".

(** An [onChange] that returns. *)
Definition quiet_onChange : Message -> list Message -> Outcome unit :=
  fun _ _ => Ok tt.

(** A reader and a stream whose cancellation succeeds. *)
Definition plain_reader (rs : list ReadResult) : Reader :=
  mkReader rs (Ok tt) (Ok tt).
Definition plain_stream (rs : list ReadResult) : StreamSubscription :=
  mkStream (Ok (plain_reader rs)) (Ok tt).

(** A reader whose [cancel()] rejects, and the stream that hands it out. *)
Definition stuck_reader (rs : list ReadResult) : Reader :=
  mkReader rs (Fails (mkError "cancel failed")) (Ok tt).
Definition stuck_stream (rs : list ReadResult) : StreamSubscription :=
  mkStream (Ok (stuck_reader rs)) (Ok tt).

(** A stream source that always opens the stream [s], and one that always
    refuses. *)
Definition serve (s : StreamSubscription) : nat -> Token -> Outcome StreamSubscription :=
  fun _ _ => Ok s.
Definition refuse (e : Error) : nat -> Token -> Outcome StreamSubscription :=
  fun _ _ => Fails e.

(** Options with a token, the given filter and capacity, and callbacks that
    all return. *)
Definition options_with (t : option string) (max : option Z)
  : SubscriptionManagerOptions :=
  mkOptions (Some a_token) None t quiet_onChange
    (Some (fun _ => Ok tt)) (Some (fun _ => Ok tt)) (Some (fun _ => Ok tt))
    None max.

(** A manager in the middle of [start]: the stream is open, the state is
    [Active], and the read loop is about to take the answers [rs]. *)
Definition listening (t : option string) (max : Z)
  (f : Message -> list Message -> Outcome unit) (rs : list ReadResult) : World :=
  mkWorld
    (mkManager (Some a_token) None t f
       (Some (fun _ => Ok tt)) (Some (fun _ => Ok tt)) (Some (fun _ => Ok tt))
       SubscriptionState.Active 0%nat max
       (Some (plain_stream rs)) (Some (plain_reader rs)) true)
    {[ 0%nat := [] ]} 1%nat [] 0%nat 0%nat.

(** A manager created over a stream whose reader cannot be cancelled: the
    stream is open and the read loop waits for the first message. *)
Definition stuck_manager : World :=
  world_of (createSubscriptionManager (serve (stuck_stream []))
              (options_with None None)).

(** ** Publishing ([publish.ts]) *)

(** The first argument of [api.publish]. *)
Record PublishOptions : Type := mkPublishOptions {
  po_channel : string;
  po_topics : list string;
  po_runId : option string
}.

(** What [api.publish] resolves with: [{ ok, error?: { error } }]. *)
Record PublishResult : Type := mkPublishResult {
  pr_ok : bool;
  pr_error : option string
}.

Section Publish.

(** The type of the published data ([TData]). *)
Context {Data : Type}.

(** What publishing code does to the outside: calls of [api.publish], with
    their two arguments, and lines written with [console.error]. *)
Inductive PubEvent : Type :=
  | ApiPublish (options : PublishOptions) (data : Data)
  | PubConsoleError (text : string) (e : Error).

(** The calls of [api.publish] among recorded events. *)
Definition published (trace : list PubEvent) : list (PublishOptions * Data) :=
  omap (fun ev => match ev with ApiPublish po d => Some (po, d) | _ => None end) trace.

(** An Inngest client, as far as [publish.ts] looks at it:
    [client["inngestApi"]], which may be missing, and what the [n]-th call
    of its [publish] answers. *)
Record Client : Type := mkClient {
  inngestApi : option (nat -> PublishOptions -> Data -> Outcome PublishResult)
}.

(** The options of [publishToChannel]. *)
Record ChannelOptions : Type := mkChannelOptions {
  co_channel : string;
  co_topic : string;
  co_data : Data;
  co_runId : option string
}.

(** An entry of [messages] in the options of [publishToChannelBatch]. *)
Record BatchMessage : Type := mkBatchMessage {
  bm_topic : string;
  bm_data : Data
}.

Record BatchOptions : Type := mkBatchOptions {
  bo_channel : string;
  bo_messages : list BatchMessage;
  bo_runId : option string
}.

(** Publishing code runs over the events recorded so far, and completes with
    a value or throws. *)
Definition Publishing (A : Type) : Type := list PubEvent -> Outcome A * list PubEvent.

Definition pub_ret {A} (a : A) : Publishing A := fun trace => (Ok a, trace).
Definition pub_throw {A} (e : Error) : Publishing A := fun trace => (Fails e, trace).
Definition pub_bind {A B} (m : Publishing A) (k : A -> Publishing B) : Publishing B :=
  fun trace =>
    match m trace with
    | (Ok a, trace') => k a trace'
    | (Fails e, trace') => (Fails e, trace')
    end.
Definition pub_try {A} (body : Publishing A) (handler : Error -> Publishing A)
  : Publishing A :=
  fun trace =>
    match body trace with
    | (Fails e, trace') => handler e trace'
    | r => r
    end.
Definition pub_console_error (text : string) (e : Error) : Publishing unit :=
  fun trace => (Ok tt, trace ++ [PubConsoleError text e]).

Definition ApiNotFoundError : Error :=
  mkError
    "Inngest API not found. Make sure you're using a valid Inngest client instance.".

(** [`Failed to publish to channel: ${result.error?.error || "Unknown error"}`]. *)
Definition publish_failure (result : PublishResult) : Error :=
  mkError
    ("Failed to publish to channel: " +:+
     match pr_error result with
     | Some text => if String.eqb text "" then "Unknown error" else text
     | None => "Unknown error"
     end).

(** [await api.publish(publishOptions, data)]. *)
Definition api_publish
  (publish : nat -> PublishOptions -> Data -> Outcome PublishResult)
  (po : PublishOptions) (data : Data) : Publishing PublishResult :=
  fun trace => (publish (length (published trace)) po data, trace ++ [ApiPublish po data]).

(** [async publishToChannel(client, options)]. *)
Definition publishToChannel (client : Client) (options : ChannelOptions)
  : Publishing unit :=
  match inngestApi client with
  | None => pub_throw ApiNotFoundError
  | Some publish =>
      pub_bind
        (api_publish publish
           (mkPublishOptions (co_channel options) [co_topic options] (co_runId options))
           (co_data options))
        (fun result =>
           if negb (pr_ok result) then pub_throw (publish_failure result)
           else pub_ret tt)
  end.

(** [options.messages.map((message) => publishToChannel(...))]: every call
    is started, one after the other, whatever the earlier ones will answer;
    the result is the list of the promises, given by what each settles
    with. *)
Fixpoint start_each (client : Client) (channel : string) (runId : option string)
  (messages : list BatchMessage) (trace : list PubEvent)
  : list (Outcome unit) * list PubEvent :=
  match messages with
  | [] => ([], trace)
  | message :: rest =>
      let '(r, trace1) :=
        publishToChannel client
          (mkChannelOptions channel (bm_topic message) (bm_data message) runId) trace in
      let '(rs, trace2) := start_each client channel runId rest trace1 in
      (r :: rs, trace2)
  end.

(** [await Promise.all(promises)]: fulfilled when every promise is; rejected
    with the reason of the promise that is rejected first.  [order] lists
    the positions of the promises in the order in which they settle. *)
Fixpoint promise_all (order : list nat) (promises : list (Outcome unit))
  : Outcome unit :=
  match order with
  | [] => Ok tt
  | i :: order' =>
      match promises !! i with
      | Some (Fails e) => Fails e
      | _ => promise_all order' promises
      end
  end.

(** [async publishToChannelBatch(client, options)]. *)
Definition publishToChannelBatch (client : Client) (options : BatchOptions)
  (order : list nat) : Publishing unit :=
  fun trace =>
    let '(promises, trace') :=
      start_each client (bo_channel options) (bo_runId options)
        (bo_messages options) trace in
    (promise_all order promises, trace').

(** [createChannelPublisher(client, channel, runId)]: the function it
    returns. *)
Definition createChannelPublisher (client : Client) (channel : string)
  (runId : option string) : string -> Data -> Publishing unit :=
  fun topic data => publishToChannel client (mkChannelOptions channel topic data runId).

End Publish.

Arguments PubEvent : clear implicits.
Arguments Client : clear implicits.
Arguments ChannelOptions : clear implicits.
Arguments BatchMessage : clear implicits.
Arguments BatchOptions : clear implicits.
Arguments Publishing : clear implicits.

(** ** Publishing from handlers ([examples/publish-from-route-handler.ts]) *)

(** The data of the progress updates of [processLargeFile]. *)
Record FileProgress : Type := mkFileProgress {
  fp_fileId : string;
  fp_status : string;
  fp_progress : Z
}.

(** [async processChunk(index)] waits for a timer. *)
Definition processChunk (index : Z) : Publishing FileProgress unit := pub_ret tt.

(** [for (let i = 0; i < 10; i++) { await processChunk(i); await publish(...) }],
    from [i] on. *)
Fixpoint processLargeFile_loop (publish : string -> FileProgress -> Publishing FileProgress unit)
  (fileId : string) (fuel : nat) (i : Z) : Publishing FileProgress unit :=
  match fuel with
  | O => pub_ret tt
  | S fuel' =>
      if i <? 10 then
        pub_bind (processChunk i) (fun _ =>
        pub_bind (publish "fileProcessing"
                    (mkFileProgress fileId "processing" ((i + 1) * 10))) (fun _ =>
        processLargeFile_loop publish fileId fuel' (i + 1)))
      else pub_ret tt
  end.

(** [async processLargeFile(projectId, fileId)]; [inngest] is the client the
    module imports. *)
Definition processLargeFile (inngest : Client FileProgress)
  (projectId fileId : string) : Publishing FileProgress unit :=
  let publish := createChannelPublisher inngest ("project:" +:+ projectId) None in
  pub_bind (publish "fileProcessing" (mkFileProgress fileId "started" 0)) (fun _ =>
  pub_bind (processLargeFile_loop publish fileId 11 0) (fun _ =>
  publish "fileProcessing" (mkFileProgress fileId "completed" 100))).

(** The data of the update of [robustPublishExample]. *)
Record StatusUpdate : Type := mkStatusUpdate { su_status : string }.

(** [async robustPublishExample(projectId)]. *)
Definition robustPublishExample (inngest : Client StatusUpdate) (projectId : string)
  : Publishing StatusUpdate unit :=
  pub_try
    (publishToChannel inngest
       (mkChannelOptions ("project:" +:+ projectId) "workspaceState"
          (mkStatusUpdate "active") None))
    (fun error => pub_console_error "Failed to publish realtime update:" error).

(** ** Notions used to state the properties of publishing *)

(** What a call of [publishToChannel] settles with, given what
    [api.publish] answered. *)
Definition publish_outcome (answer : Outcome PublishResult) : Outcome unit :=
  match answer with
  | Ok result => if pr_ok result then Ok tt else Fails (publish_failure result)
  | Fails e => Fails e
  end.

(** The arguments of [api.publish] for an entry of a batch. *)
Definition batch_call {Data} (options : BatchOptions Data) (m : BatchMessage Data)
  : PublishOptions * Data :=
  (mkPublishOptions (bo_channel options) [bm_topic m] (bo_runId options), bm_data m).

(** Publishing calls one after the other, each awaited before the next is
    made: what the sequence settles with, and how many calls were made. *)
Fixpoint in_turn {Data} (publish : nat -> PublishOptions -> Data -> Outcome PublishResult)
  (n : nat) (calls : list (PublishOptions * Data)) : Outcome unit * nat :=
  match calls with
  | [] => (Ok tt, 0%nat)
  | call :: rest =>
      match publish_outcome (publish n call.1 call.2) with
      | Ok _ => let '(r, k) := in_turn publish (S n) rest in (r, S k)
      | Fails e => (Fails e, 1%nat)
      end
  end.

(** The updates [processLargeFile] has to publish, in order. *)
Definition progress_updates (projectId fileId : string)
  : list (PublishOptions * FileProgress) :=
  map (fun '(status, progress) =>
         (mkPublishOptions ("project:" +:+ projectId) ["fileProcessing"] None,
          mkFileProgress fileId status progress))
      ([("started", 0)] ++
       map (fun i => ("processing", (Z.of_nat i + 1) * 10)) (seq 0 10) ++
       [("completed", 100)]).

(** Clients used in scenarios: one whose API accepts every call, one whose
    API accepts all calls but the [k]-th, which it answers with
    [{ ok: false }], and one without an API. *)
Definition accepting_client {Data} : Client Data :=
  mkClient (Some (fun _ _ _ => Ok (mkPublishResult true None))).
Definition client_failing_at {Data} (k : nat) : Client Data :=
  mkClient (Some (fun n _ _ => Ok (mkPublishResult (negb (Nat.eqb n k)) None))).
Definition client_without_api {Data} : Client Data := mkClient None.

(** A client whose API answers its [n]-th call with [answer n]. *)
Definition client_answering {Data} (answer : nat -> PublishResult) : Client Data :=
  mkClient (Some (fun n _ _ => Ok (answer n))).

(** ** Notions used to state what every operation keeps *)

(** The property [I] of worlds is kept by the action [m], however it
    completes. *)
Definition keeps (I : World -> Prop) {A} (m : Action A) : Prop :=
  forall w, I w -> I (world_of (m w)).

(** What is enough for a property of worlds to be kept by every operation
    of the manager: that its state transitions, its calls to the outside,
    its assignments and its handling of an accepted message keep it. *)
Record Preserved (I : World -> Prop) : Prop := mkPreserved {
  kept_updateState : forall s, keeps I (updateState s);
  kept_emit : forall ev, (forall s, ev <> OnStateChange s) -> keeps I (emit ev);
  kept_token : forall t, keeps I (assign (set_token (Some t)));
  kept_subscription : forall v, keeps I (assign (set_subscription v));
  kept_reader : forall v, keeps I (assign (set_reader v));
  kept_isRunning : forall v, keeps I (assign (set_isRunning v));
  kept_setTopic : forall t, keeps I (setTopic t);
  kept_refreshToken : forall f, keeps I (call_refreshToken f);
  kept_subscribe : forall subscribe t, keeps I (call_subscribe subscribe t);
  kept_accept : forall v, keeps I (accept v);
  kept_clearMessages : keeps I clearMessages;
  kept_getMessages : keeps I getMessages
}.

(** A step that mutates an array does so at an address in [allowed]. *)
Definition step_allowed (allowed : addr -> Prop) (s : Step) : Prop :=
  match s with
  | Mutation a _ => allowed a
  | _ => True
  end.

(** The world after a history. *)
Definition run (subscribe : nat -> Token -> Outcome StreamSubscription)
  (steps : list Step) (w : World) : World :=
  foldl (fun w s => perform subscribe s w) w steps.

(** The state last passed to [onStateChange]; [Idle] when none was. *)
Definition reported_state (evs : list Event) : SubscriptionState.t :=
  default SubscriptionState.Idle (last (stateChanges evs)).

(** There is an [onStateChange], and the state of the manager is the one it
    was last called with. *)
Definition state_reported (w : World) : Prop :=
  onStateChange (this w) <> None /\ state (this w) = reported_state (events w).

(** The buffer of the manager is an allocated array. *)
Definition allocated (w : World) : Prop := (messages (this w) < nextAddr w)%nat.

(** The array at [a] is allocated, is not the buffer of the manager, and
    holds [l]. *)
Definition detached (a : addr) (l : list Message) (w : World) : Prop :=
  allocated w /\ (a < nextAddr w)%nat /\ a <> messages (this w) /\ heap w !!! a = l.

(** The capacity is [c], which is positive, and the buffer is within it. *)
Definition within_capacity (c : Z) (w : World) : Prop :=
  maxMessages (this w) = c /\ 0 < c /\ Z.of_nat (length (messageLog w)) <= c.

(** The calls [start] makes, from a manager that is not running, until it
    holds a reader or meets the first failure. *)
Definition opening_events (subscribe : nat -> Token -> Outcome StreamSubscription)
  (w : World) : list Event :=
  let connecting :=
    stateChange_events (onStateChange (this w)) SubscriptionState.Connecting in
  match token (this w), refreshToken (this w) with
  | None, Some _ => connecting ++ [RefreshTokenCall]
  | _, _ => []
  end ++
  match credential w with
  | Fails _ => []
  | Ok t =>
      connecting ++ SubscribeCall t ::
      match subscribe (subscribeCalls w) t with
      | Fails _ => []
      | Ok s =>
          GetReaderCall ::
          match getReader s with
          | Fails _ => []
          | Ok _ => stateChange_events (onStateChange (this w)) SubscriptionState.Active
          end
      end
  end.

(** The tokens [subscribe] was called with. *)
Definition subscribedWith (evs : list Event) : list Token :=
  omap (fun ev => match ev with SubscribeCall t => Some t | _ => None end) evs.

(** The number of calls of the credential provider. *)
Definition tokensFetched (evs : list Event) : nat :=
  length (omap (fun ev => match ev with RefreshTokenCall => Some ev | _ => None end) evs).

(** An [Active] manager holds a token. *)
Definition active_has_token (w : World) : Prop :=
  state (this w) = SubscriptionState.Active -> token (this w) <> None.

(** ** Asynchronous methods, with their awaits *)

(** The program of an [async] method: synchronous code, sequencing,
    [try]/[catch], and the [await] of a promise that a call has handed
    out.  The method is suspended at every [await]; whatever else is
    pending, or called, may run before it goes on. *)
Inductive Async (A : Type) : Type :=
| Now (m : Action A)
| Seq {B : Type} (p : Async B) (k : B -> Async A)
| Catch (p : Async A) (handler : Error -> Async A)
| Await (promise : Action (Outcome A)).
Arguments Now {A} m.
Arguments Seq {A B} p k.
Arguments Catch {A} p handler.
Arguments Await {A} promise.

Declare Scope async_scope.
Delimit Scope async_scope with async.
Notation "x <- p ;; k" := (Seq p (fun x => k))
  (at level 100, p at next level, k at level 200, right associativity) : async_scope.
Notation "p ;; k" := (Seq p (fun _ => k))
  (at level 100, k at level 200, right associativity) : async_scope.

(** How far a program gets before it has to wait: it completes, or it is
    suspended at an [await], with the program that is left to run once the
    promise has settled. *)
Inductive Paused (A : Type) : Type :=
| Done (c : Completion A)
| Suspended (rest : Async A) (w : World).
Arguments Done {A} c.
Arguments Suspended {A} rest w.

(** A program is run up to its first [await].  The call that hands out the
    promise is made, and what the promise settles with is what the rest of
    the program starts from: a value, or an exception thrown at the
    [await].  A promise that never settles leaves the program [Awaiting]
    for good. *)
Fixpoint exec {A} (p : Async A) (w : World) : Paused A :=
  match p with
  | Now m => Done (m w)
  | Seq p k =>
      match exec p w with
      | Done (Returns b w') => exec (k b) w'
      | Done (Throws e w') => Done (Throws e w')
      | Done (Awaiting w') => Done (Awaiting w')
      | Suspended rest w' => Suspended (Seq rest k) w'
      end
  | Catch p handler =>
      match exec p w with
      | Done (Throws e w') => exec (handler e) w'
      | Done c => Done c
      | Suspended rest w' => Suspended (Catch rest handler) w'
      end
  | Await promise =>
      match promise w with
      | Returns answer w' => Suspended (Now (settle answer)) w'
      | Throws e w' => Done (Throws e w')
      | Awaiting w' => Done (Awaiting w')
      end
  end.

(** A program run with every promise settling at once and nothing else
    running in between. *)
Fixpoint run_now {A} (p : Async A) : Action A :=
  match p with
  | Now m => m
  | Seq p k => bind (run_now p) (fun b => run_now (k b))
  | Catch p handler => try_catch (run_now p) (fun e => run_now (handler e))
  | Await promise => bind promise settle
  end.

(** [await] of a call of an [async] method of the manager itself: the
    caller goes on one step after the method has completed. *)
Definition awaited {A} (p : Async A) : Async A :=
  (a <- p ;; Await (ret (Ok tt)) ;; Now (ret a))%async.

(** The promises of the foreign calls: the call is recorded, and what the
    promise settles with is decided. *)
Definition promise_of {A} (e : Event) (r : Outcome A) : Action (Outcome A) :=
  emit e ;; ret r.

Definition promise_refreshToken (f : nat -> Outcome Token) : Action (Outcome Token) :=
  fun w =>
    Returns (f (refreshCalls w))
      (mkWorld (this w) (heap w) (nextAddr w) (events w ++ [RefreshTokenCall])
         (S (refreshCalls w)) (subscribeCalls w)).

(** [this.reader.read()]: dereferencing a [null] reader throws at once; a
    reader whose script is used up hands out a promise that stays pending. *)
Definition promise_read : Action (Outcome (option Message)) :=
  r <- get reader ;;
  match r with
  | None => throw TypeError_null_reader
  | Some rd =>
      match rd_reads rd with
      | [] => fun w => Awaiting w
      | x :: rest =>
          assign (set_reader (Some (mkReader rest (rd_cancel rd) (rd_releaseLock rd)))) ;;
          emit ReadCall ;;
          ret (match x with
               | ReadValue value => Ok (Some value)
               | ReadDone => Ok None
               | ReadFails e => Fails e
               end)
      end
  end.

(** Dereferencing [this.reader] when it is [null], in [stop]. *)
Definition TypeError_null_releaseLock : Error :=
  mkError "TypeError: Cannot read properties of null (reading 'releaseLock')".

(** [while (this.isRunning) { ... }], followed for [fuel] turns. *)
Fixpoint whileRunning_async (fuel : nat) : Async unit :=
  (running <- Now (get isRunning) ;;
   if negb running then Now (ret tt)
   else
     match fuel with
     | O => Now (fun w => Awaiting w)
     | S fuel' =>
         r <- Await promise_read ;;
         match r with
         | None => Now (ret tt)
         | Some value =>
             running' <- Now (get isRunning) ;;
             if negb running' then Now (ret tt)
             else
               t <- Now (get topic) ;;
               if filtered_out t value then whileRunning_async fuel'
               else
                 Now (push_message value ;; trim_messages ;; fire_onChange value)%act ;;
                 whileRunning_async fuel'
         end
     end)%async.

(** [private async readLoop()].  The loop is followed for as many turns as
    the reader it starts with has answers, and for [extra] more, which it
    can take when another reader is installed while it is suspended. *)
Definition readLoop_async (extra : nat) : Async unit :=
  (r <- Now (get reader) ;;
   match r with
   | None => Now (ret tt)
   | Some rd =>
       Catch
         (whileRunning_async (extra + S (length (rd_reads rd))) ;;
          running <- Now (get isRunning) ;;
          if running then Now (updateState SubscriptionState.Closed) else Now (ret tt))
         (fun error =>
            running <- Now (get isRunning) ;;
            if running then Now (handleError error) else Now (ret tt))
   end)%async.

(** [async stop()]. *)
Definition stop_async : Async unit :=
  (Now (assign (set_isRunning false)) ;;
   Catch
     (r <- Now (get reader) ;;
      match r with
      | Some rd =>
          Await (promise_of ReaderCancelCall (rd_cancel rd)) ;;
          r' <- Now (get reader) ;;
          match r' with
          | Some rd' => Now (call ReleaseLockCall (rd_releaseLock rd'))
          | None => Now (throw TypeError_null_releaseLock)
          end ;;
          Now (assign (set_reader None))
      | None => Now (ret tt)
      end ;;
      s <- Now (get subscription) ;;
      match s with
      | Some sub =>
          Await (promise_of StreamCancelCall (cancel sub)) ;;
          Now (assign (set_subscription None))
      | None => Now (ret tt)
      end ;;
      Now (updateState SubscriptionState.Closed) ;;
      h <- Now (get onStop) ;;
      match h with
      | Some f =>
          Now (try_catch (call OnStop (f tt))
                 (fun error => console_error "Error in onStop callback:" error))
      | None => Now (ret tt)
      end)
     (fun error => Now (console_error "Error stopping subscription:" error)))%async.

Section AsyncWithStreamSource.

Variable subscribe : nat -> Token -> Outcome StreamSubscription.

Definition promise_subscribe (t : Token) : Action (Outcome StreamSubscription) :=
  fun w =>
    Returns (subscribe (subscribeCalls w) t)
      (mkWorld (this w) (heap w) (nextAddr w) (events w ++ [SubscribeCall t])
         (refreshCalls w) (S (subscribeCalls w))).

(** [async start()]. *)
Definition start_async (extra : nat) : Async unit :=
  (running <- Now (get isRunning) ;;
   if running then Now (console_warn "Subscription is already running")
   else
     Now (assign (set_isRunning true)) ;;
     Catch
       (tok <- Now (get token) ;;
        rt <- Now (get refreshToken) ;;
        match tok, rt with
        | None, Some f =>
            Now (updateState SubscriptionState.Connecting) ;;
            t <- Await (promise_refreshToken f) ;;
            Now (assign (set_token (Some t)))
        | _, _ => Now (ret tt)
        end ;;
        tok' <- Now (get token) ;;
        match tok' with
        | None => Now (throw NoTokenError)
        | Some t =>
            Now (updateState SubscriptionState.Connecting) ;;
            s <- Await (promise_subscribe t) ;;
            Now (assign (set_subscription (Some s))) ;;
            rd <- Now (call GetReaderCall (getReader s)) ;;
            Now (assign (set_reader (Some rd))) ;;
            Now (updateState SubscriptionState.Active) ;;
            awaited (readLoop_async extra)
        end)
       (fun error => Now (handleError error)))%async.

(** [async restart()]. *)
Definition restart_async (extra : nat) : Async unit :=
  (awaited stop_async ;;
   Now clearMessages ;;
   awaited (start_async extra))%async.

(** [async refreshAndRestart()]. *)
Definition refreshAndRestart_async (extra : nat) : Async unit :=
  (rt <- Now (get refreshToken) ;;
   match rt with
   | None => Now (throw NoRefreshTokenError)
   | Some f =>
       Catch
         (t <- Await (promise_refreshToken f) ;;
          Now (assign (set_token (Some t))) ;;
          awaited (restart_async extra))
         (fun error => Now (handleError error))
   end)%async.

(** A manager together with the operations on it that are suspended. *)
Record System : Type := mkSystem {
  world : World;
  pending : list (Async unit)
}.

(** The system after a program has run up to its first [await], or to its
    end. *)
Definition after (r : Paused unit) (tasks : list (Async unit)) : System :=
  match r with
  | Done c => mkSystem (world_of c) tasks
  | Suspended rest w => mkSystem w (tasks ++ [rest])
  end.

(** What can happen next to a system: the application calls a method, a
    holder of an array mutates it, or a promise settles and the operation
    that awaited it goes on. *)
Inductive Move : Type :=
| DoStart (extra : nat)
| DoStop
| DoRestart (extra : nat)
| DoRefreshAndRestart (extra : nat)
| DoGetMessages
| DoClearMessages
| DoSetTopic (t : option string)
| DoMutate (a : addr) (f : list Message -> list Message)
| GoOn (i : nat).

Definition move (m : Move) (s : System) : System :=
  match m with
  | DoStart extra => after (exec (start_async extra) (world s)) (pending s)
  | DoStop => after (exec stop_async (world s)) (pending s)
  | DoRestart extra => after (exec (restart_async extra) (world s)) (pending s)
  | DoRefreshAndRestart extra =>
      after (exec (refreshAndRestart_async extra) (world s)) (pending s)
  | DoGetMessages => mkSystem (world_of (getMessages (world s))) (pending s)
  | DoClearMessages => mkSystem (world_of (clearMessages (world s))) (pending s)
  | DoSetTopic t => mkSystem (world_of (setTopic t (world s))) (pending s)
  | DoMutate a f => mkSystem (world_of (mutate a f (world s))) (pending s)
  | GoOn i =>
      match pending s !! i with
      | Some p => after (exec p (world s)) (delete i (pending s))
      | None => s
      end
  end.

(** [new SubscriptionManager(options)]: the constructor calls [start()] and
    drops its promise, so that the call stays suspended at its first
    [await] when the constructor returns. *)
Definition construct (options : SubscriptionManagerOptions) (extra : nat) : System :=
  match opt_autoStart options with
  | Some false => mkSystem (fresh options) []
  | _ => after (exec (start_async extra) (fresh options)) []
  end.

(** The systems that can be observed: after the construction, and after any
    move from such a system. *)
Inductive observable : System -> Prop :=
| observable_constructed options extra : observable (construct options extra)
| observable_move s m : observable s -> observable (move m s).

End AsyncWithStreamSource.

(** What is enough, before a program runs, for [I] to hold wherever the
    program is suspended and for the program to end in [Q] or throw in
    [E], when all that is known of the world in which it goes on after an
    [await] is [I]. *)
Fixpoint wp (I : World -> Prop) {A} (p : Async A)
  (Q : A -> World -> Prop) (E : Error -> World -> Prop) (w : World) : Prop :=
  match p with
  | Now m =>
      match m w with
      | Returns a w' => Q a w'
      | Throws e w' => E e w'
      | Awaiting w' => I w'
      end
  | Seq p k => wp I p (fun b => wp I (k b) Q E) E w
  | Catch p handler => wp I p Q (fun e => wp I (handler e) Q E) w
  | Await promise =>
      match promise w with
      | Returns answer w' =>
          I w' /\
          forall w'', I w'' ->
            match answer with
            | Ok a => Q a w''
            | Fails e => E e w''
            end
      | Throws e w' => E e w'
      | Awaiting w' => I w'
      end
  end.

(** A program that keeps [I], from any world in which [I] holds. *)
Definition safe (I : World -> Prop) (p : Async unit) : Prop :=
  forall w, I w -> wp I p (fun _ => I) (fun _ => I) w.

(** An [Active] manager holds a stream. *)
Definition active_has_stream (w : World) : Prop :=
  state (this w) = SubscriptionState.Active -> subscription (this w) <> None.

(** The state and the stream of the manager are as they were. *)
Definition same_state (w w' : World) : Prop :=
  state (this w') = state (this w) /\ subscription (this w') = subscription (this w).



Arguments updateState : simpl never.
Arguments handleError : simpl never.
Arguments whileRunning : simpl never.
Arguments readLoop : simpl never.
Arguments stop : simpl never.
Arguments start : simpl never.
Arguments restart : simpl never.
Arguments accept : simpl never.
Arguments stateChanges : simpl never.
Arguments errorsReported : simpl never.
Arguments changesReported : simpl never.
Arguments stopsReported : simpl never.
Arguments connectionAttempts : simpl never.
Arguments stateChange_events : simpl never.
Arguments error_events : simpl never.
Arguments change_events : simpl never.

(** Symbolic execution of an action: the primitives are unfolded, the
    methods are not. *)
Ltac exec :=
  cbv beta iota delta
    [bind try_catch get assign call emit settle ret throw console_error
     console_warn array_read array_alloc array_push record with_this with_heap];
  cbn.

(** * Properties *)

(** ** Projections of recorded calls *)

Lemma stateChanges_app a b : stateChanges (a ++ b) = stateChanges a ++ stateChanges b.
Proof. apply omap_app. Qed.
Lemma errorsReported_app a b :
  errorsReported (a ++ b) = errorsReported a ++ errorsReported b.
Proof. apply omap_app. Qed.
Lemma changesReported_app a b :
  changesReported (a ++ b) = changesReported a ++ changesReported b.
Proof. apply omap_app. Qed.
Lemma stopsReported_app a b :
  stopsReported (a ++ b) = (stopsReported a + stopsReported b)%nat.
Proof. unfold stopsReported. rewrite omap_app, length_app. reflexivity. Qed.
Lemma connectionAttempts_app a b :
  connectionAttempts (a ++ b) = (connectionAttempts a + connectionAttempts b)%nat.
Proof. unfold connectionAttempts. rewrite omap_app, length_app. reflexivity. Qed.

Lemma stateChange_events_calls h s :
  stateChanges (stateChange_events h s) = match h with Some _ => [s] | None => [] end /\
  errorsReported (stateChange_events h s) = [] /\
  changesReported (stateChange_events h s) = [] /\
  stopsReported (stateChange_events h s) = 0%nat /\
  connectionAttempts (stateChange_events h s) = 0%nat.
Proof.
  unfold stateChange_events.
  destruct h as [f|]; [destruct (f s)|]; repeat split; reflexivity.
Qed.

Lemma error_events_calls h e :
  stateChanges (error_events h e) = [] /\
  errorsReported (error_events h e) = match h with Some _ => [e] | None => [] end /\
  changesReported (error_events h e) = [] /\
  stopsReported (error_events h e) = 0%nat /\
  connectionAttempts (error_events h e) = 0%nat.
Proof.
  unfold error_events.
  destruct h as [f|]; [destruct (f e)|]; repeat split; reflexivity.
Qed.

Lemma change_events_calls f v a l :
  stateChanges (change_events f v a l) = [] /\
  errorsReported (change_events f v a l) = [] /\
  changesReported (change_events f v a l) = [v] /\
  stopsReported (change_events f v a l) = 0%nat /\
  connectionAttempts (change_events f v a l) = 0%nat.
Proof.
  unfold change_events. destruct (f v l); repeat split; reflexivity.
Qed.

(** Computes the projections of a list of events built from the calls of
    the operations and from literal events. *)
Ltac uncons :=
  repeat match goal with
    | |- context [?x :: ?l] =>
        lazymatch l with
        | [] => fail
        | _ => change (x :: l) with ([x] ++ l)
        end
    end.

Ltac calls_literal :=
  repeat match goal with
    | |- context [stateChanges [?x]] =>
        let r := eval cbv in (stateChanges [x]) in change (stateChanges [x]) with r
    | |- context [errorsReported [?x]] =>
        let r := eval cbv in (errorsReported [x]) in change (errorsReported [x]) with r
    | |- context [changesReported [?x]] =>
        let r := eval cbv in (changesReported [x]) in change (changesReported [x]) with r
    | |- context [stopsReported [?x]] =>
        let r := eval cbv in (stopsReported [x]) in change (stopsReported [x]) with r
    | |- context [connectionAttempts [?x]] =>
        let r := eval cbv in (connectionAttempts [x]) in
        change (connectionAttempts [x]) with r
    end;
  change (stateChanges []) with (@nil SubscriptionState.t);
  change (errorsReported []) with (@nil Error);
  change (changesReported []) with (@nil Message);
  change (stopsReported []) with 0%nat;
  change (connectionAttempts []) with 0%nat.

Ltac calls :=
  uncons;
  repeat first
    [ rewrite stateChanges_app | rewrite errorsReported_app
    | rewrite changesReported_app | rewrite stopsReported_app
    | rewrite connectionAttempts_app
    | rewrite (proj1 (stateChange_events_calls _ _))
    | rewrite (proj1 (proj2 (stateChange_events_calls _ _)))
    | rewrite (proj1 (proj2 (proj2 (stateChange_events_calls _ _))))
    | rewrite (proj1 (proj2 (proj2 (proj2 (stateChange_events_calls _ _)))))
    | rewrite (proj2 (proj2 (proj2 (proj2 (stateChange_events_calls _ _)))))
    | rewrite (proj1 (error_events_calls _ _))
    | rewrite (proj1 (proj2 (error_events_calls _ _)))
    | rewrite (proj1 (proj2 (proj2 (error_events_calls _ _))))
    | rewrite (proj1 (proj2 (proj2 (proj2 (error_events_calls _ _)))))
    | rewrite (proj2 (proj2 (proj2 (proj2 (error_events_calls _ _)))))
    | rewrite (proj1 (change_events_calls _ _ _ _))
    | rewrite (proj1 (proj2 (change_events_calls _ _ _ _)))
    | rewrite (proj1 (proj2 (proj2 (change_events_calls _ _ _ _))))
    | rewrite (proj1 (proj2 (proj2 (proj2 (change_events_calls _ _ _ _)))))
    | rewrite (proj2 (proj2 (proj2 (proj2 (change_events_calls _ _ _ _))))) ];
  calls_literal;
  cbn [app Nat.add];
  rewrite ?app_nil_r, ?Nat.add_0_r.

(** ** State transitions and the error path *)

Lemma updateState_spec s w :
  updateState s w =
  Returns tt (record (stateChange_events (onStateChange (this w)) s)
                (with_this (set_state s (this w)) w)).
Proof.
  unfold updateState, stateChange_events. exec.
  destruct (onStateChange (this w)) as [f|]; exec.
  - destruct (f s) as [[]|]; exec; rewrite <- ?app_assoc; reflexivity.
  - rewrite app_nil_r. reflexivity.
Qed.

Lemma handleError_spec e w :
  handleError e w =
  Returns tt
    (record (stateChange_events (onStateChange (this w)) SubscriptionState.Error
             ++ error_events (onError (this w)) e)
       (with_this (set_state SubscriptionState.Error (this w)) w)).
Proof.
  unfold handleError. unfold bind at 1. rewrite updateState_spec.
  unfold error_events. exec.
  destruct (onError (this w)) as [f|]; exec.
  - destruct (f e) as [[]|]; exec; rewrite <- ?app_assoc; reflexivity.
  - rewrite app_nil_r. reflexivity.
Qed.

(** ** [stop] *)

Ltac stop_split :=
  match goal with
  | |- context [match reader ?m with _ => _ end] =>
      destruct (reader m) as [?rd|] eqn:?
  | |- context [match rd_cancel ?r with _ => _ end] =>
      destruct (rd_cancel r) as [[]|] eqn:?
  | |- context [match rd_releaseLock ?r with _ => _ end] =>
      destruct (rd_releaseLock r) as [[]|] eqn:?
  | |- context [match subscription ?m with _ => _ end] =>
      destruct (subscription m) as [?sub|] eqn:?
  | |- context [match cancel ?r with _ => _ end] =>
      destruct (cancel r) as [[]|] eqn:?
  | |- context [updateState _ _] => rewrite updateState_spec
  | |- context [match onStop ?m with _ => _ end] =>
      destruct (onStop m) as [?f|] eqn:?
  | |- context [match ?f tt with _ => _ end] =>
      destruct (f tt) as [[]|] eqn:?
  end; exec.

(** What [stop] does to a world, whatever the world. *)
Lemma stop_spec w :
  exists m' evs,
    stop w = Returns tt (mkWorld m' (heap w) (nextAddr w) (events w ++ evs)
                           (refreshCalls w) (subscribeCalls w)) /\
    same_configuration (this w) m' /\
    token m' = token (this w) /\
    messages m' = messages (this w) /\
    isRunning m' = false /\
    errorsReported evs = [] /\ changesReported evs = [] /\
    connectionAttempts evs = 0%nat /\
    (state m' = SubscriptionState.Active ->
     state (this w) = SubscriptionState.Active) /\
    (releases_cleanly (this w) ->
       state m' = SubscriptionState.Closed /\ reader m' = None /\
       subscription m' = None /\
       stateChanges evs =
         match onStateChange (this w) with
         | Some _ => [SubscriptionState.Closed]
         | None => []
         end /\
       stopsReported evs =
         match onStop (this w) with Some _ => 1%nat | None => 0%nat end).
Proof.
  unfold stop, releases_cleanly, reader_releases. exec.
  repeat stop_split.
  all: eexists _, _; (split; [rewrite <- ?app_assoc; reflexivity|]).
  all: cbn; unfold same_configuration; cbn.
  all: repeat match goal with |- _ /\ _ => split end;
    try reflexivity; try discriminate; try tauto.
  all: try (calls; reflexivity).
  all: intros [Hrd Hsub].
  all: try (specialize (Hrd _ eq_refl); destruct Hrd; congruence).
  all: try (specialize (Hsub _ eq_refl); congruence).
  all: repeat match goal with |- _ /\ _ => split end;
    try reflexivity; try assumption.
  all: calls; reflexivity.
Qed.

(** ** One turn of the read loop *)

(** Pushing, trimming and announcing always complete, and what follows runs
    in the world they leave. *)
Lemma accept_then {A} v (k : Action A) w :
  (push_message v ;; trim_messages ;; fire_onChange v ;; k) w =
  k (world_of (accept v w)).
Proof.
  unfold accept, push_message, trim_messages, fire_onChange. exec.
  rewrite lookup_total_insert_eq.
  destruct (Z.of_nat (length ((heap w !!! messages (this w)) ++ [v]))
            >? maxMessages (this w)); exec.
  - rewrite lookup_total_insert_eq.
    destruct (onChange (this w) v _) as [[]|]; reflexivity.
  - rewrite lookup_total_insert_eq.
    destruct (onChange (this w) v _) as [[]|]; reflexivity.
Qed.

(** The world [accept] leaves: the buffer holds the old entries and the new
    one, trimmed; [onChange] was called once, with the message and with the
    reference the manager itself now holds. *)
Lemma accept_spec v w :
  let l := trimmed (maxMessages (this w)) (messageLog w ++ [v]) in
  exists a' h' n',
    accept v w =
      Returns tt
        (mkWorld (set_messages a' (this w)) h' n'
           (events w ++ change_events (onChange (this w)) v a' l)
           (refreshCalls w) (subscribeCalls w)) /\
    h' !!! a' = l.
Proof.
  destruct w as [m h n evs rc sc]; destruct m.
  unfold accept, push_message, trim_messages, fire_onChange, trimmed,
    messageLog, change_events.
  exec. rewrite lookup_total_insert_eq.
  destruct (Z.of_nat (length ((h !!! messages0) ++ [v])) >? maxMessages0); exec.
  - rewrite lookup_total_insert_eq.
    eexists n, _, _.
    destruct (onChange0 v _) as [[]|]; exec;
      (split; [rewrite <- ?app_assoc; reflexivity
              | apply lookup_total_insert_eq]).
  - rewrite lookup_total_insert_eq.
    eexists messages0, _, _.
    destruct (onChange0 v _) as [[]|]; exec;
      (split; [rewrite <- ?app_assoc; reflexivity
              | apply lookup_total_insert_eq]).
Qed.

Lemma whileRunning_unfold fuel :
  whileRunning (S fuel) =
  (running <- get isRunning ;;
   if negb running then ret tt
   else
     r <- reader_read ;;
     match r with
     | None => ret tt
     | Some value =>
         running' <- get isRunning ;;
         if negb running' then ret tt
         else
           t <- get topic ;;
           if filtered_out t value then whileRunning fuel
           else
             push_message value ;;
             trim_messages ;;
             fire_onChange value ;;
             whileRunning fuel
     end).
Proof. reflexivity. Qed.

Lemma bind_eq {A B} (m : Action A) (k : A -> Action B) w :
  bind m k w =
  match m w with
  | Returns a w' => k a w'
  | Throws e w' => Throws e w'
  | Awaiting w' => Awaiting w'
  end.
Proof. reflexivity. Qed.

Lemma reader_read_spec w rd :
  reader (this w) = Some rd ->
  reader_read w =
    match rd_reads rd with
    | [] => Awaiting w
    | ReadValue v :: _ => Returns (Some v) (advance w)
    | ReadDone :: _ => Returns None (advance w)
    | ReadFails e :: _ => Throws e (advance w)
    end.
Proof.
  intros Hrd. unfold reader_read, advance. exec. rewrite Hrd.
  destruct (rd_reads rd) as [|[v| |e] rest]; reflexivity.
Qed.

Lemma advance_this w rd :
  reader (this w) = Some rd ->
  this (advance w) =
  set_reader (Some (mkReader (tail (rd_reads rd)) (rd_cancel rd) (rd_releaseLock rd)))
    (this w).
Proof. intros Hrd. unfold advance. rewrite Hrd. reflexivity. Qed.

(** A turn of the loop, by the answer of the reader. *)
Lemma whileRunning_step fuel w rd :
  isRunning (this w) = true ->
  reader (this w) = Some rd ->
  whileRunning (S fuel) w =
    match rd_reads rd with
    | [] => Awaiting w
    | ReadValue v :: _ => whileRunning fuel (deliver w v)
    | ReadDone :: _ => Returns tt (advance w)
    | ReadFails e :: _ => Throws e (advance w)
    end.
Proof.
  intros Hrun Hrd. rewrite whileRunning_unfold.
  rewrite bind_eq. unfold get at 1. cbv beta iota. rewrite Hrun. cbn [negb].
  rewrite bind_eq, (reader_read_spec w rd Hrd).
  destruct (rd_reads rd) as [|[v| |e] rest]; [reflexivity| |reflexivity..].
  cbv beta iota. unfold deliver.
  rewrite bind_eq. unfold get at 1. cbv beta iota.
  assert (Hrun' : isRunning (this (advance w)) = true)
    by (rewrite (advance_this w rd Hrd); exact Hrun).
  rewrite Hrun'. cbn [negb].
  rewrite bind_eq. unfold get at 1. cbv beta iota zeta.
  destruct (filtered_out (topic (this (advance w))) v) eqn:Hf; [reflexivity|].
  apply accept_then.
Qed.

(** When the manager is not running the loop is left at once. *)
Lemma whileRunning_stopped fuel w :
  isRunning (this w) = false -> whileRunning fuel w = Returns tt w.
Proof.
  intros Hrun. destruct fuel; unfold whileRunning; exec; rewrite Hrun; reflexivity.
Qed.

(** ** The turns of the loop that take messages *)

Lemma turn_frame_refl w : turn_frame w w.
Proof. unfold turn_frame, same_configuration. tauto. Qed.

Lemma turn_frame_trans w1 w2 w3 :
  turn_frame w1 w2 -> turn_frame w2 w3 -> turn_frame w1 w3.
Proof.
  unfold turn_frame, same_configuration. intros H1 H2.
  destruct_and!. repeat split; congruence.
Qed.

Lemma advance_frame w : turn_frame w (advance w).
Proof.
  unfold advance. destruct (reader (this w)); [|apply turn_frame_refl].
  unfold turn_frame, same_configuration. cbn. tauto.
Qed.

Lemma deliver_spec w rd v :
  reader (this w) = Some rd ->
  turn_frame w (deliver w v) /\
  reader (this (deliver w v)) = Some (reader_after 1 rd) /\
  messageLog (deliver w v) =
    buffer_step (topic (this w)) (maxMessages (this w)) (messageLog w) v /\
  events (deliver w v) =
    events w ++ ReadCall ::
      (if filtered_out (topic (this w)) v then []
       else change_events (onChange (this w)) v (messages (this (deliver w v)))
              (messageLog (deliver w v))).
Proof.
  intros Hrd. unfold deliver, buffer_step. cbv zeta.
  pose proof (advance_frame w) as Hf.
  pose proof (advance_this w rd Hrd) as Ha.
  assert (Ht : topic (this (advance w)) = topic (this w))
    by (rewrite Ha; reflexivity).
  rewrite Ht.
  assert (Hev : events (advance w) = events w ++ [ReadCall])
    by (unfold advance; rewrite Hrd; reflexivity).
  assert (Hlog : messageLog (advance w) = messageLog w)
    by (unfold advance, messageLog; rewrite Hrd; reflexivity).
  destruct (filtered_out (topic (this w)) v).
  - repeat split; try apply Hf; try assumption.
    rewrite Ha. unfold reader_after. cbn. destruct (rd_reads rd); reflexivity.
  - destruct (accept_spec v (advance w)) as (a' & h' & n' & Hacc & Hh').
    cbv zeta in Hacc, Hh'. rewrite Hacc. cbn [world_of].
    unfold messageLog at 1 3. cbn. rewrite Hh', Hlog.
    split; [|split; [|split]].
    + eapply turn_frame_trans; [apply Hf|].
      unfold turn_frame, same_configuration. cbn. tauto.
    + rewrite Ha. unfold reader_after. cbn. destruct (rd_reads rd); reflexivity.
    + rewrite Ha. reflexivity.
    + rewrite Hev, <- app_assoc, Ha. reflexivity.
Qed.

Lemma accepted_cons t v vs :
  accepted t (v :: vs) =
  if filtered_out t v then accepted t vs else v :: accepted t vs.
Proof.
  unfold accepted. rewrite filter_cons.
  destruct (filtered_out t v); case_decide; congruence.
Qed.

Lemma accepted_app t vs1 vs2 :
  accepted t (vs1 ++ vs2) = accepted t vs1 ++ accepted t vs2.
Proof. apply filter_app. Qed.

Lemma reader_after_0 rd : reader_after 0 rd = rd.
Proof. destruct rd. reflexivity. Qed.

Lemma reader_after_after n k rd :
  reader_after n (reader_after k rd) = reader_after (k + n) rd.
Proof. unfold reader_after. cbn. rewrite drop_drop. reflexivity. Qed.

Lemma feed_spec vs : forall w rd,
  reader (this w) = Some rd ->
  turn_frame w (feed vs w) /\
  reader (this (feed vs w)) = Some (reader_after (length vs) rd) /\
  messageLog (feed vs w) =
    foldl (buffer_step (topic (this w)) (maxMessages (this w))) (messageLog w) vs /\
  exists evs,
    events (feed vs w) = events w ++ evs /\
    turn_calls evs (accepted (topic (this w)) vs).
Proof.
  induction vs as [|v vs IH]; intros w rd Hrd.
  - cbn. rewrite reader_after_0. repeat split; try apply turn_frame_refl; try assumption.
    exists []. rewrite app_nil_r. repeat split.
  - destruct (deliver_spec w rd v Hrd) as (Hf & Hr & Hlog & Hev).
    destruct (IH (deliver w v) _ Hr) as (Hf' & Hr' & Hlog' & evs & Hev' & Hcalls).
    assert (Htop : topic (this (deliver w v)) = topic (this w)) by apply Hf.
    assert (Hmax : maxMessages (this (deliver w v)) = maxMessages (this w)) by apply Hf.
    rewrite Htop, Hmax in *.
    change (feed (v :: vs) w) with (feed vs (deliver w v)).
    split; [eapply turn_frame_trans; eassumption|].
    split; [rewrite Hr', reader_after_after; reflexivity|].
    split; [rewrite Hlog', Hlog; reflexivity|].
    eexists. split; [rewrite Hev', Hev, <- app_assoc; reflexivity|].
    rewrite accepted_cons. destruct Hcalls as (H1 & H2 & H3 & H4 & H5).
    unfold turn_calls.
    destruct (filtered_out (topic (this w)) v); calls;
      rewrite ?H1, ?H2, ?H3, ?H4, ?H5; repeat split; reflexivity.
Qed.

(** The loop takes the leading messages of the reader's script one by one. *)
Lemma whileRunning_feed vs : forall fuel w rd tl,
  isRunning (this w) = true ->
  reader (this w) = Some rd ->
  rd_reads rd = map ReadValue vs ++ tl ->
  whileRunning (length vs + fuel) w = whileRunning fuel (feed vs w).
Proof.
  induction vs as [|v vs IH]; intros fuel w rd tl Hrun Hrd Hreads.
  - reflexivity.
  - cbn [length Nat.add]. rewrite (whileRunning_step _ w rd Hrun Hrd), Hreads.
    cbn [map app].
    destruct (deliver_spec w rd v Hrd) as (Hf & Hr & _).
    change (feed (v :: vs) w) with (feed vs (deliver w v)).
    eapply IH; [|exact Hr|].
    + destruct Hf as (_ & _ & _ & Hrun' & _). congruence.
    + unfold reader_after. cbn. rewrite Hreads. reflexivity.
Qed.

(** Every script is a run of messages followed by an answer that is not a
    message, or by nothing. *)
Lemma script_split rs :
  rs = map ReadValue (delivered rs) ++ drop (length (delivered rs)) rs.
Proof.
  induction rs as [|[v| |e] rs IH]; cbn; try reflexivity.
  f_equal. exact IH.
Qed.

Lemma script_rest rs v tl :
  drop (length (delivered rs)) rs <> ReadValue v :: tl.
Proof.
  induction rs as [|[v'| |e] rs IH]; cbn; try discriminate. exact IH.
Qed.

Lemma delivered_values vs tl :
  (forall v tl', tl <> ReadValue v :: tl') ->
  delivered (map ReadValue vs ++ tl) = vs.
Proof.
  intros Htl. induction vs as [|v vs IH]; cbn.
  - destruct tl as [|[v| |e] tl]; try reflexivity. exfalso. eapply Htl. reflexivity.
  - f_equal. exact IH.
Qed.

(** ** The read loop as a whole *)

(** With the manager running and a reader held, the loop takes the messages
    the reader delivers; it then stalls when the script is used up, closes
    the subscription when the stream is done, and takes the error path when
    a read fails. *)
Lemma readLoop_spec w rd :
  isRunning (this w) = true ->
  reader (this w) = Some rd ->
  readLoop w =
    match drop (length (delivered (rd_reads rd))) (rd_reads rd) with
    | [] => Awaiting (feed (delivered (rd_reads rd)) w)
    | ReadDone :: _ =>
        updateState SubscriptionState.Closed
          (advance (feed (delivered (rd_reads rd)) w))
    | ReadFails e :: _ =>
        handleError e (advance (feed (delivered (rd_reads rd)) w))
    | ReadValue _ :: _ => Awaiting (feed (delivered (rd_reads rd)) w)
    end.
Proof.
  intros Hrun Hrd. unfold readLoop.
  rewrite bind_eq. unfold get at 1. cbv beta iota. rewrite Hrd.
  unfold try_catch. rewrite bind_eq.
  pose proof (script_split (rd_reads rd)) as Hsplit.
  pose proof (script_rest (rd_reads rd)) as Hrest.
  pose proof (f_equal length Hsplit) as Hlen.
  rewrite length_app, length_map in Hlen.
  set (vs := delivered (rd_reads rd)) in *.
  set (tl := drop (length vs) (rd_reads rd)) in *.
  replace (S (length (rd_reads rd))) with (length vs + S (length tl))%nat by lia.
  rewrite (whileRunning_feed vs _ w rd tl Hrun Hrd Hsplit).
  destruct (feed_spec vs w rd Hrd) as (Hf & Hr & _).
  assert (Hrun' : isRunning (this (feed vs w)) = true)
    by (destruct Hf as (_ & _ & _ & H & _); congruence).
  rewrite (whileRunning_step _ _ _ Hrun' Hr).
  assert (Hrun'' : isRunning (this (advance (feed vs w))) = true)
    by (rewrite (advance_this _ _ Hr); exact Hrun').
  change (rd_reads (reader_after (length vs) rd)) with tl.
  destruct tl as [|[v| |e] tl'].
  - reflexivity.
  - exfalso. eapply Hrest. reflexivity.
  - cbv beta iota. unfold get. rewrite bind_eq. rewrite Hrun''.
    rewrite updateState_spec. reflexivity.
  - cbv beta iota. unfold get. rewrite bind_eq. rewrite Hrun''. reflexivity.
Qed.

(** A manager that is not running leaves the loop without a trace. *)
Lemma readLoop_stopped w :
  isRunning (this w) = false -> readLoop w = Returns tt w.
Proof.
  intros Hrun. unfold readLoop. exec.
  destruct (reader (this w)); [|reflexivity].
  rewrite whileRunning_stopped by assumption. rewrite Hrun. reflexivity.
Qed.

Lemma readLoop_no_reader w :
  reader (this w) = None -> readLoop w = Returns tt w.
Proof. intros Hrd. unfold readLoop. exec. rewrite Hrd. reflexivity. Qed.

(** ** The bounded buffer *)

Section Buffer.

Context {A : Type}.
Implicit Types l k : list A.

Lemma most_recent_length n l : length (most_recent n l) = Nat.min n (length l).
Proof. unfold most_recent. rewrite length_drop. lia. Qed.

Lemma most_recent_all n l : (length l <= n)%nat -> most_recent n l = l.
Proof.
  intros Hle. unfold most_recent.
  replace (length l - n)%nat with 0%nat by lia. reflexivity.
Qed.

(** The most recent entries are a suffix: what is evicted is the oldest. *)
Lemma most_recent_suffix n l :
  take (length l - n) l ++ most_recent n l = l.
Proof. unfold most_recent. apply take_drop. Qed.

(** Trimming early does not change what is retained in the end. *)
Lemma most_recent_app n l k :
  most_recent n (most_recent n l ++ k) = most_recent n (l ++ k).
Proof.
  unfold most_recent. rewrite !length_app, length_drop.
  set (d := (length l - n)%nat).
  rewrite <- (drop_app_le l k d) by lia.
  rewrite drop_drop. f_equal. lia.
Qed.

Lemma slice_from_end (max : Z) l :
  0 < max -> slice (- max) l = most_recent (Z.to_nat max) l.
Proof.
  intros Hmax. unfold slice, most_recent.
  destruct (Z.ltb_spec (- max) 0); [|lia]. f_equal. lia.
Qed.

End Buffer.

Lemma trimmed_most_recent max l :
  0 < max -> trimmed max l = most_recent (Z.to_nat max) l.
Proof.
  intros Hmax. unfold trimmed.
  destruct (Z.gtb_spec (Z.of_nat (length l)) max).
  - apply slice_from_end. assumption.
  - symmetry. apply most_recent_all. lia.
Qed.

(** The buffer after any run of turns: the most recent entries of what was
    there followed by what was accepted. *)
Lemma buffer_fold t max vs : forall l,
  0 < max ->
  (length l <= Z.to_nat max)%nat ->
  foldl (buffer_step t max) l vs =
  most_recent (Z.to_nat max) (l ++ accepted t vs).
Proof.
  induction vs as [|v vs IH]; intros l Hmax Hlen.
  - cbn. rewrite app_nil_r, most_recent_all; [reflexivity|assumption].
  - cbn [foldl]. rewrite accepted_cons. unfold buffer_step at 2.
    destruct (filtered_out t v).
    + apply IH; assumption.
    + rewrite trimmed_most_recent by assumption.
      rewrite IH; [|assumption|rewrite most_recent_length; lia].
      rewrite most_recent_app, <- app_assoc. reflexivity.
Qed.

(** The turns that take a message the filter rejects leave the buffer as it
    is: only the accepted messages are pushed. *)
Lemma buffer_fold_accepted t max vs : forall l,
  foldl (buffer_step t max) l vs =
  foldl (fun l v => trimmed max (l ++ [v])) l (accepted t vs).
Proof.
  induction vs as [|v vs IH]; intros l; [reflexivity|].
  cbn [foldl]. rewrite accepted_cons, IH. unfold buffer_step.
  destruct (filtered_out t v); reflexivity.
Qed.

(** The transitions that end the loop do not touch the buffer. *)
Lemma messageLog_record evs m w :
  messages m = messages (this w) ->
  messageLog (record evs (with_this m w)) = messageLog w.
Proof. intros Hm. unfold messageLog. cbn. rewrite Hm. reflexivity. Qed.

Lemma messageLog_advance w : messageLog (advance w) = messageLog w.
Proof. unfold advance, messageLog. destruct (reader (this w)); reflexivity. Qed.

Lemma getMessages_spec w :
  getMessages w =
  Returns (nextAddr w)
    (mkWorld (this w) (<[nextAddr w := messageLog w]> (heap w)) (S (nextAddr w))
       (events w) (refreshCalls w) (subscribeCalls w)).
Proof. reflexivity. Qed.

Lemma getMessages_contents w : contents (getMessages w) = messageLog w.
Proof. rewrite getMessages_spec. cbn. apply lookup_total_insert_eq. Qed.

Lemma getLatestMessage_spec w :
  getLatestMessage w = Returns (last (messageLog w)) w.
Proof. reflexivity. Qed.

(** The buffer the read loop leaves behind, whichever way it ends. *)
Lemma readLoop_messageLog w rd :
  isRunning (this w) = true ->
  reader (this w) = Some rd ->
  messageLog (world_of (readLoop w)) =
  foldl (buffer_step (topic (this w)) (maxMessages (this w))) (messageLog w)
    (delivered (rd_reads rd)).
Proof.
  intros Hrun Hrd. rewrite (readLoop_spec w rd Hrun Hrd).
  destruct (feed_spec (delivered (rd_reads rd)) w rd Hrd) as (_ & _ & Hlog & _).
  destruct (drop _ _) as [|[v| |e] tl]; cbn [world_of]; try assumption.
  - rewrite updateState_spec. cbn [world_of].
    rewrite messageLog_record by reflexivity.
    rewrite messageLog_advance. assumption.
  - rewrite handleError_spec. cbn [world_of].
    rewrite messageLog_record by reflexivity.
    rewrite messageLog_advance. assumption.
Qed.

(** ** How the read loop ends *)

Lemma ending_rest rs :
  match drop (length (delivered rs)) rs with
  | [] => ending rs = Stalls
  | ReadValue _ :: _ => False
  | ReadDone :: _ => ending rs = Ends
  | ReadFails e :: _ => ending rs = Breaks e
  end.
Proof. induction rs as [|[v| |e] rs IH]; cbn; try reflexivity. exact IH. Qed.

(** The read loop of a running manager that holds a reader: what it
    returns, the state it leaves, and the calls it makes, by the way the
    reader's script ends. *)
Lemma readLoop_outcome w rd :
  isRunning (this w) = true ->
  reader (this w) = Some rd ->
  exists w' evs,
    world_of (readLoop w) = w' /\
    events w' = events w ++ evs /\
    same_configuration (this w) (this w') /\
    token (this w') = token (this w) /\
    isRunning (this w') = true /\
    subscription (this w') = subscription (this w) /\
    (exists n, reader (this w') = Some (reader_after n rd)) /\
    refreshCalls w' = refreshCalls w /\
    subscribeCalls w' = subscribeCalls w /\
    changesReported evs = accepted (topic (this w)) (delivered (rd_reads rd)) /\
    stopsReported evs = 0%nat /\
    connectionAttempts evs = 0%nat /\
    match ending (rd_reads rd) with
    | Stalls =>
        readLoop w = Awaiting w' /\
        state (this w') = state (this w) /\
        stateChanges evs = [] /\ errorsReported evs = []
    | Ends =>
        readLoop w = Returns tt w' /\
        state (this w') = SubscriptionState.Closed /\
        stateChanges evs = fired (onStateChange (this w)) SubscriptionState.Closed /\
        errorsReported evs = []
    | Breaks e =>
        readLoop w = Returns tt w' /\
        state (this w') = SubscriptionState.Error /\
        stateChanges evs = fired (onStateChange (this w)) SubscriptionState.Error /\
        errorsReported evs = fired (onError (this w)) e
    end.
Proof.
  intros Hrun Hrd. rewrite (readLoop_spec w rd Hrun Hrd).
  pose proof (ending_rest (rd_reads rd)) as Hend.
  destruct (feed_spec (delivered (rd_reads rd)) w rd Hrd)
    as (Hf & Hr & _ & evs & Hev & Hc1 & Hc2 & Hc3 & Hc4 & Hc5).
  set (w1 := feed (delivered (rd_reads rd)) w) in *.
  destruct Hf as (Hcfg & Htok & Hst & Hrun1 & Hsub & Hrc & Hsc).
  assert (Hadv : this (advance w1) =
                 set_reader (Some (reader_after 1 (reader_after (length (delivered (rd_reads rd))) rd)))
                   (this w1)).
  { rewrite (advance_this _ _ Hr). unfold reader_after. cbn.
    destruct (drop _ (rd_reads rd)); reflexivity. }
  assert (Hadv_ev : events (advance w1) = events w ++ evs ++ [ReadCall]).
  { unfold advance. rewrite Hr. cbn. rewrite Hev, <- app_assoc. reflexivity. }
  assert (Hadv_rc : refreshCalls (advance w1) = refreshCalls w)
    by (unfold advance; rewrite Hr; exact Hrc).
  assert (Hadv_sc : subscribeCalls (advance w1) = subscribeCalls w)
    by (unfold advance; rewrite Hr; exact Hsc).
  unfold same_configuration in *. destruct_and!.
  destruct (drop _ (rd_reads rd)) as [|[v| |e] tl]; [|contradiction| |]; rewrite Hend.
  - exists w1, evs. cbn [world_of]. rewrite Hrun in Hrun1.
    repeat split; try assumption. eexists; eassumption.
  - rewrite updateState_spec. eexists _, _. cbn [world_of].
    split; [reflexivity|]. cbn. rewrite Hadv, Hadv_ev. cbn.
    split; [rewrite <- app_assoc; reflexivity|].
    repeat match goal with |- _ /\ _ => split end; try congruence;
      try (eexists; rewrite reader_after_after; reflexivity).
    all: calls; rewrite ?Hc1, ?Hc2, ?Hc3, ?Hc4, ?Hc5; try reflexivity.
    all: replace (onStateChange (this w1)) with (onStateChange (this w)) by congruence;
      reflexivity.
  - rewrite handleError_spec. eexists _, _. cbn [world_of].
    split; [reflexivity|]. cbn. rewrite Hadv, Hadv_ev. cbn.
    split; [rewrite <- app_assoc; reflexivity|].
    repeat match goal with |- _ /\ _ => split end; try congruence;
      try (eexists; rewrite reader_after_after; reflexivity).
    all: calls; rewrite ?Hc1, ?Hc2, ?Hc3, ?Hc4, ?Hc5; try reflexivity.
    all: replace (onStateChange (this w1)) with (onStateChange (this w)) by congruence;
      replace (onError (this w1)) with (onError (this w)) by congruence;
      reflexivity.
Qed.

(** ** [start] *)

(** The read loop never throws: it returns or it waits for the reader. *)
Lemma readLoop_no_throw w :
  (exists w', readLoop w = Returns tt w') \/ (exists w', readLoop w = Awaiting w').
Proof.
  destruct (isRunning (this w)) eqn:Hrun.
  - destruct (reader (this w)) as [rd|] eqn:Hrd.
    + destruct (readLoop_outcome w rd Hrun Hrd) as (w' & evs & _ & H).
      destruct_and!. destruct (ending (rd_reads rd)); destruct_and!; eauto.
    + left. eexists. apply readLoop_no_reader. assumption.
  - left. eexists. apply readLoop_stopped. assumption.
Qed.

Lemma try_catch_readLoop h w : try_catch readLoop h w = readLoop w.
Proof.
  unfold try_catch.
  destruct (readLoop_no_throw w) as [[w' H]|[w' H]]; rewrite H; reflexivity.
Qed.

Section Start.

Variable subscribe : nat -> Token -> Outcome StreamSubscription.

Ltac start_split :=
  match goal with
  | |- context [updateState _ _] => rewrite updateState_spec
  | |- context [handleError _ _] => rewrite handleError_spec
  | H : ?f (refreshCalls ?w) = _
    |- context [match ?f (refreshCalls ?w) with _ => _ end] => rewrite H
  | H : subscribe ?n ?t = _ |- context [match subscribe ?n ?t with _ => _ end] =>
      rewrite H
  | H : getReader ?s = _ |- context [match getReader ?s with _ => _ end] =>
      rewrite H
  | |- context [match ?f (refreshCalls ?w) with _ => _ end] =>
      destruct (f (refreshCalls w)) as [?t|?e] eqn:?
  | |- context [match subscribe ?n ?t with _ => _ end] =>
      destruct (subscribe n t) as [?s|?e] eqn:?
  | |- context [match getReader ?s with _ => _ end] =>
      destruct (getReader s) as [?rd|?e] eqn:?
  | H : token (this ?w) = _ |- context [match token (this ?w) with _ => _ end] =>
      rewrite H
  | H : refreshToken (this ?w) = _
    |- context [match refreshToken (this ?w) with _ => _ end] =>
      rewrite H
  | |- context [match readLoop ?w with _ => _ end] =>
      change (match readLoop w with
              | Returns a w0 => Returns a w0
              | Throws e w' => handleError e w'
              | Awaiting w0 => Awaiting w0
              end) with (try_catch readLoop handleError w);
      rewrite try_catch_readLoop
  end; exec.

(** A manager that is running: [start] warns and does nothing else. *)
Lemma start_running w :
  isRunning (this w) = true ->
  start subscribe w =
  Returns tt (record [ConsoleWarn "Subscription is already running"] w).
Proof. intros Hrun. unfold start. exec. rewrite Hrun. reflexivity. Qed.

(** A manager that is not running: [start] marks it running and acquires a
    token, a stream and a reader; the first failure takes the error path and
    [start] returns; with a reader the rest of [start] is the read loop. *)
Lemma start_spec w :
  isRunning (this w) = false ->
  match opening subscribe w with
  | Fails e =>
      exists w' evs,
        start subscribe w = Returns tt w' /\
        events w' = events w ++ evs /\
        state (this w') = SubscriptionState.Error /\
        isRunning (this w') = true /\
        reader (this w') = reader (this w) /\
        messages (this w') = messages (this w) /\
        heap w' = heap w /\
        same_configuration (this w) (this w') /\
        errorsReported evs = fired (onError (this w)) e /\
        changesReported evs = [] /\
        stopsReported evs = 0%nat /\
        (token (this w) <> None \/ refreshToken (this w) <> None ->
         (1 <= connectionAttempts evs)%nat) /\
        ((forall n t s, subscribe n t = Ok s -> stream_releases s) ->
         releases_cleanly (this w) -> releases_cleanly (this w'))
  | Ok rd =>
      exists w1 evs,
        start subscribe w = readLoop w1 /\
        events w1 = events w ++ evs /\
        state (this w1) = SubscriptionState.Active /\
        isRunning (this w1) = true /\
        reader (this w1) = Some rd /\
        subscription (this w1) <> None /\
        token (this w1) <> None /\
        same_configuration (this w) (this w1) /\
        messages (this w1) = messages (this w) /\
        heap w1 = heap w /\ nextAddr w1 = nextAddr w /\
        errorsReported evs = [] /\
        changesReported evs = [] /\
        stopsReported evs = 0%nat /\
        (1 <= connectionAttempts evs)%nat /\
        ((forall n t s, subscribe n t = Ok s -> stream_releases s) ->
         releases_cleanly (this w1))
  end.
Proof.
  intros Hrun. unfold opening, credential, start, call_refreshToken, call_subscribe.
  exec. rewrite Hrun. exec.
  destruct (token (this w)) as [t|] eqn:Htok;
    [|destruct (refreshToken (this w)) as [f|] eqn:Hrt]; exec.
  all: repeat start_split.
  all: eexists _, _; (split; [reflexivity|]); cbn.
  all: split; [rewrite <- ?app_assoc; reflexivity|].
  all: unfold same_configuration; cbn.
  all: repeat match goal with |- _ /\ _ => split end.
  all: try done; try congruence.
  all: try (calls; first [reflexivity | lia]).
  all: try (intros [?|?]; [|congruence]; calls; lia).
  all: try (intros [?|?]; congruence).
  all: unfold releases_cleanly, stream_releases, reader_releases; cbn.
  all: intros Hsrc; try intros [Hr Hs].
  all: repeat match goal with
         | H : subscribe _ _ = Ok _ |- _ => apply Hsrc in H; destruct H
         end.
  all: split; intros x Hx; simplify_eq; eauto.
Qed.

(** [start] on a manager that is not running and obtains a reader: the
    acquisition followed by the read loop. *)
Lemma start_outcome w rd :
  isRunning (this w) = false ->
  opening subscribe w = Ok rd ->
  exists w' evs,
    world_of (start subscribe w) = w' /\
    events w' = events w ++ evs /\
    same_configuration (this w) (this w') /\
    isRunning (this w') = true /\
    subscription (this w') <> None /\
    reader (this w') <> None /\
    changesReported evs = accepted (topic (this w)) (delivered (rd_reads rd)) /\
    stopsReported evs = 0%nat /\
    (1 <= connectionAttempts evs)%nat /\
    ((forall n t s, subscribe n t = Ok s -> stream_releases s) ->
     releases_cleanly (this w')) /\
    match ending (rd_reads rd) with
    | Stalls =>
        start subscribe w = Awaiting w' /\
        state (this w') = SubscriptionState.Active /\
        errorsReported evs = []
    | Ends =>
        start subscribe w = Returns tt w' /\
        state (this w') = SubscriptionState.Closed /\
        errorsReported evs = []
    | Breaks e =>
        start subscribe w = Returns tt w' /\
        state (this w') = SubscriptionState.Error /\
        errorsReported evs = fired (onError (this w)) e
    end.
Proof.
  intros Hrun Hopen. pose proof (start_spec w Hrun) as H. rewrite Hopen in H.
  destruct H as (w1 & evs1 & Hstart & Hev1 & Hst1 & Hrun1 & Hrd1 & Hsub1 & _ &
                 Hcfg1 & _ & _ & _ & He1 & Hc1 & Hs1 & Ha1 & Hrel1).
  destruct (readLoop_outcome w1 rd Hrun1 Hrd1)
    as (w' & evs & Hw' & Hev & Hcfg & _ & Hrun' & Hsub' & (n & Hrd') & _ & _ &
        Hc & Hs & Ha & Hend).
  exists w', (evs1 ++ evs). rewrite Hstart.
  unfold same_configuration in *. destruct_and!.
  repeat match goal with |- _ /\ _ => split end; try congruence.
  - rewrite Hev, Hev1, app_assoc. reflexivity.
  - calls. rewrite Hc1, Hc. cbn. congruence.
  - calls. lia.
  - calls. lia.
  - intros Hsrc. specialize (Hrel1 Hsrc). unfold releases_cleanly in *.
    destruct Hrel1 as [Hr Hsb]. split.
    + intros x Hx. rewrite Hrd' in Hx. simplify_eq. apply (Hr rd Hrd1).
    + intros x Hx. apply Hsb. congruence.
  - destruct (ending (rd_reads rd)); destruct_and!;
      repeat match goal with |- _ /\ _ => split end; try congruence;
      calls; rewrite ?He1; cbn; congruence.
Qed.

(** [start] never throws: it returns, or it waits for the reader. *)
Lemma start_no_throw w :
  (exists w', start subscribe w = Returns tt w') \/
  (exists w', start subscribe w = Awaiting w').
Proof.
  destruct (isRunning (this w)) eqn:Hrun.
  - left. eexists. apply start_running. assumption.
  - destruct (opening subscribe w) as [rd|e] eqn:Hopen.
    + destruct (start_outcome w rd Hrun Hopen) as (w' & evs & H).
      destruct_and!. destruct (ending (rd_reads rd)); destruct_and!; eauto.
    + pose proof (start_spec w Hrun) as H. rewrite Hopen in H.
      destruct H as (w' & evs & H & _). eauto.
Qed.



(** [start] leaves the configuration of the manager as it was. *)
Lemma start_configuration w :
  same_configuration (this w) (this (world_of (start subscribe w))).
Proof.
  destruct (isRunning (this w)) eqn:Hrun.
  - rewrite start_running by assumption. unfold same_configuration. cbn. tauto.
  - destruct (opening subscribe w) as [rd|e] eqn:Hopen.
    + destruct (start_outcome w rd Hrun Hopen) as (w' & evs & H).
      destruct_and!. subst w'. assumption.
    + pose proof (start_spec w Hrun) as H. rewrite Hopen in H.
      destruct H as (w' & evs & H). destruct_and!.
      match goal with H : start _ _ = _ |- _ => rewrite H end. assumption.
Qed.

(** ** [restart] and [refreshAndRestart] *)

(** [restart] stops, empties the buffer, and starts from a manager that is
    not running. *)
Lemma restart_spec w :
  exists w2 evs,
    restart subscribe w = start subscribe w2 /\
    events w2 = events w ++ evs /\
    isRunning (this w2) = false /\
    same_configuration (this w) (this w2) /\
    token (this w2) = token (this w) /\
    refreshCalls w2 = refreshCalls w /\
    subscribeCalls w2 = subscribeCalls w /\
    messageLog w2 = [] /\
    errorsReported evs = [] /\ changesReported evs = [] /\
    connectionAttempts evs = 0%nat /\
    (releases_cleanly (this w) ->
     state (this w2) = SubscriptionState.Closed /\
     reader (this w2) = None /\ subscription (this w2) = None /\
     stopsReported evs = length (fired (onStop (this w)) tt)).
Proof.
  destruct (stop_spec w) as (m' & evs & Hstop & Hcfg & Htok & Hmsg & Hrun & He &
                             Hc & Ha & _ & Hclean).
  unfold restart. rewrite bind_eq, Hstop. unfold clearMessages. exec.
  eexists _, evs. split; [reflexivity|]. cbn.
  unfold same_configuration in *. destruct_and!.
  repeat match goal with |- _ /\ _ => split end; try done.
  - unfold messageLog. cbn. apply lookup_total_insert_eq.
  - intros Hrel. destruct (Hclean Hrel) as (? & ? & ? & _ & Hs).
    repeat split; try assumption. rewrite Hs. destruct (onStop (this w)); reflexivity.
Qed.

Lemma refreshAndRestart_unconfigured w :
  refreshToken (this w) = None ->
  refreshAndRestart subscribe w = Throws NoRefreshTokenError w.
Proof. intros H. unfold refreshAndRestart. exec. rewrite H. reflexivity. Qed.

(** [refreshAndRestart] with a credential provider: a rejected fetch takes
    the error path; a token replaces the one held and [restart] follows. *)
Lemma refreshAndRestart_spec w f :
  refreshToken (this w) = Some f ->
  match f (refreshCalls w) with
  | Fails e =>
      refreshAndRestart subscribe w =
      handleError e
        (mkWorld (this w) (heap w) (nextAddr w) (events w ++ [RefreshTokenCall])
           (S (refreshCalls w)) (subscribeCalls w))
  | Ok t =>
      exists w2 evs,
        refreshAndRestart subscribe w = start subscribe w2 /\
        events w2 = events w ++ evs /\
        isRunning (this w2) = false /\
        same_configuration (this w) (this w2) /\
        token (this w2) = Some t /\
        refreshCalls w2 = S (refreshCalls w) /\
        subscribeCalls w2 = subscribeCalls w /\
        messageLog w2 = [] /\
        errorsReported evs = [] /\ changesReported evs = [] /\
        connectionAttempts evs = 1%nat /\
        (releases_cleanly (this w) ->
         state (this w2) = SubscriptionState.Closed /\
         reader (this w2) = None /\ subscription (this w2) = None)
  end.
Proof.
  intros Hrt. unfold refreshAndRestart, call_refreshToken.
  exec. rewrite Hrt. exec.
  destruct (f (refreshCalls w)) as [t|e]; exec; [|reflexivity].
  match goal with |- context [restart subscribe ?w1] =>
    destruct (restart_spec w1) as (w2 & evs & Hre & Hev & Hrun & Hcfg & Htok &
                                   Hrc & Hsc & Hlog & He & Hc & Ha & Hclean)
  end.
  rewrite Hre. cbn in *.
  exists w2, (RefreshTokenCall :: evs).
  split.
  { destruct (start_no_throw w2) as [[w' H]|[w' H]]; rewrite H; reflexivity. }
  unfold same_configuration in *. destruct_and!.
  repeat match goal with |- _ /\ _ => split end; try done.
  all: try (calls; rewrite ?He, ?Hc, ?Ha; reflexivity).
  - rewrite Hev, <- app_assoc. reflexivity.
  - intros Hrel. destruct (Hclean Hrel) as (? & ? & ? & _). auto.
Qed.

End Start.

(** ** The buffer of a manager from its construction on *)

Lemma messageLog_fresh options : messageLog (fresh options) = [].
Proof. reflexivity. Qed.

Lemma start_messageLog subscribe w rd :
  isRunning (this w) = false ->
  opening subscribe w = Ok rd ->
  messageLog (world_of (start subscribe w)) =
  foldl (buffer_step (topic (this w)) (maxMessages (this w))) (messageLog w)
    (delivered (rd_reads rd)).
Proof.
  intros Hrun Hopen. pose proof (start_spec subscribe w Hrun) as H.
  rewrite Hopen in H. destruct H as (w1 & evs & Hstart & H). destruct_and!.
  rewrite Hstart, (readLoop_messageLog w1 rd) by assumption.
  unfold same_configuration in *. destruct_and!.
  replace (messageLog w1) with (messageLog w)
    by (unfold messageLog; congruence).
  congruence.
Qed.

(** C4.  For every sequence of messages the read loop accepts, the buffer
    that [getMessages()] copies holds, in arrival order, the most recent
    [maxMessages] of what it held before followed by the accepted messages:
    never more than [maxMessages] entries, and when entries were evicted
    they are the oldest ones.  [getLatestMessage()] is the last accepted
    message.  [maxMessages] is a capacity, hence positive.  For a manager
    observed from its construction on, the buffer is the most recent
    [maxMessages] of all the messages accepted.  In particular, with
    [maxMessages = 2] and the messages [A], [B], [C] and no filter,
    [getMessages()] is [[B; C]] and [getLatestMessage()] is [C]. *)
Theorem buffer_keeps_most_recent :
  (forall w rd,
     isRunning (this w) = true ->
     reader (this w) = Some rd ->
     0 < maxMessages (this w) ->
     (length (messageLog w) <= Z.to_nat (maxMessages (this w)))%nat ->
     let arrived := accepted (topic (this w)) (delivered (rd_reads rd)) in
     let w' := world_of (readLoop w) in
     let kept := contents (getMessages w') in
     kept = most_recent (Z.to_nat (maxMessages (this w))) (messageLog w ++ arrived) /\
     (exists evicted, messageLog w ++ arrived = evicted ++ kept) /\
     length kept =
       Nat.min (Z.to_nat (maxMessages (this w))) (length (messageLog w ++ arrived)) /\
     (arrived <> [] -> returned (getLatestMessage w') = Some (last arrived))) /\
  (forall subscribe options rd,
     (forall n, opt_maxMessages options = Some n -> 0 <= n) ->
     opt_autoStart options <> Some false ->
     opening subscribe (fresh options) = Ok rd ->
     let arrived := accepted (opt_topic options) (delivered (rd_reads rd)) in
     let w := world_of (createSubscriptionManager subscribe options) in
     let kept := contents (getMessages w) in
     kept = most_recent (Z.to_nat (maxMessages (this w))) arrived /\
     (exists evicted, arrived = evicted ++ kept) /\
     (Z.of_nat (length kept) <= maxMessages (this w))) /\
  (forall A B C,
     let w := world_of (createSubscriptionManager
                          (serve (plain_stream [ReadValue A; ReadValue B; ReadValue C]))
                          (options_with None (Some 2))) in
     contents (getMessages w) = [B; C] /\
     returned (getLatestMessage w) = Some (Some C)).
Proof.
  split; [|split].
  - intros w rd Hrun Hrd Hmax Hlen arrived w' kept.
    assert (Hkept : kept = most_recent (Z.to_nat (maxMessages (this w)))
                             (messageLog w ++ arrived)).
    { unfold kept, w'. rewrite getMessages_contents.
      rewrite (readLoop_messageLog w rd Hrun Hrd).
      apply buffer_fold; assumption. }
    split; [exact Hkept|]. split; [|split].
    + eexists. rewrite Hkept. symmetry. apply most_recent_suffix.
    + rewrite Hkept. apply most_recent_length.
    + intros Hne. rewrite getLatestMessage_spec. cbn [returned]. f_equal.
      unfold kept in Hkept. rewrite getMessages_contents in Hkept.
      fold w'. rewrite Hkept.
      destruct (exists_last Hne) as (front & v & Harr).
      rewrite Harr, app_assoc.
      unfold most_recent. rewrite !last_snoc, length_app. cbn [length].
      rewrite drop_app_le by (rewrite !length_app; cbn; lia).
      apply last_snoc.
  - intros subscribe options rd Hcap Hauto Hopen arrived w kept.
    assert (Hw : w = world_of (start subscribe (fresh options))).
    { unfold w, createSubscriptionManager.
      destruct (opt_autoStart options) as [[]|]; try reflexivity. contradiction. }
    assert (Hmax : maxMessages (this w) = maxMessages (this (fresh options))).
    { rewrite Hw. apply (start_configuration subscribe (fresh options)). }
    assert (Hpos : 0 < maxMessages (this (fresh options))).
    { cbn. destruct (opt_maxMessages options) as [n|] eqn:Hn; [|lia].
      specialize (Hcap n eq_refl). destruct (Z.eqb_spec n 0); lia. }
    assert (Hkept : kept = most_recent (Z.to_nat (maxMessages (this w))) arrived).
    { unfold kept. rewrite Hmax, getMessages_contents, Hw.
      rewrite (start_messageLog subscribe (fresh options) rd eq_refl Hopen).
      rewrite messageLog_fresh.
      rewrite buffer_fold; [reflexivity|assumption|cbn; lia]. }
    split; [exact Hkept|]. split.
    + eexists. rewrite Hkept. symmetry. apply most_recent_suffix.
    + rewrite Hkept, most_recent_length. lia.
  - intros A B C. vm_compute. split; reflexivity.
Qed.

(** The general statement of [buffer_keeps_most_recent] at a manager with
    capacity 2 that receives three messages. *)
Lemma buffer_keeps_most_recent_witness :
  let A := mkMessage "x" 1 in
  let B := mkMessage "x" 2 in
  let C := mkMessage "x" 3 in
  let w := listening None 2 quiet_onChange [ReadValue A; ReadValue B; ReadValue C] in
  isRunning (this w) = true /\
  0 < maxMessages (this w) /\
  contents (getMessages (world_of (readLoop w))) = [B; C] /\
  returned (getLatestMessage (world_of (readLoop w))) = Some (Some C).
Proof.
  cbv zeta.
  pose proof (proj1 buffer_keeps_most_recent
                (listening None 2 quiet_onChange
                   [ReadValue (mkMessage "x" 1); ReadValue (mkMessage "x" 2);
                    ReadValue (mkMessage "x" 3)])
                _ eq_refl eq_refl eq_refl (le_0_n _)) as H.
  cbv zeta in H. destruct H as (Hkept & _ & _ & Hlast).
  split; [reflexivity|]. split; [reflexivity|].
  split; [exact Hkept|]. apply Hlast. discriminate.
Defined.

(** ** Claims about failures and about the end of the stream *)

Lemma since_app w w' evs :
  events w' = events w ++ evs -> since (length (events w)) w' = evs.
Proof. intros H. unfold since. rewrite H. apply drop_app_length. Qed.

Lemma ending_values vs tl : ending (map ReadValue vs ++ tl) = ending tl.
Proof. induction vs as [|v vs IH]; [reflexivity|exact IH]. Qed.





(** C8.  When the stream signals completion ([done: true]) while the manager
    is running, the read loop, and with it [start()], returns with the
    state [Closed], and [onError] is not called. *)
Theorem stream_end_closes_without_error :
  (forall w rd vs rest,
     isRunning (this w) = true ->
     reader (this w) = Some rd ->
     rd_reads rd = map ReadValue vs ++ ReadDone :: rest ->
     exists w',
       readLoop w = Returns tt w' /\
       state (this w') = SubscriptionState.Closed /\
       errorsReported (since (length (events w)) w') = []) /\
  (forall subscribe w rd vs rest,
     isRunning (this w) = false ->
     opening subscribe w = Ok rd ->
     rd_reads rd = map ReadValue vs ++ ReadDone :: rest ->
     exists w',
       start subscribe w = Returns tt w' /\
       state (this w') = SubscriptionState.Closed /\
       errorsReported (since (length (events w)) w') = []).
Proof.
  split.
  - intros w rd vs rest Hrun Hrd Hreads.
    destruct (readLoop_outcome w rd Hrun Hrd) as (w' & evs & _ & Hev & H).
    rewrite Hreads, ending_values in H. cbn [ending] in H. destruct_and!.
    exists w'. repeat split; try assumption.
    erewrite since_app by eassumption. assumption.
  - intros subscribe w rd vs rest Hrun Hopen Hreads.
    destruct (start_outcome subscribe w rd Hrun Hopen) as (w' & evs & _ & Hev & H).
    rewrite Hreads, ending_values in H. cbn [ending] in H. destruct_and!.
    exists w'. repeat split; try assumption.
    erewrite since_app by eassumption. assumption.
Qed.

(** [stream_end_closes_without_error] at a manager whose stream delivers
    one message and ends. *)
Lemma stream_end_closes_without_error_witness :
  let w := listening None 1000 quiet_onChange [ReadValue (mkMessage "x" 1); ReadDone] in
  isRunning (this w) = true /\
  exists w',
    readLoop w = Returns tt w' /\
    state (this w') = SubscriptionState.Closed /\
    errorsReported (since (length (events w)) w') = [].
Proof.
  cbv zeta. split; [reflexivity|].
  exact (proj1 stream_end_closes_without_error
           (listening None 1000 quiet_onChange [ReadValue (mkMessage "x" 1); ReadDone])
           _ [mkMessage "x" 1] [] eq_refl eq_refl eq_refl).
Defined.

(** ** The default capacity *)

Lemma createSubscriptionManager_maxMessages subscribe options :
  maxMessages (this (world_of (createSubscriptionManager subscribe options))) =
  maxMessages (this (fresh options)).
Proof.
  unfold createSubscriptionManager.
  destruct (opt_autoStart options) as [[]|]; try reflexivity.
  all: apply (start_configuration subscribe (fresh options)).
Qed.

(** C10.  A manager constructed with [maxMessages = 0], like one constructed
    without [maxMessages], has capacity 1000: the constructor tests the
    option for truthiness.  No option yields capacity 0, and a manager
    configured with 0 keeps the messages it receives. *)
Theorem zero_capacity_is_default_capacity :
  (forall subscribe tok rt tp oc osc oe os auto,
     maxMessages
       (this (world_of (createSubscriptionManager subscribe
                          (mkOptions tok rt tp oc osc oe os auto (Some 0))))) = 1000 /\
     maxMessages
       (this (world_of (createSubscriptionManager subscribe
                          (mkOptions tok rt tp oc osc oe os auto None)))) = 1000) /\
  (forall subscribe options,
     maxMessages (this (world_of (createSubscriptionManager subscribe options))) <> 0) /\
  (forall A B C,
     contents
       (getMessages
          (world_of (createSubscriptionManager
                       (serve (plain_stream [ReadValue A; ReadValue B; ReadValue C]))
                       (options_with None (Some 0))))) = [A; B; C]).
Proof.
  split; [|split].
  - intros. rewrite !createSubscriptionManager_maxMessages. split; reflexivity.
  - intros subscribe options. rewrite createSubscriptionManager_maxMessages.
    unfold fresh. cbn. destruct (opt_maxMessages options) as [n|]; [|discriminate].
    destruct (Z.eqb_spec n 0); [discriminate|assumption].
  - intros A B C. vm_compute. reflexivity.
Qed.

(** ** Callbacks that throw *)

(** C7.  Whatever the callbacks do, return or throw, the operation that
    calls them goes on.  [updateState] sets the state and calls
    [onStateChange] exactly once with the new state; the error path and
    [stop] complete; and the read loop announces and buffers every message
    it accepts, also after an [onChange] that threw.  The callbacks are
    arbitrary here: nothing is assumed about what they answer. *)
Theorem callbacks_cannot_abort :
  (forall s w,
     exists w',
       updateState s w = Returns tt w' /\
       state (this w') = s /\
       stateChanges (since (length (events w)) w') = fired (onStateChange (this w)) s) /\
  (forall e w,
     exists w',
       handleError e w = Returns tt w' /\
       state (this w') = SubscriptionState.Error /\
       stateChanges (since (length (events w)) w') =
         fired (onStateChange (this w)) SubscriptionState.Error /\
       errorsReported (since (length (events w)) w') = fired (onError (this w)) e) /\
  (forall w,
     releases_cleanly (this w) ->
     exists w',
       stop w = Returns tt w' /\
       state (this w') = SubscriptionState.Closed /\
       stateChanges (since (length (events w)) w') =
         fired (onStateChange (this w)) SubscriptionState.Closed /\
       stopsReported (since (length (events w)) w') = length (fired (onStop (this w)) tt)) /\
  (forall w rd,
     isRunning (this w) = true ->
     reader (this w) = Some rd ->
     changesReported (since (length (events w)) (world_of (readLoop w))) =
       accepted (topic (this w)) (delivered (rd_reads rd)) /\
     messageLog (world_of (readLoop w)) =
       foldl (fun l v => trimmed (maxMessages (this w)) (l ++ [v])) (messageLog w)
         (accepted (topic (this w)) (delivered (rd_reads rd))) /\
     (forall vs rest,
        rd_reads rd = map ReadValue vs ++ ReadDone :: rest ->
        exists w',
          readLoop w = Returns tt w' /\
          state (this w') = SubscriptionState.Closed /\
          stateChanges (since (length (events w)) w') =
            fired (onStateChange (this w)) SubscriptionState.Closed)).
Proof.
  split; [|split; [|split]].
  - intros s w. rewrite updateState_spec. eexists. split; [reflexivity|].
    split; [reflexivity|].
    unfold since. cbn. rewrite drop_app_length. calls. reflexivity.
  - intros e w. rewrite handleError_spec. eexists. split; [reflexivity|].
    split; [reflexivity|].
    unfold since. cbn. rewrite drop_app_length. split; calls; reflexivity.
  - intros w Hrel.
    destruct (stop_spec w) as (m' & evs & Hstop & _ & _ & _ & _ & _ & _ & _ & _ & Hclean).
    destruct (Hclean Hrel) as (Hst & _ & _ & Hsc & Hsr).
    eexists. split; [exact Hstop|]. cbn. split; [assumption|].
    unfold since. cbn. rewrite drop_app_length.
    split; [rewrite Hsc|rewrite Hsr].
    + destruct (onStateChange (this w)); reflexivity.
    + destruct (onStop (this w)); reflexivity.
  - intros w rd Hrun Hrd.
    destruct (readLoop_outcome w rd Hrun Hrd) as (w' & evs & Hw' & Hev & H).
    destruct_and!. rewrite Hw'. split; [|split].
    + rewrite (since_app w w' evs Hev). assumption.
    + rewrite <- Hw', (readLoop_messageLog w rd Hrun Hrd).
      apply buffer_fold_accepted.
    + intros vs rest Hreads.
      match goal with H : match ending _ with _ => _ end |- _ =>
        rewrite Hreads, ending_values in H; cbn [ending] in H;
        destruct H as (Hret & Hst & Hsc & _)
      end.
      exists w'. repeat split; try assumption.
      rewrite (since_app w w' evs Hev). assumption.
Qed.

(** [callbacks_cannot_abort] at a manager all of whose callbacks throw: it
    stops cleanly, and its read loop takes both messages of the stream. *)
Lemma callbacks_cannot_abort_witness :
  let boom := mkError "callback failed" in
  let A := mkMessage "x" 1 in
  let B := mkMessage "x" 2 in
  let w :=
    mkWorld
      (mkManager (Some a_token) None None (fun _ _ => Fails boom)
         (Some (fun _ => Fails boom)) (Some (fun _ => Fails boom))
         (Some (fun _ => Fails boom))
         SubscriptionState.Active 0%nat 1000
         (Some (plain_stream [])) (Some (plain_reader [ReadValue A; ReadValue B])) true)
      {[ 0%nat := [] ]} 1%nat [] 0%nat 0%nat in
  releases_cleanly (this w) /\
  (exists w', stop w = Returns tt w' /\
              state (this w') = SubscriptionState.Closed /\
              stateChanges (since (length (events w)) w') = [SubscriptionState.Closed] /\
              stopsReported (since (length (events w)) w') = 1%nat) /\
  changesReported (since (length (events w)) (world_of (readLoop w))) = [A; B] /\
  messageLog (world_of (readLoop w)) = [A; B].
Proof.
  cbv zeta.
  set (w := mkWorld _ _ _ _ _ _).
  assert (Hrel : releases_cleanly (this w)).
  { split; intros x Hx; cbn in Hx; simplify_eq; [split|]; reflexivity. }
  split; [exact Hrel|]. split.
  - exact (proj1 (proj2 (proj2 callbacks_cannot_abort)) w Hrel).
  - destruct (proj2 (proj2 (proj2 callbacks_cannot_abort)) w _ eq_refl eq_refl)
      as (Hc & Hl & _).
    split; [exact Hc|exact Hl].
Defined.

(** ** Claims about [stop] *)

(** C1, as stated, fails: when [reader.cancel()] rejects, [stop] returns
    with the reader and the stream still held, the state still [Active],
    and [onStop] not called. *)
Lemma stop_gives_up_when_cancel_rejects :
  state (this stuck_manager) = SubscriptionState.Active /\
  onStop (this stuck_manager) <> None /\
  exists w',
    stop stuck_manager = Returns tt w' /\
    state (this w') = SubscriptionState.Active /\
    reader (this w') <> None /\
    subscription (this w') <> None /\
    stopsReported (events w') = 0%nat.
Proof.
  split; [reflexivity|]. split; [discriminate|].
  eexists. split; [vm_compute; reflexivity|].
  cbn. repeat split; discriminate.
Qed.

(** C1, amended.  For every manager in any state, [stop()] never throws and
    leaves the manager not running, so that [isActive()] is false; this
    holds when cancellation throws and when [stop()] is called twice in a
    row.  When cancelling and releasing what the manager holds does not
    throw, [stop()] has on completion cleared the reader and the stream,
    set the state to [Closed], and called [onStop], when there is one,
    exactly once; so has a second [stop()]. *)
Theorem stop_never_throws :
  forall w,
    exists w',
      stop w = Returns tt w' /\
      isRunning (this w') = false /\
      returned (isActive w') = Some false /\
      (releases_cleanly (this w) ->
       state (this w') = SubscriptionState.Closed /\
       reader (this w') = None /\
       subscription (this w') = None /\
       stopsReported (since (length (events w)) w') = length (fired (onStop (this w)) tt)) /\
      exists w'',
        stop w' = Returns tt w'' /\
        isRunning (this w'') = false /\
        returned (isActive w'') = Some false /\
        (releases_cleanly (this w) ->
         state (this w'') = SubscriptionState.Closed /\
         reader (this w'') = None /\
         subscription (this w'') = None /\
         stopsReported (since (length (events w')) w'') =
           length (fired (onStop (this w)) tt)).
Proof.
  intros w.
  destruct (stop_spec w) as (m1 & evs1 & Hstop1 & Hcfg1 & _ & _ & Hrun1 & _ & _ & _ &
                             _ & Hclean1).
  set (w1 := mkWorld m1 _ _ _ _ _) in *.
  destruct (stop_spec w1) as (m2 & evs2 & Hstop2 & Hcfg2 & _ & _ & Hrun2 & _ & _ & _ &
                              _ & Hclean2).
  set (w2 := mkWorld m2 _ _ _ _ _) in *.
  assert (Hstops : forall h : option (unit -> Outcome unit),
             match h with Some _ => 1%nat | None => 0%nat end = length (fired h tt))
    by (intros [?|]; reflexivity).
  exists w1. split; [exact Hstop1|]. split; [exact Hrun1|].
  split; [cbn; rewrite Hrun1; reflexivity|]. split.
  - intros Hrel. destruct (Hclean1 Hrel) as (Hst & Hrd & Hsub & _ & Hsr).
    repeat split; try assumption.
    unfold since. cbn. rewrite drop_app_length, Hsr. apply Hstops.
  - exists w2. split; [exact Hstop2|]. split; [exact Hrun2|].
    split; [cbn; rewrite Hrun2; reflexivity|].
    intros Hrel. destruct (Hclean1 Hrel) as (_ & Hrd & Hsub & _).
    assert (Hrel1 : releases_cleanly (this w1)).
    { split; intros x Hx; cbn in Hx; congruence. }
    destruct (Hclean2 Hrel1) as (Hst & Hrd2 & Hsub2 & _ & Hsr).
    repeat split; try assumption.
    unfold since. cbn. rewrite drop_app_length, Hsr, <- Hstops.
    unfold same_configuration in Hcfg1. destruct_and!. cbn.
    replace (onStop m1) with (onStop (this w)) by congruence. reflexivity.
Qed.

(** [stop_never_throws] at a manager that is listening to an open stream. *)
Lemma stop_never_throws_witness :
  let w := listening None 1000 quiet_onChange [] in
  releases_cleanly (this w) /\
  exists w',
    stop w = Returns tt w' /\
    state (this w') = SubscriptionState.Closed /\
    reader (this w') = None /\
    subscription (this w') = None /\
    stopsReported (since (length (events w)) w') = 1%nat.
Proof.
  cbv zeta.
  assert (Hrel : releases_cleanly (this (listening None 1000 quiet_onChange []))).
  { split; intros x Hx; cbn in Hx; simplify_eq; [split|]; reflexivity. }
  split; [exact Hrel|].
  destruct (stop_never_throws (listening None 1000 quiet_onChange []))
    as (w' & Hstop & _ & _ & Hclean & _).
  exists w'. split; [exact Hstop|]. exact (Hclean Hrel).
Defined.

(** ** The topic filter *)

Lemma filtered_out_topic T v :
  T <> "" -> filtered_out (Some T) v = negb (String.eqb (msg_topic v) T).
Proof.
  intros HT. unfold filtered_out.
  destruct (String.eqb_spec T ""); [contradiction|reflexivity].
Qed.

Lemma accepted_topic T vs :
  T <> "" -> accepted (Some T) vs = filter (fun v => msg_topic v = T) vs.
Proof.
  intros HT. induction vs as [|v vs IH]; [reflexivity|].
  rewrite accepted_cons, filter_cons, IH, filtered_out_topic by assumption.
  destruct (String.eqb_spec (msg_topic v) T); case_decide; cbn; congruence.
Qed.

(** The turns that take rejected messages only move the reader on. *)
Lemma feed_rejected vs : forall w rd,
  reader (this w) = Some rd ->
  Forall (fun v => filtered_out (topic (this w)) v = true) vs ->
  feed vs w =
  mkWorld (set_reader (Some (reader_after (length vs) rd)) (this w)) (heap w)
    (nextAddr w) (events w ++ replicate (length vs) ReadCall)
    (refreshCalls w) (subscribeCalls w).
Proof.
  induction vs as [|v vs IH]; intros w rd Hrd Hall.
  - cbn. rewrite app_nil_r, reader_after_0.
    destruct w as [m ? ? ? ? ?]. cbn in *. destruct m. cbn in *. subst. reflexivity.
  - apply Forall_cons in Hall as [Hv Hall].
    change (feed (v :: vs) w) with (feed vs (deliver w v)).
    assert (Hd : deliver w v = advance w).
    { unfold deliver. cbv zeta. rewrite (advance_this w rd Hrd). cbn. rewrite Hv.
      reflexivity. }
    rewrite Hd.
    assert (Ha : advance w =
                 mkWorld (set_reader (Some (reader_after 1 rd)) (this w)) (heap w)
                   (nextAddr w) (events w ++ [ReadCall]) (refreshCalls w)
                   (subscribeCalls w)).
    { unfold advance. rewrite Hrd. unfold reader_after. cbn.
      destruct (rd_reads rd); reflexivity. }
    rewrite Ha. erewrite IH; [|reflexivity|exact Hall].
    cbn. rewrite reader_after_after, <- app_assoc. reflexivity.
Qed.

(** C6, as stated, fails for the empty string: it is a string, but the read
    loop tests the filter for truthiness, so every message passes. *)
Lemma empty_topic_filter_excludes_nothing :
  let m := mkMessage "y" 2 in
  let w := world_of (createSubscriptionManager (serve (plain_stream [ReadValue m]))
                       (options_with (Some "") None)) in
  topic (this w) = Some "" /\
  msg_topic m <> "" /\
  contents (getMessages w) = [m] /\
  changesReported (events w) = [m].
Proof. cbv zeta. repeat split; try reflexivity. discriminate. Qed.

(** C6, amended.  When a non-empty topic filter [T] is set, the messages
    whose topic differs from [T] are excluded from the buffer and from
    [onChange]: the read loop announces and pushes the messages of topic [T]
    only, and a run of messages of other topics changes nothing but the
    position of the reader: no array is touched or allocated and no
    callback is called.  In particular, with topic ["x"] and the arrivals
    [{x,1}], [{y,2}], [{x,3}], [getMessages()] is [[{x,1}; {x,3}]] and
    [onChange] was called exactly twice. *)
Theorem topic_filter_excludes_other_topics :
  (forall w rd T,
     isRunning (this w) = true ->
     reader (this w) = Some rd ->
     topic (this w) = Some T ->
     T <> "" ->
     let matching := filter (fun v => msg_topic v = T) (delivered (rd_reads rd)) in
     let w' := world_of (readLoop w) in
     changesReported (since (length (events w)) w') = matching /\
     messageLog w' =
       foldl (fun l v => trimmed (maxMessages (this w)) (l ++ [v])) (messageLog w)
         matching) /\
  (forall w rd T vs,
     isRunning (this w) = true ->
     reader (this w) = Some rd ->
     topic (this w) = Some T ->
     T <> "" ->
     rd_reads rd = map ReadValue vs ->
     Forall (fun v => msg_topic v <> T) vs ->
     readLoop w =
     Awaiting
       (mkWorld (set_reader (Some (reader_after (length vs) rd)) (this w)) (heap w)
          (nextAddr w) (events w ++ replicate (length vs) ReadCall)
          (refreshCalls w) (subscribeCalls w))) /\
  (let x1 := mkMessage "x" 1 in
   let y2 := mkMessage "y" 2 in
   let x3 := mkMessage "x" 3 in
   let w := world_of (createSubscriptionManager
                        (serve (plain_stream [ReadValue x1; ReadValue y2; ReadValue x3]))
                        (options_with (Some "x") None)) in
   contents (getMessages w) = [x1; x3] /\
   changesReported (events w) = [x1; x3] /\
   length (changesReported (events w)) = 2%nat).
Proof.
  split; [|split].
  - intros w rd T Hrun Hrd Htopic HT matching w'.
    destruct (readLoop_outcome w rd Hrun Hrd) as (w1 & evs & Hw1 & Hev & H).
    destruct_and!. unfold w', matching.
    rewrite <- (accepted_topic T _ HT), <- Htopic. split.
    + rewrite Hw1, (since_app w w1 evs Hev). assumption.
    + rewrite (readLoop_messageLog w rd Hrun Hrd). apply buffer_fold_accepted.
  - intros w rd T vs Hrun Hrd Htopic HT Hreads Hall.
    assert (Hdel : delivered (map ReadValue vs) = vs).
    { rewrite <- (app_nil_r (map ReadValue vs)).
      apply delivered_values. discriminate. }
    assert (Hdrop : drop (length vs) (map ReadValue vs) = []).
    { apply drop_ge. rewrite length_map. reflexivity. }
    rewrite (readLoop_spec w rd Hrun Hrd), Hreads, Hdel, Hdrop.
    f_equal. apply feed_rejected; [assumption|].
    rewrite Htopic. eapply Forall_impl; [exact Hall|].
    intros v Hv. cbn beta in Hv. rewrite filtered_out_topic by assumption.
    destruct (String.eqb_spec (msg_topic v) T); [contradiction|reflexivity].
  - cbv zeta. repeat split; reflexivity.
Qed.

(** [topic_filter_excludes_other_topics] at a manager filtering on ["x"]
    that receives a message of topic ["y"]. *)
Lemma topic_filter_excludes_other_topics_witness :
  let w := listening (Some "x") 1000 quiet_onChange [ReadValue (mkMessage "y" 2)] in
  isRunning (this w) = true /\
  topic (this w) = Some "x" /\
  "x" <> "" /\
  changesReported (since (length (events w)) (world_of (readLoop w))) = [] /\
  messageLog (world_of (readLoop w)) = [].
Proof.
  cbv zeta. split; [reflexivity|]. split; [reflexivity|].
  assert (Hx : "x" <> "") by discriminate.
  split; [exact Hx|].
  exact (proj1 topic_filter_excludes_other_topics
           (listening (Some "x") 1000 quiet_onChange [ReadValue (mkMessage "y" 2)])
           _ "x" eq_refl eq_refl eq_refl Hx).
Defined.

(** ** Exposure of the buffer *)

(** The array [getMessages()] returns is a fresh one: whatever its holder
    does to it, the buffer of the manager stays as it is. *)
Lemma getMessages_is_a_copy w f :
  (messages (this w) < nextAddr w)%nat ->
  exists a w',
    getMessages w = Returns a w' /\
    heap w' !!! a = messageLog w /\
    a <> messages (this w') /\
    messageLog (world_of (mutate a f w')) = messageLog w.
Proof.
  intros Hwf. rewrite getMessages_spec. eexists _, _. split; [reflexivity|].
  cbn. split; [apply lookup_total_insert_eq|]. split; [lia|].
  unfold messageLog. cbn.
  rewrite !lookup_total_insert_ne by lia. reflexivity.
Qed.

Lemma getMessages_is_a_copy_witness :
  let w := listening None 1000 quiet_onChange [] in
  (messages (this w) < nextAddr w)%nat /\
  exists a w',
    getMessages w = Returns a w' /\
    heap w' !!! a = messageLog w /\
    a <> messages (this w') /\
    messageLog (world_of (mutate a (fun _ => [mkMessage "z" 0]) w')) = messageLog w.
Proof.
  cbv zeta. split; [cbn; lia|].
  apply (getMessages_is_a_copy (listening None 1000 quiet_onChange [])).
  cbn. lia.
Defined.

(** C2.  [getMessages()] returns a copy, but [onChange] is handed the
    reference the manager itself holds in [this.messages], not a snapshot:
    for every accepted message, the array passed to [onChange] is the
    buffer, and what its receiver does to that array is done to the
    buffer.  At the failing input, a receiver that empties the array it was
    handed empties the message log: [getMessages()] is [[]] although [A] was
    accepted. *)
Theorem onChange_is_handed_the_buffer :
  (forall v w,
     exists w' rest,
       accept v w = Returns tt w' /\
       events w' =
         events w ++ OnChange v (messages (this w')) (messageLog w') :: rest /\
       forall f,
         messageLog (world_of (mutate (messages (this w')) f w')) = f (messageLog w')) /\
  (let A := mkMessage "x" 1 in
   let w := world_of (createSubscriptionManager (serve (plain_stream [ReadValue A]))
                        (options_with None None)) in
   events w =
     [OnStateChange SubscriptionState.Connecting; SubscribeCall a_token; GetReaderCall;
      OnStateChange SubscriptionState.Active; ReadCall; OnChange A 0%nat [A]] /\
   messages (this w) = 0%nat /\
   contents (getMessages w) = [A] /\
   contents (getMessages (world_of (mutate 0%nat (fun _ => []) w))) = []).
Proof.
  split.
  - intros v w. destruct (accept_spec v w) as (a' & h' & n' & Hacc & Hh').
    cbv zeta in Hacc, Hh'. rewrite Hacc. unfold change_events.
    eexists _, _. split; [reflexivity|]. cbn. unfold messageLog. cbn.
    rewrite Hh'. split; [reflexivity|].
    intros f. apply lookup_total_insert_eq.
  - cbv zeta. repeat split; vm_compute; reflexivity.
Qed.

(** ** Further properties of the lifecycle operations *)

(** [restart()] empties the buffer: until the new stream delivers a
    message, [getMessages()] is empty, whatever the buffer held before. *)
Lemma restart_clears_buffer subscribe w :
  (forall n t s rd,
     subscribe n t = Ok s -> getReader s = Ok rd -> delivered (rd_reads rd) = []) ->
  contents (getMessages (world_of (restart subscribe w))) = [].
Proof.
  intros Hnone.
  destruct (restart_spec subscribe w) as (w2 & evs & Hre & _ & Hrun & _ & _ & _ & _ &
                                          Hlog & _).
  rewrite Hre, getMessages_contents.
  destruct (opening subscribe w2) as [rd|e] eqn:Hopen.
  - rewrite (start_messageLog subscribe w2 rd Hrun Hopen), Hlog.
    unfold opening in Hopen.
    destruct (credential w2) as [t|]; [|discriminate].
    destruct (subscribe (subscribeCalls w2) t) as [s|] eqn:Hs; [|discriminate].
    rewrite (Hnone _ _ _ _ Hs Hopen). reflexivity.
  - pose proof (start_spec subscribe w2 Hrun) as H. rewrite Hopen in H.
    destruct H as (w' & evs' & Hstart & H). destruct_and!.
    rewrite Hstart. cbn [world_of].
    rewrite <- Hlog. unfold messageLog. congruence.
Qed.

Lemma restart_clears_buffer_witness :
  let A := mkMessage "x" 1 in
  let w := world_of (createSubscriptionManager (serve (plain_stream [ReadValue A]))
                       (options_with None None)) in
  contents (getMessages w) = [A] /\
  contents (getMessages (world_of (restart (serve (plain_stream [])) w))) = [].
Proof.
  cbv zeta. split; [vm_compute; reflexivity|].
  apply restart_clears_buffer.
  intros n t s rd Hs Hrd. unfold serve in Hs. simplify_eq. cbn in Hrd. simplify_eq.
  reflexivity.
Defined.

(** Without a credential provider [refreshAndRestart()] fails with the
    configuration error and does nothing else. *)
Lemma refreshAndRestart_without_provider subscribe w :
  refreshToken (this w) = None ->
  refreshAndRestart subscribe w = Throws NoRefreshTokenError w.
Proof. apply refreshAndRestart_unconfigured. Qed.

Lemma refreshAndRestart_without_provider_witness :
  let w := fresh (options_with None None) in
  refreshToken (this w) = None /\
  refreshAndRestart (refuse NoTokenError) w = Throws NoRefreshTokenError w.
Proof.
  cbv zeta. split; [reflexivity|].
  apply refreshAndRestart_without_provider. reflexivity.
Defined.

(** ** Publishing *)

Section PublishFacts.

Context {Data : Type}.

Implicit Types (client : Client Data) (trace : list (PubEvent Data)).

Lemma published_app trace1 trace2 :
  published (trace1 ++ trace2) = published trace1 ++ published trace2.
Proof. apply omap_app. Qed.

Lemma published_calls (calls : list (PublishOptions * Data)) :
  published (map (fun call => ApiPublish call.1 call.2) calls) = calls.
Proof.
  induction calls as [|[po d] calls IH]; [reflexivity|].
  unfold published in *. cbn. f_equal. exact IH.
Qed.

(** [publishToChannel] makes no call without an API, and else one call,
    whose answer decides how it settles. *)
Lemma publishToChannel_spec client (options : ChannelOptions Data) trace :
  publishToChannel client options trace =
  match inngestApi client with
  | None => (Fails ApiNotFoundError, trace)
  | Some publish =>
      let po := mkPublishOptions (co_channel options) [co_topic options] (co_runId options) in
      (publish_outcome (publish (length (published trace)) po (co_data options)),
       trace ++ [ApiPublish po (co_data options)])
  end.
Proof.
  unfold publishToChannel, pub_bind, api_publish, pub_throw, pub_ret.
  destruct (inngestApi client) as [publish|]; [|reflexivity].
  cbn. destruct (publish _ _ _) as [[[] ?]|]; reflexivity.
Qed.

Lemma publish_outcome_ok answer :
  publish_outcome answer = Ok tt <->
  exists result, answer = Ok result /\ pr_ok result = true.
Proof.
  destruct answer as [[[] err]|e]; cbn; split; try discriminate; eauto.
  - intros (result & [= <-] & H). discriminate.
  - intros (result & H & _). discriminate.
Qed.

Lemma start_each_missing client channel runId (messages : list (BatchMessage Data)) trace :
  inngestApi client = None ->
  start_each client channel runId messages trace =
  (map (fun _ => Fails ApiNotFoundError) messages, trace).
Proof.
  intros Hapi. revert trace.
  induction messages as [|m rest IH]; intros trace; [reflexivity|].
  cbn [start_each]. rewrite publishToChannel_spec, Hapi, IH. reflexivity.
Qed.

Lemma start_each_spec client publish channel runId
  (messages : list (BatchMessage Data)) trace :
  inngestApi client = Some publish ->
  let call m := (mkPublishOptions channel [bm_topic m] runId, bm_data m) in
  (start_each client channel runId messages trace).2 =
    trace ++ map (fun m => ApiPublish (call m).1 (call m).2) messages /\
  length (start_each client channel runId messages trace).1 = length messages /\
  forall i m, messages !! i = Some m ->
    (start_each client channel runId messages trace).1 !! i =
    Some (publish_outcome
            (publish (length (published trace) + i)%nat (call m).1 (call m).2)).
Proof.
  intros Hapi call. revert trace.
  induction messages as [|m rest IH]; intros trace.
  - cbn. rewrite app_nil_r. repeat split. intros i m [=].
  - cbn [start_each]. rewrite publishToChannel_spec, Hapi. cbn zeta.
    cbn [co_channel co_topic co_data co_runId].
    set (trace1 := trace ++ _).
    destruct (IH trace1) as (Htrace & Hlen & Hat).
    destruct (start_each client channel runId rest trace1) as [rs trace2] eqn:Hrest.
    cbn [fst snd] in *. split; [|split].
    + rewrite Htrace. unfold trace1. rewrite <- app_assoc. reflexivity.
    + cbn. rewrite Hlen. reflexivity.
    + intros [|i] m' Hm; cbn in Hm.
      * injection Hm as <-. rewrite Nat.add_0_r. reflexivity.
      * change ((?[x] :: rs) !! S i) with (rs !! i).
        rewrite (Hat i m' Hm). unfold trace1.
        rewrite published_app, length_app. cbn.
        do 3 f_equal. lia.
Qed.

Lemma promise_all_ok order (promises : list (Outcome unit)) :
  promise_all order promises = Ok tt <->
  forall i e, i ∈ order -> promises !! i <> Some (Fails e).
Proof.
  induction order as [|i order IH]; cbn.
  - split; [|reflexivity]. intros _ i e Hin. inversion Hin.
  - destruct (promises !! i) as [[[]|e]|] eqn:Hi.
    + rewrite IH. split.
      * intros H j e [->|Hin]%elem_of_cons; [congruence|eauto].
      * intros H j e Hin. apply H. right. exact Hin.
    + split; [discriminate|]. intros H. exfalso. apply (H i e); [left|exact Hi].
    + rewrite IH. split.
      * intros H j e [->|Hin]%elem_of_cons; [congruence|eauto].
      * intros H j e Hin. apply H. right. exact Hin.
Qed.

Lemma promise_all_fails order (promises : list (Outcome unit)) e :
  promise_all order promises = Fails e ->
  exists i, i ∈ order /\ promises !! i = Some (Fails e).
Proof.
  induction order as [|i order IH]; cbn; [discriminate|].
  destruct (promises !! i) as [[[]|e']|] eqn:Hi.
  - intros (j & Hin & Hj)%IH. exists j. split; [right|]; assumption.
  - intros [= ->]. exists i. split; [left|assumption].
  - intros (j & Hin & Hj)%IH. exists j. split; [right|]; assumption.
Qed.

(** X4.  [publishToChannel] resolves exactly when the client has an API
    and the API answers the call with [ok]; without an API it throws the
    configuration error and makes no call; with an API it makes exactly one
    call of [api.publish], for the channel, the run and the one topic of
    its options, whatever the answer is. *)
Theorem publishToChannel_outcome client (options : ChannelOptions Data) trace :
  let po := mkPublishOptions (co_channel options) [co_topic options] (co_runId options) in
  let r := (publishToChannel client options trace).1 in
  let trace' := (publishToChannel client options trace).2 in
  (r = Ok tt <->
   exists publish result,
     inngestApi client = Some publish /\
     publish (length (published trace)) po (co_data options) = Ok result /\
     pr_ok result = true) /\
  (inngestApi client = None -> r = Fails ApiNotFoundError /\ trace' = trace) /\
  (inngestApi client <> None -> trace' = trace ++ [ApiPublish po (co_data options)]).
Proof.
  cbn zeta. rewrite publishToChannel_spec.
  destruct (inngestApi client) as [publish|]; cbn [fst snd].
  - split; [|split; [discriminate|reflexivity]].
    rewrite publish_outcome_ok. split.
    + intros (result & H1 & H2). eauto.
    + intros (p & result & [= <-] & H1 & H2). eauto.
  - split; [|split; [auto|congruence]].
    split; [discriminate|]. intros (p & result & [=] & _).
Qed.

(** X5.  When the API answers a call with [ok: false], [publishToChannel]
    throws an error that names the cause after its prefix: the error text
    of the answer when the answer has one that is not empty, and
    ["Unknown error"] when the answer has no error or an empty error
    text. *)
Theorem publish_failure_names_a_cause client publish (options : ChannelOptions Data)
  trace result :
  inngestApi client = Some publish ->
  publish (length (published trace))
    (mkPublishOptions (co_channel options) [co_topic options] (co_runId options))
    (co_data options) = Ok result ->
  pr_ok result = false ->
  let thrown detail :=
    (publishToChannel client options trace).1 =
    Fails (mkError ("Failed to publish to channel: " +:+ detail)) in
  (forall text, pr_error result = Some text -> text <> "" -> thrown text) /\
  (pr_error result = None \/ pr_error result = Some "" -> thrown "Unknown error").
Proof.
  intros Hapi Hanswer Hok. cbn zeta.
  rewrite publishToChannel_spec, Hapi. cbn zeta. cbn [fst]. rewrite Hanswer.
  unfold publish_outcome, publish_failure. rewrite Hok. split.
  - intros text -> Hne. destruct (String.eqb_spec text ""); [contradiction|reflexivity].
  - intros [->| ->]; reflexivity.
Qed.

(** X6.  With an API, [publishToChannelBatch] calls [api.publish] once for
    every message, in the order of the messages, each call for the channel
    and run of the batch and the one topic of its message: no call is
    skipped because another one fails, whatever the answers and the order
    in which they arrive. *)
Theorem batch_publishes_every_message client publish (options : BatchOptions Data)
  order trace :
  inngestApi client = Some publish ->
  published (publishToChannelBatch client options order trace).2 =
  published trace ++ map (batch_call options) (bo_messages options).
Proof.
  intros Hapi. unfold publishToChannelBatch.
  destruct (start_each_spec client publish (bo_channel options) (bo_runId options)
              (bo_messages options) trace Hapi) as (Htrace & _ & _).
  destruct (start_each _ _ _ _ _) as [promises trace']. cbn [fst snd] in *.
  rewrite Htrace, published_app. f_equal. clear Htrace.
  induction (bo_messages options) as [|m rest IH]; [reflexivity|].
  unfold published in *. cbn. f_equal. exact IH.
Qed.

(** The promises of a batch are rejected with the error of the first
    promise, in the order in which they settle, that is rejected. *)
Lemma promise_all_first order (promises : list (Outcome unit)) e :
  promise_all order promises = Fails e <->
  exists earlier i later,
    order = earlier ++ i :: later /\
    promises !! i = Some (Fails e) /\
    forall j e', j ∈ earlier -> promises !! j <> Some (Fails e').
Proof.
  induction order as [|i order IH]; cbn [promise_all].
  - split; [discriminate|]. intros (earlier & j & later & Heq & _).
    destruct earlier; discriminate.
  - destruct (promises !! i) as [[[]|e0]|] eqn:Hi.
    + rewrite IH. split.
      * intros (earlier & j & later & -> & Hj & Hbefore).
        exists (i :: earlier), j, later. split; [reflexivity|]. split; [exact Hj|].
        intros k e' [->|Hk]%elem_of_cons; [congruence|eauto].
      * intros (earlier & j & later & Heq & Hj & Hbefore).
        destruct earlier as [|x earlier]; cbn in Heq; injection Heq as <- ->.
        -- congruence.
        -- exists earlier, j, later. split; [reflexivity|]. split; [exact Hj|].
           intros k e' Hk. apply Hbefore. right. exact Hk.
    + split.
      * intros [= <-]. exists [], i, order. split; [reflexivity|]. split; [exact Hi|].
        intros k e' Hk. inversion Hk.
      * intros (earlier & j & later & Heq & Hj & Hbefore).
        destruct earlier as [|x earlier]; cbn in Heq; injection Heq as <- ->.
        -- congruence.
        -- exfalso. apply (Hbefore i e0); [left|exact Hi].
    + rewrite IH. split.
      * intros (earlier & j & later & -> & Hj & Hbefore).
        exists (i :: earlier), j, later. split; [reflexivity|]. split; [exact Hj|].
        intros k e' [->|Hk]%elem_of_cons; [congruence|eauto].
      * intros (earlier & j & later & Heq & Hj & Hbefore).
        destruct earlier as [|x earlier]; cbn in Heq; injection Heq as <- ->.
        -- congruence.
        -- exists earlier, j, later. split; [reflexivity|]. split; [exact Hj|].
           intros k e' Hk. apply Hbefore. right. exact Hk.
Qed.

(** X7.  With an API and every publish settling, [publishToChannelBatch]
    resolves exactly when the API answers every message with [ok]; it
    rejects with an error exactly when that error is the one
    [publishToChannel] throws for a message all of whose predecessors in
    the order of settlement succeeded: the error of the publish that is
    rejected first. *)
Theorem batch_outcome client publish (options : BatchOptions Data) order trace :
  inngestApi client = Some publish ->
  (forall i, (i < length (bo_messages options))%nat -> i ∈ order) ->
  let answer i m :=
    publish (length (published trace) + i)%nat
      (batch_call options m).1 (batch_call options m).2 in
  let r := (publishToChannelBatch client options order trace).1 in
  (r = Ok tt <->
   forall i m, bo_messages options !! i = Some m ->
     exists result, answer i m = Ok result /\ pr_ok result = true) /\
  (forall e,
     r = Fails e <->
     exists earlier i later m,
       order = earlier ++ i :: later /\
       bo_messages options !! i = Some m /\
       publish_outcome (answer i m) = Fails e /\
       forall j m', j ∈ earlier -> bo_messages options !! j = Some m' ->
         publish_outcome (answer j m') = Ok tt).
Proof.
  intros Hapi Horder answer. unfold publishToChannelBatch.
  destruct (start_each_spec client publish (bo_channel options) (bo_runId options)
              (bo_messages options) trace Hapi) as (_ & Hlen & Hat).
  destruct (start_each _ _ _ _ _) as [promises trace']. cbn [fst snd] in *.
  assert (Hin : forall i x, promises !! i = Some x ->
            exists m, bo_messages options !! i = Some m /\
                      x = publish_outcome (answer i m)).
  { intros i x Hi.
    assert (Hlt : (i < length (bo_messages options))%nat).
    { rewrite <- Hlen. eapply lookup_lt_Some. exact Hi. }
    destruct (lookup_lt_is_Some_2 _ _ Hlt) as [m Hm].
    exists m. split; [exact Hm|]. rewrite (Hat i m Hm) in Hi.
    injection Hi as <-. reflexivity. }
  split.
  - rewrite promise_all_ok. split.
    + intros H i m Hm. apply publish_outcome_ok.
      specialize (Hat i m Hm).
      assert (Hi : i ∈ order) by (apply Horder; eapply lookup_lt_Some; exact Hm).
      destruct (publish_outcome _) as [[]|e] eqn:Hout; [reflexivity|].
      exfalso. exact (H i e Hi Hat).
    + intros H i e Hi Hfail.
      destruct (Hin i _ Hfail) as (m & Hm & Hout).
      apply (H i m) in Hm. apply publish_outcome_ok in Hm.
      unfold answer, batch_call in *. cbn in *. congruence.
  - intros e. rewrite promise_all_first. split.
    + intros (earlier & i & later & Heq & Hi & Hbefore).
      destruct (Hin i _ Hi) as (m & Hm & Hout).
      exists earlier, i, later, m. split; [exact Heq|]. split; [exact Hm|].
      split; [symmetry; exact Hout|].
      intros j m' Hj Hm'. specialize (Hat j m' Hm').
      destruct (publish_outcome _) as [[]|e'] eqn:Hout'; [reflexivity|].
      exfalso. exact (Hbefore j e' Hj Hat).
    + intros (earlier & i & later & m & Heq & Hm & Hout & Hbefore).
      exists earlier, i, later. split; [exact Heq|].
      split; [rewrite (Hat i m Hm); f_equal; exact Hout|].
      intros j e' Hj Hfail.
      destruct (Hin j _ Hfail) as (m' & Hm' & Hout').
      rewrite (Hbefore j m' Hj Hm') in Hout'. discriminate.
Qed.

(** X8.  Without an API [publishToChannelBatch] makes no call; it rejects
    with the configuration error when the batch has a message, and resolves
    when the batch is empty, where [publishToChannel] would throw. *)
Theorem batch_without_api client (options : BatchOptions Data) order trace :
  inngestApi client = None ->
  (forall i, (i < length (bo_messages options))%nat -> i ∈ order) ->
  (publishToChannelBatch client options order trace).2 = trace /\
  (publishToChannelBatch client options order trace).1 =
    match bo_messages options with
    | [] => Ok tt
    | _ :: _ => Fails ApiNotFoundError
    end.
Proof.
  intros Hapi Horder. unfold publishToChannelBatch.
  rewrite (start_each_missing _ _ _ _ _ Hapi). cbn [fst snd].
  split; [reflexivity|].
  destruct (bo_messages options) as [|m rest] eqn:Hm.
  - apply promise_all_ok. intros i e _. cbn. rewrite lookup_nil. discriminate.
  - destruct (promise_all order _) as [[]|e] eqn:Hall.
    + exfalso. rewrite promise_all_ok in Hall.
      apply (Hall 0%nat ApiNotFoundError); [apply Horder; cbn; lia|reflexivity].
    + apply promise_all_fails in Hall as (i & _ & Hi).
      apply list_lookup_fmap_Some in Hi as (m' & Hi & _). exact Hi.
Qed.

Lemma pub_bind_assoc {A B C} (m : Publishing Data A) (f : A -> Publishing Data B)
  (k : B -> Publishing Data C) trace :
  pub_bind (pub_bind m f) k trace = pub_bind m (fun a => pub_bind (f a) k) trace.
Proof. unfold pub_bind. destruct (m trace) as [[a|e] trace']; reflexivity. Qed.

(** A call of a channel publisher that is followed by more code, and one
    that is not. *)
Lemma publisher_step client publish channel runId topic data
  {B} (k : unit -> Publishing Data B) trace :
  inngestApi client = Some publish ->
  pub_bind (createChannelPublisher client channel runId topic data) k trace =
  let po := mkPublishOptions channel [topic] runId in
  match publish_outcome (publish (length (published trace)) po data) with
  | Ok _ => k tt (trace ++ [ApiPublish po data])
  | Fails e => (Fails e, trace ++ [ApiPublish po data])
  end.
Proof.
  intros Hapi. unfold pub_bind, createChannelPublisher.
  rewrite publishToChannel_spec, Hapi. cbn.
  destruct (publish_outcome _) as [[]|e]; reflexivity.
Qed.

Lemma publisher_last client publish channel runId topic data trace :
  inngestApi client = Some publish ->
  createChannelPublisher client channel runId topic data trace =
  let po := mkPublishOptions channel [topic] runId in
  (publish_outcome (publish (length (published trace)) po data),
   trace ++ [ApiPublish po data]).
Proof.
  intros Hapi. unfold createChannelPublisher.
  rewrite publishToChannel_spec, Hapi. reflexivity.
Qed.

(** Calls made in turn: the sequence resolves exactly when every call is
    answered with [ok], and all calls were made then; when it rejects, the
    last call made is the one that failed. *)
Lemma in_turn_spec (publish : nat -> PublishOptions -> Data -> Outcome PublishResult)
  n calls :
  let answer (j : nat) (call : PublishOptions * Data) :=
    publish_outcome (publish (n + j)%nat call.1 call.2) in
  let r := (in_turn publish n calls).1 in
  let k := (in_turn publish n calls).2 in
  (r = Ok tt <-> forall j call, calls !! j = Some call -> answer j call = Ok tt) /\
  (r = Ok tt -> k = length calls) /\
  (forall e, r = Fails e ->
     exists j call, k = S j /\ calls !! j = Some call /\ answer j call = Fails e).
Proof.
  revert n. induction calls as [|call rest IH]; intros n; cbn zeta.
  - cbn [in_turn fst snd]. split; [|split]; [|reflexivity|discriminate].
    split; [|reflexivity]. intros _ j call Hc. rewrite lookup_nil in Hc. discriminate.
  - cbn [in_turn].
    destruct (publish_outcome (publish n call.1 call.2)) as [[]|e] eqn:Hcall.
    + destruct (IH (S n)) as (Hok & Hlen & Hfail).
      destruct (in_turn publish (S n) rest) as [r k]. cbn [fst snd] in *.
      split; [|split].
      * rewrite Hok. split.
        -- intros H [|j] c Hc.
           ++ injection Hc as <-. rewrite Nat.add_0_r. exact Hcall.
           ++ replace (n + S j)%nat with (S n + j)%nat by lia. apply H. exact Hc.
        -- intros H j c Hc. replace (S n + j)%nat with (n + S j)%nat by lia.
           apply (H (S j)). exact Hc.
      * intros Hr. cbn. f_equal. auto.
      * intros e Hr. destruct (Hfail e Hr) as (j & c & -> & Hc & Hout).
        exists (S j), c. split; [reflexivity|]. split; [exact Hc|].
        replace (n + S j)%nat with (S n + j)%nat by lia. exact Hout.
    + cbn [fst snd]. split; [|split].
      * split; [discriminate|]. intros H.
        specialize (H 0%nat call eq_refl). rewrite Nat.add_0_r in H. congruence.
      * discriminate.
      * intros e' [= <-]. exists 0%nat, call. rewrite Nat.add_0_r. auto.
Qed.

End PublishFacts.

Lemma batch_publishes_every_message_witness :
  let options :=
    mkBatchOptions "project:1"
      [mkBatchMessage "workspaceState" 1; mkBatchMessage "notifications" 2] None in
  inngestApi (@client_failing_at Z 0) <> None /\
  published (publishToChannelBatch (client_failing_at 0) options [1; 0]%nat []).2 =
  [(mkPublishOptions "project:1" ["workspaceState"] None, 1);
   (mkPublishOptions "project:1" ["notifications"] None, 2)].
Proof.
  cbv zeta. split; [discriminate|].
  exact (batch_publishes_every_message (client_failing_at 0) _
           (mkBatchOptions "project:1"
              [mkBatchMessage "workspaceState" 1; mkBatchMessage "notifications" 2] None)
           [1; 0]%nat [] eq_refl).
Defined.

Lemma batch_outcome_witness :
  let answer n := mkPublishResult false (Some (if Nat.eqb n 0 then "first" else "second")) in
  let options :=
    mkBatchOptions "project:1"
      [mkBatchMessage "workspaceState" 1; mkBatchMessage "notifications" 2] None in
  (forall i, (i < 2)%nat -> i ∈ [1; 0]%nat) /\
  (publishToChannelBatch (client_answering answer) options [1; 0]%nat []).1 =
    Fails (mkError "Failed to publish to channel: second") /\
  (publishToChannelBatch (client_answering answer) options [0; 1]%nat []).1 =
    Fails (mkError "Failed to publish to channel: first").
Proof.
  cbv zeta.
  assert (H10 : forall i, (i < 2)%nat -> i ∈ [1; 0]%nat).
  { intros [|[|i]] Hi; [set_solver|set_solver|lia]. }
  assert (H01 : forall i, (i < 2)%nat -> i ∈ [0; 1]%nat).
  { intros [|[|i]] Hi; [set_solver|set_solver|lia]. }
  split; [exact H10|]. split.
  - refine (proj2 (proj2 (batch_outcome
                     (client_answering
                        (fun n => mkPublishResult false
                                    (Some (if Nat.eqb n 0 then "first" else "second"))))
                     _
                     (mkBatchOptions "project:1"
                        [mkBatchMessage "workspaceState" 1;
                         mkBatchMessage "notifications" 2] None)
                     [1; 0]%nat [] eq_refl H10) _) _).
    exists [], 1%nat, [0%nat], (mkBatchMessage "notifications" 2).
    split; [reflexivity|]. split; [reflexivity|]. split; [reflexivity|].
    intros j m' Hj. inversion Hj.
  - refine (proj2 (proj2 (batch_outcome
                     (client_answering
                        (fun n => mkPublishResult false
                                    (Some (if Nat.eqb n 0 then "first" else "second"))))
                     _
                     (mkBatchOptions "project:1"
                        [mkBatchMessage "workspaceState" 1;
                         mkBatchMessage "notifications" 2] None)
                     [0; 1]%nat [] eq_refl H01) _) _).
    exists [], 0%nat, [1%nat], (mkBatchMessage "workspaceState" 1).
    split; [reflexivity|]. split; [reflexivity|]. split; [reflexivity|].
    intros j m' Hj. inversion Hj.
Defined.

Lemma publish_failure_names_a_cause_witness :
  let client : Client Z :=
    client_answering (fun _ => mkPublishResult false (Some "quota exceeded")) in
  let options := mkChannelOptions "project:1" "workspaceState" 7 None in
  inngestApi client <> None /\
  (publishToChannel client options []).1 =
    Fails (mkError "Failed to publish to channel: quota exceeded").
Proof.
  cbv zeta. split; [discriminate|].
  refine (proj1 (publish_failure_names_a_cause
                   (client_answering (fun _ => mkPublishResult false (Some "quota exceeded")))
                   _ (mkChannelOptions "project:1" "workspaceState" 7 None) []
                   (mkPublishResult false (Some "quota exceeded"))
                   eq_refl eq_refl eq_refl) "quota exceeded" eq_refl _).
  discriminate.
Defined.

Lemma batch_without_api_witness :
  let options : BatchOptions Z := mkBatchOptions "project:1" [] None in
  inngestApi (@client_without_api Z) = None /\
  (publishToChannel client_without_api
     (mkChannelOptions "project:1" "workspaceState" 1 None) []).1 =
    Fails ApiNotFoundError /\
  (publishToChannelBatch client_without_api options [] []).1 = Ok tt.
Proof.
  cbv zeta. split; [reflexivity|]. split; [reflexivity|].
  refine (proj2 (batch_without_api client_without_api
                   (mkBatchOptions "project:1" [] None) [] [] eq_refl _)).
  intros i Hi. cbn in Hi. lia.
Defined.

(** ** Publishing from handlers *)

Lemma progress_updates_eq projectId fileId :
  progress_updates projectId fileId =
  map (fun '(status, progress) =>
         (mkPublishOptions ("project:" +:+ projectId) ["fileProcessing"] None,
          mkFileProgress fileId status progress))
    [("started", 0); ("processing", 10); ("processing", 20); ("processing", 30);
     ("processing", 40); ("processing", 50); ("processing", 60); ("processing", 70);
     ("processing", 80); ("processing", 90); ("processing", 100); ("completed", 100)].
Proof. reflexivity. Qed.

(** [processLargeFile] publishes its updates in turn. *)
Lemma processLargeFile_in_turn (inngest : Client FileProgress) publish projectId fileId trace :
  inngestApi inngest = Some publish ->
  processLargeFile inngest projectId fileId trace =
  let updates := progress_updates projectId fileId in
  let '(r, k) := in_turn publish (length (published trace)) updates in
  (r, trace ++ map (fun call => ApiPublish call.1 call.2) (take k updates)).
Proof.
  intros Hapi.
  assert (Hidx : forall (l : list (PubEvent FileProgress)) po d,
             length (published (l ++ [ApiPublish po d])) = S (length (published l))).
  { intros l po d. rewrite published_app, length_app. cbn. lia. }
  rewrite progress_updates_eq.
  unfold processLargeFile.
  set (ch := "project:" +:+ projectId).
  cbn [processLargeFile_loop map in_turn fst snd]. cbn zeta.
  unfold processChunk.
  repeat match goal with
  | |- context [?a * 10] =>
      progress (let v := eval vm_compute in (a * 10) in change (a * 10) with v)
  | |- context [?a <? 10] =>
      progress (let v := eval vm_compute in (a <? 10) in change (a <? 10) with v)
  end.
  cbv iota.
  repeat first
    [ rewrite pub_bind_assoc
    | progress (change (pub_bind (pub_ret tt) ?k ?t) with (k tt t); cbv beta)
    | rewrite (publisher_step _ _ _ _ _ _ _ _ Hapi); cbn zeta; rewrite ?Hidx;
      match goal with
      | |- context [publish_outcome ?a] =>
          destruct (publish_outcome a) as [[]|?e];
          [|cbn; rewrite <- ?app_assoc; reflexivity]
      end ].
  rewrite (publisher_last _ _ _ _ _ _ _ Hapi). cbn zeta. rewrite ?Hidx.
  match goal with
  | |- context [publish_outcome ?a] => destruct (publish_outcome a) as [[]|?e]
  end; cbn; rewrite <- ?app_assoc; reflexivity.
Qed.

(** X9.  With an API, [processLargeFile] publishes its twelve progress
    updates in order (started at 0, processing at 10 to 100, completed at
    100), each after the previous one was answered, through a publisher
    bound to the channel of the project, and stops at the first update that
    fails: it resolves exactly when all twelve are answered with [ok], and
    when it rejects, the last call it made is the one that failed and its
    error is the one of that call. *)
Theorem processLargeFile_stops_at_first_failure
  (inngest : Client FileProgress) publish (projectId fileId : string) trace :
  inngestApi inngest = Some publish ->
  let updates := progress_updates projectId fileId in
  let answer (j : nat) (call : PublishOptions * FileProgress) :=
    publish_outcome (publish (length (published trace) + j)%nat call.1 call.2) in
  let r := (processLargeFile inngest projectId fileId trace).1 in
  let trace' := (processLargeFile inngest projectId fileId trace).2 in
  (r = Ok tt <-> forall j call, updates !! j = Some call -> answer j call = Ok tt) /\
  exists k : nat,
    published trace' = published trace ++ take k updates /\
    (r = Ok tt -> k = 12%nat) /\
    (forall e, r = Fails e ->
       exists j call, k = S j /\ updates !! j = Some call /\ answer j call = Fails e).
Proof.
  intros Hapi updates answer.
  rewrite (processLargeFile_in_turn _ _ _ _ _ Hapi). cbn zeta. fold updates.
  destruct (in_turn_spec publish (length (published trace)) updates)
    as (Hok & Hlen & Hfail).
  destruct (in_turn publish (length (published trace)) updates) as [r k].
  cbn [fst snd] in *.
  split; [exact Hok|]. exists k. split; [|split].
  - rewrite published_app, published_calls. reflexivity.
  - exact Hlen.
  - exact Hfail.
Qed.

Lemma processLargeFile_stops_at_first_failure_witness :
  inngestApi (@client_failing_at FileProgress 2) <> None /\
  (processLargeFile (client_failing_at 2) "1" "f" []).1 =
    Fails (mkError "Failed to publish to channel: Unknown error") /\
  exists k : nat,
    published (processLargeFile (client_failing_at 2) "1" "f" []).2 =
      [] ++ take k (progress_updates "1" "f") /\
    ((processLargeFile (client_failing_at 2) "1" "f" []).1 = Ok tt -> k = 12%nat) /\
    (forall e,
       (processLargeFile (client_failing_at 2) "1" "f" []).1 = Fails e ->
       exists j call,
         k = S j /\ progress_updates "1" "f" !! j = Some call /\
         publish_outcome (Ok (mkPublishResult (negb (Nat.eqb (0 + j) 2)) None)) =
           Fails e).
Proof.
  split; [discriminate|]. split; [reflexivity|].
  exact (proj2 (processLargeFile_stops_at_first_failure (client_failing_at 2) _
                  "1" "f" [] eq_refl)).
Defined.

(** X10.  [robustPublishExample] never throws: whatever the client, it
    resolves; it makes the one call [publishToChannel] makes, and writes to
    the console exactly when that call failed, with its error. *)
Theorem robustPublishExample_never_throws (inngest : Client StatusUpdate)
  (projectId : string) trace :
  let attempt :=
    publishToChannel inngest
      (mkChannelOptions ("project:" +:+ projectId) "workspaceState"
         (mkStatusUpdate "active") None) trace in
  (robustPublishExample inngest projectId trace).1 = Ok tt /\
  (robustPublishExample inngest projectId trace).2 =
    attempt.2 ++
    match attempt.1 with
    | Ok _ => []
    | Fails e => [PubConsoleError "Failed to publish realtime update:" e]
    end.
Proof.
  cbn zeta. unfold robustPublishExample, pub_try, pub_console_error.
  destruct (publishToChannel _ _ _) as [[[]|e] trace']; cbn.
  - rewrite app_nil_r. split; reflexivity.
  - split; reflexivity.
Qed.

(** ** What every operation of the manager keeps *)

Section Keeps.

Variable I : World -> Prop.

Lemma keeps_ret {A} (a : A) : keeps I (ret a).
Proof. intros w H. exact H. Qed.

Lemma keeps_throw {A} e : keeps I (@throw A e).
Proof. intros w H. exact H. Qed.

Lemma keeps_awaiting {A} : keeps I (fun w => @Awaiting A w).
Proof. intros w H. exact H. Qed.

Lemma keeps_get {A} (field : SubscriptionManager -> A) : keeps I (get field).
Proof. intros w H. exact H. Qed.

Lemma keeps_array_read a : keeps I (array_read a).
Proof. intros w H. exact H. Qed.

Lemma keeps_settle {A} (r : Outcome A) : keeps I (settle r).
Proof. intros w H. destruct r; exact H. Qed.

Lemma keeps_bind {A B} (m : Action A) (k : A -> Action B) :
  keeps I m -> (forall a, keeps I (k a)) -> keeps I (bind m k).
Proof.
  intros Hm Hk w H. specialize (Hm w H). unfold bind.
  destruct (m w) as [a w'|e w'|w']; cbn in *; [apply Hk|..]; exact Hm.
Qed.

Lemma keeps_try_catch {A} (body : Action A) handler :
  keeps I body -> (forall e, keeps I (handler e)) -> keeps I (try_catch body handler).
Proof.
  intros Hm Hk w H. specialize (Hm w H). unfold try_catch.
  destruct (body w) as [a w'|e w'|w']; cbn in *; [|apply Hk|]; exact Hm.
Qed.

Lemma keeps_accept_then {A} v (k : Action A) :
  keeps I (accept v) -> keeps I k ->
  keeps I (push_message v ;; trim_messages ;; fire_onChange v ;; k).
Proof. intros Hacc Hk w H. rewrite accept_then. apply Hk, Hacc, H. Qed.

Hypothesis HI : Preserved I.

Lemma keeps_call {A} ev (r : Outcome A) :
  (forall s, ev <> OnStateChange s) -> keeps I (call ev r).
Proof.
  intros Hev. unfold call. apply keeps_bind; [apply (kept_emit I HI), Hev|].
  intros _. apply keeps_settle.
Qed.

Lemma keeps_console_error text e : keeps I (console_error text e).
Proof. apply (kept_emit I HI). discriminate. Qed.

Lemma keeps_console_warn text : keeps I (console_warn text).
Proof. apply (kept_emit I HI). discriminate. Qed.

Ltac keeps_step :=
  lazymatch goal with
  | |- keeps _ (bind _ _) => apply keeps_bind; [|intros ?]
  | |- keeps _ (try_catch _ _) => apply keeps_try_catch; [|intros ?]
  | |- keeps _ (ret _) => apply keeps_ret
  | |- keeps _ (throw _) => apply keeps_throw
  | |- keeps _ (fun w => Awaiting w) => apply keeps_awaiting
  | |- keeps _ (get _) => apply keeps_get
  | |- keeps _ (array_read _) => apply keeps_array_read
  | |- keeps _ (call _ _) => apply keeps_call; discriminate
  | |- keeps _ (console_error _ _) => apply keeps_console_error
  | |- keeps _ (console_warn _) => apply keeps_console_warn
  | |- keeps _ (updateState _) => apply (kept_updateState I HI)
  | |- keeps _ (emit _) => apply (kept_emit I HI); discriminate
  | |- keeps _ (assign (set_token _)) => apply (kept_token I HI)
  | |- keeps _ (assign (set_subscription _)) => apply (kept_subscription I HI)
  | |- keeps _ (assign (set_reader _)) => apply (kept_reader I HI)
  | |- keeps _ (assign (set_isRunning _)) => apply (kept_isRunning I HI)
  | |- keeps _ (call_refreshToken _) => apply (kept_refreshToken I HI)
  | |- keeps _ (call_subscribe _ _) => apply (kept_subscribe I HI)
  | |- keeps _ clearMessages => apply (kept_clearMessages I HI)
  | |- keeps _ (match ?x with _ => _ end) => destruct x
  end.

Lemma keeps_handleError e : keeps I (handleError e).
Proof. unfold handleError. repeat keeps_step. Qed.

Lemma keeps_stop : keeps I stop.
Proof. unfold stop. repeat keeps_step. Qed.

Lemma keeps_reader_read : keeps I reader_read.
Proof. unfold reader_read. repeat keeps_step. Qed.

Lemma keeps_whileRunning fuel : keeps I (whileRunning fuel).
Proof.
  induction fuel as [|fuel IH].
  - change (whileRunning 0) with
      (running <- get isRunning ;;
       if negb running then ret tt else fun w => @Awaiting unit w).
    repeat keeps_step.
  - rewrite whileRunning_unfold.
    repeat first
      [ exact IH
      | apply keeps_reader_read
      | apply keeps_accept_then; [apply (kept_accept I HI)|]
      | keeps_step ].
Qed.

Lemma keeps_readLoop : keeps I readLoop.
Proof.
  unfold readLoop.
  repeat first [ apply keeps_whileRunning | apply keeps_handleError | keeps_step ].
Qed.

Lemma keeps_start subscribe : keeps I (start subscribe).
Proof.
  unfold start.
  repeat first [ apply keeps_readLoop | apply keeps_handleError | keeps_step ].
Qed.

Lemma keeps_restart subscribe : keeps I (restart subscribe).
Proof.
  unfold restart.
  repeat first [ apply keeps_stop | apply keeps_start | keeps_step ].
Qed.

Lemma keeps_refreshAndRestart subscribe : keeps I (refreshAndRestart subscribe).
Proof.
  unfold refreshAndRestart.
  repeat first [ apply keeps_restart | apply keeps_handleError | keeps_step ].
Qed.

Lemma keeps_resume rs : keeps I (resume rs).
Proof. unfold resume. repeat first [ apply keeps_readLoop | keeps_step ]. Qed.

Lemma preserved_created subscribe options :
  I (fresh options) -> I (world_of (createSubscriptionManager subscribe options)).
Proof.
  intros H. unfold createSubscriptionManager.
  destruct (opt_autoStart options) as [[]|]; try exact H; apply keeps_start, H.
Qed.

Lemma preserved_history (allowed : addr -> Prop) subscribe steps :
  (forall a f, allowed a -> keeps I (mutate a f)) ->
  Forall (step_allowed allowed) steps ->
  forall w, I w -> I (run subscribe steps w).
Proof.
  intros Hmut Hsteps. induction Hsteps as [|s steps Hs _ IH]; intros w H; [exact H|].
  apply IH. destruct s; cbn [perform].
  - apply keeps_start, H.
  - apply keeps_stop, H.
  - apply keeps_restart, H.
  - apply keeps_refreshAndRestart, H.
  - apply (kept_getMessages I HI), H.
  - apply (kept_clearMessages I HI), H.
  - apply (kept_setTopic I HI), H.
  - apply keeps_resume, H.
  - apply (Hmut a f Hs), H.
Qed.

End Keeps.

(** ** The buffer and the other arrays *)

(** What [accept] does to the arrays: the message is pushed on the buffer
    in place; when the buffer is then over capacity, a new array with the
    tail of it becomes the buffer. *)
Lemma accept_arrays v w :
  let l := messageLog w ++ [v] in
  let pushed := <[messages (this w) := l]> (heap w) in
  if Z.of_nat (length l) >? maxMessages (this w) then
    messages (this (world_of (accept v w))) = nextAddr w /\
    nextAddr (world_of (accept v w)) = S (nextAddr w) /\
    heap (world_of (accept v w)) =
      <[nextAddr w := slice (- maxMessages (this w)) l]> pushed
  else
    messages (this (world_of (accept v w))) = messages (this w) /\
    nextAddr (world_of (accept v w)) = nextAddr w /\
    heap (world_of (accept v w)) = pushed.
Proof.
  cbn zeta. unfold accept, push_message, trim_messages, fire_onChange, messageLog.
  exec. rewrite lookup_total_insert_eq.
  destruct (Z.of_nat (length _) >? maxMessages (this w)); exec.
  - rewrite lookup_total_insert_eq.
    destruct (onChange (this w) v _) as [[]|e]; exec; repeat split; reflexivity.
  - rewrite lookup_total_insert_eq.
    destruct (onChange (this w) v _) as [[]|e]; exec; repeat split; reflexivity.
Qed.

(** [accept] leaves everything but the buffer and the record of calls as it
    was, and records no state change. *)
Lemma accept_this v w :
  exists a' evs,
    this (world_of (accept v w)) = set_messages a' (this w) /\
    events (world_of (accept v w)) = events w ++ evs /\
    stateChanges evs = [] /\
    messageLog (world_of (accept v w)) =
      trimmed (maxMessages (this w)) (messageLog w ++ [v]).
Proof.
  destruct (accept_spec v w) as (a' & h' & n' & Hacc & Hh'). cbv zeta in Hacc, Hh'.
  rewrite Hacc. cbn [world_of this events]. eexists _, _.
  split; [reflexivity|]. split; [reflexivity|].
  split; [apply change_events_calls|]. exact Hh'.
Qed.

Lemma stateChanges_other ev :
  (forall s, ev <> OnStateChange s) -> stateChanges [ev] = [].
Proof.
  intros H. destruct ev; try reflexivity. exfalso. apply (H s). reflexivity.
Qed.

Lemma reported_state_app evs1 evs2 :
  reported_state (evs1 ++ evs2) =
  match last (stateChanges evs2) with
  | Some s => s
  | None => reported_state evs1
  end.
Proof.
  unfold reported_state. rewrite stateChanges_app, last_app.
  destruct (last (stateChanges evs2)); reflexivity.
Qed.

Lemma world_of_settle {A} (r : Outcome A) w : world_of (settle r w) = w.
Proof. destruct r; reflexivity. Qed.

(** Every operation keeps the state and its last report together. *)
Lemma state_reported_preserved : Preserved state_reported.
Proof.
  constructor.
  - intros s w [Hh Hs]. rewrite updateState_spec. split; [exact Hh|].
    cbn. rewrite reported_state_app.
    rewrite (proj1 (stateChange_events_calls _ _)).
    destruct (onStateChange (this w)); [reflexivity|congruence].
  - intros ev Hev w [Hh Hs]. split; [exact Hh|].
    cbn. rewrite reported_state_app, (stateChanges_other ev Hev). exact Hs.
  - intros t w H. exact H.
  - intros v w H. exact H.
  - intros v w H. exact H.
  - intros v w H. exact H.
  - intros t w H. exact H.
  - intros f w [Hh Hs]. unfold call_refreshToken. rewrite world_of_settle.
    split; [exact Hh|]. cbn. rewrite reported_state_app. exact Hs.
  - intros subscribe t w [Hh Hs]. unfold call_subscribe. rewrite world_of_settle.
    split; [exact Hh|]. cbn. rewrite reported_state_app. exact Hs.
  - intros v w [Hh Hs]. destruct (accept_this v w) as (a' & evs & Hthis & Hev & Hst & _).
    unfold state_reported. rewrite Hthis, Hev, reported_state_app, Hst.
    split; [exact Hh|exact Hs].
  - intros w H. exact H.
  - intros w H. exact H.
Qed.

(** Every operation keeps the buffer an allocated array. *)
Lemma allocated_preserved : Preserved allocated.
Proof.
  constructor; unfold allocated.
  - intros s w H. rewrite updateState_spec. exact H.
  - intros ev _ w H. exact H.
  - intros t w H. exact H.
  - intros v w H. exact H.
  - intros v w H. exact H.
  - intros v w H. exact H.
  - intros t w H. exact H.
  - intros f w H. unfold call_refreshToken. rewrite world_of_settle. exact H.
  - intros subscribe t w H. unfold call_subscribe. rewrite world_of_settle. exact H.
  - intros v w H. pose proof (accept_arrays v w) as Harr. cbv zeta in Harr.
    destruct (_ >? _); destruct Harr as (-> & -> & _); lia.
  - intros w H. cbn. lia.
  - intros w H. cbn. lia.
Qed.

(** Every operation leaves an array alone that is not the buffer. *)
Lemma detached_preserved a l : Preserved (detached a l).
Proof.
  constructor; unfold detached, allocated.
  - intros s w H. rewrite updateState_spec. exact H.
  - intros ev _ w H. exact H.
  - intros t w H. exact H.
  - intros v w H. exact H.
  - intros v w H. exact H.
  - intros v w H. exact H.
  - intros t w H. exact H.
  - intros f w H. unfold call_refreshToken. rewrite world_of_settle. exact H.
  - intros subscribe t w H. unfold call_subscribe. rewrite world_of_settle. exact H.
  - intros v w (Hm & Ha & Hne & Hl). pose proof (accept_arrays v w) as Harr.
    cbv zeta in Harr.
    destruct (_ >? _); destruct Harr as (-> & -> & ->).
    + rewrite !lookup_total_insert_ne by lia. repeat split; try lia. exact Hl.
    + rewrite !lookup_total_insert_ne by lia. repeat split; try lia. exact Hl.
  - intros w (Hm & Ha & Hne & Hl). cbn.
    rewrite lookup_total_insert_ne by lia. repeat split; try lia. exact Hl.
  - intros w (Hm & Ha & Hne & Hl). cbn.
    rewrite lookup_total_insert_ne by lia. repeat split; try lia. exact Hl.
Qed.

(** Every operation keeps the capacity and keeps the buffer within it. *)
Lemma within_capacity_preserved c : Preserved (within_capacity c).
Proof.
  constructor; unfold within_capacity.
  - intros s w H. rewrite updateState_spec. exact H.
  - intros ev _ w H. exact H.
  - intros t w H. exact H.
  - intros v w H. exact H.
  - intros v w H. exact H.
  - intros v w H. exact H.
  - intros t w H. exact H.
  - intros f w H. unfold call_refreshToken. rewrite world_of_settle. exact H.
  - intros subscribe t w H. unfold call_subscribe. rewrite world_of_settle. exact H.
  - intros v w (Hmax & Hpos & Hlen).
    destruct (accept_this v w) as (a' & evs & Hthis & _ & _ & Hlog).
    rewrite Hthis, Hlog. cbn [maxMessages set_messages]. rewrite Hmax.
    split; [reflexivity|]. split; [exact Hpos|].
    rewrite (trimmed_most_recent c _ Hpos), most_recent_length. lia.
  - intros w (Hmax & Hpos & Hlen). split; [exact Hmax|]. split; [exact Hpos|].
    unfold messageLog. cbn. rewrite lookup_total_insert_eq. cbn. lia.
  - intros w (Hmax & Hpos & Hlen). split; [exact Hmax|]. split; [exact Hpos|].
    unfold messageLog in *. cbn.
    destruct (decide (messages (this w) = nextAddr w)) as [Heq|Hne].
    + rewrite Heq, lookup_total_insert_eq. rewrite <- Heq. exact Hlen.
    + rewrite lookup_total_insert_ne by congruence. exact Hlen.
Qed.

Lemma run_app subscribe steps1 steps2 w :
  run subscribe (steps1 ++ steps2) w = run subscribe steps2 (run subscribe steps1 w).
Proof. apply foldl_app. Qed.

(** The buffer of a manager is an allocated array, whatever happened to the
    manager since its construction. *)
Lemma allocated_history subscribe options steps :
  allocated (run subscribe steps (world_of (createSubscriptionManager subscribe options))).
Proof.
  apply (preserved_history allocated allocated_preserved (fun _ => True)).
  - intros a f _ w H. exact H.
  - apply Forall_forall. intros s _. destruct s; exact I.
  - apply (preserved_created allocated allocated_preserved).
    unfold allocated. cbn. lia.
Qed.

(** X11.  With an [onStateChange] callback, [getState()] is always the
    state the callback was last called with, and [Idle] before its first
    call, whatever happened to the manager since its construction: no
    transition is made without a call of the callback, whether or not the
    callback throws. *)
Theorem state_is_last_reported subscribe options steps :
  opt_onStateChange options <> None ->
  let w := run subscribe steps
             (world_of (createSubscriptionManager subscribe options)) in
  returned (getState w) = Some (reported_state (events w)).
Proof.
  intros Hhook w. cbn. f_equal.
  apply (preserved_history state_reported state_reported_preserved (fun _ => True)
           subscribe steps).
  - intros a f _ w0 H. exact H.
  - apply Forall_forall. intros s _. destruct s; exact I.
  - apply (preserved_created state_reported state_reported_preserved).
    split; [exact Hhook|reflexivity].
Qed.

Lemma state_is_last_reported_witness :
  let w := run (serve (plain_stream [ReadDone])) [CallStop; CallStart]
             (world_of (createSubscriptionManager (serve (plain_stream [ReadDone]))
                          (options_with None None))) in
  opt_onStateChange (options_with None None) <> None /\
  returned (getState w) = Some (reported_state (events w)).
Proof.
  cbv zeta. split; [discriminate|].
  apply (state_is_last_reported (serve (plain_stream [ReadDone]))
           (options_with None None) [CallStop; CallStart]).
  discriminate.
Defined.

(** X12.  For a capacity option that is not negative, [getMessages()]
    never holds more messages than the capacity, and the capacity is the
    one fixed at construction, whatever happened to the manager since,
    short of a mutation of its arrays from outside. *)
Theorem buffer_never_exceeds_capacity subscribe options steps :
  (forall n, opt_maxMessages options = Some n -> 0 <= n) ->
  Forall (step_allowed (fun _ => False)) steps ->
  let w := run subscribe steps
             (world_of (createSubscriptionManager subscribe options)) in
  maxMessages (this w) = maxMessages (this (fresh options)) /\
  Z.of_nat (length (contents (getMessages w))) <= maxMessages (this w).
Proof.
  intros Hmax Hsteps w. rewrite getMessages_contents.
  set (c := maxMessages (this (fresh options))).
  assert (Hc : 0 < c).
  { unfold c. cbn. destruct (opt_maxMessages options) as [n|] eqn:Hn; [|lia].
    specialize (Hmax n eq_refl). destruct (Z.eqb_spec n 0); lia. }
  assert (H : within_capacity c w).
  { apply (preserved_history (within_capacity c) (within_capacity_preserved c)
             (fun _ => False) subscribe steps).
    - intros a f [].
    - exact Hsteps.
    - apply (preserved_created (within_capacity c) (within_capacity_preserved c)).
      split; [reflexivity|]. split; [exact Hc|]. rewrite messageLog_fresh.
      change (0 <= c). lia. }
  destruct H as (H1 & _ & H3). rewrite H1. split; [reflexivity|exact H3].
Qed.

Lemma buffer_never_exceeds_capacity_witness :
  let A := mkMessage "x" 1 in
  let B := mkMessage "x" 2 in
  let source := serve (plain_stream [ReadValue A; ReadValue B]) in
  let w := run source [CallStop; CallStart; MoreData [ReadValue A]]
             (world_of (createSubscriptionManager source (options_with None (Some 1)))) in
  (forall n, opt_maxMessages (options_with None (Some 1)) = Some n -> 0 <= n) /\
  Forall (step_allowed (fun _ => False)) [CallStop; CallStart; MoreData [ReadValue A]] /\
  maxMessages (this w) = 1 /\
  Z.of_nat (length (contents (getMessages w))) <= maxMessages (this w).
Proof.
  cbv zeta.
  assert (H1 : forall n, opt_maxMessages (options_with None (Some 1)) = Some n -> 0 <= n).
  { intros n [= <-]. lia. }
  assert (H2 : Forall (step_allowed (fun _ => False))
                 [CallStop; CallStart; MoreData [ReadValue (mkMessage "x" 1)]]).
  { repeat constructor. }
  split; [exact H1|]. split; [exact H2|].
  exact (buffer_never_exceeds_capacity
           (serve (plain_stream [ReadValue (mkMessage "x" 1); ReadValue (mkMessage "x" 2)]))
           (options_with None (Some 1)) _ H1 H2).
Defined.

(** An array that is not the buffer holds what it held, whatever the
    manager does. *)
Lemma detached_history subscribe a l steps w :
  Forall (step_allowed (fun a' => a' <> a)) steps ->
  detached a l w -> detached a l (run subscribe steps w).
Proof.
  intros Hsteps H.
  refine (preserved_history (detached a l) (detached_preserved a l)
            (fun a' => a' <> a) subscribe steps _ Hsteps w H).
  intros a' f Hne w0 (Hm & Ha & Hneq & Hl). unfold detached, allocated. cbn.
  rewrite lookup_total_insert_ne by exact Hne. repeat split; assumption.
Qed.

(** X13.  The array [getMessages()] returns is a snapshot: whatever happens
    to the manager afterwards (messages arriving, evictions, restarts,
    [clearMessages()]), the array holds the messages the buffer held when
    it was taken, as long as its holder does not change it. *)
Theorem snapshot_is_stable subscribe options before after a w1 :
  let w := run subscribe before
             (world_of (createSubscriptionManager subscribe options)) in
  getMessages w = Returns a w1 ->
  Forall (step_allowed (fun a' => a' <> a)) after ->
  heap (run subscribe after w1) !!! a = messageLog w.
Proof.
  intros w Hget Hafter.
  pose proof (allocated_history subscribe options before) as Halloc. fold w in Halloc.
  rewrite getMessages_spec in Hget. injection Hget as <- <-.
  refine (proj2 (proj2 (proj2
            (detached_history subscribe (nextAddr w) (messageLog w) after _ Hafter _)))).
  unfold detached, allocated in *. cbn. rewrite lookup_total_insert_eq.
  repeat split; lia.
Qed.

Lemma snapshot_is_stable_witness :
  let A := mkMessage "x" 1 in
  let B := mkMessage "x" 2 in
  let source := serve (plain_stream [ReadValue A]) in
  let w := world_of (createSubscriptionManager source (options_with None None)) in
  let after := [MoreData [ReadValue B]; CallClearMessages] in
  getMessages w = Returns 1%nat (world_of (getMessages w)) /\
  Forall (step_allowed (fun a' => a' <> 1%nat)) after /\
  heap (run source after (world_of (getMessages w))) !!! 1%nat = [A].
Proof.
  cbv zeta.
  assert (H1 : getMessages
                 (world_of (createSubscriptionManager
                              (serve (plain_stream [ReadValue (mkMessage "x" 1)]))
                              (options_with None None))) =
               Returns 1%nat
                 (world_of (getMessages
                    (world_of (createSubscriptionManager
                                 (serve (plain_stream [ReadValue (mkMessage "x" 1)]))
                                 (options_with None None)))))).
  { vm_compute. reflexivity. }
  assert (H2 : Forall (step_allowed (fun a' => a' <> 1%nat))
                 [MoreData [ReadValue (mkMessage "x" 2)]; CallClearMessages]).
  { repeat constructor. }
  split; [exact H1|]. split; [exact H2|].
  assert (H3 : messageLog
                 (run (serve (plain_stream [ReadValue (mkMessage "x" 1)])) []
                    (world_of (createSubscriptionManager
                                 (serve (plain_stream [ReadValue (mkMessage "x" 1)]))
                                 (options_with None None)))) =
               [mkMessage "x" 1]).
  { vm_compute. reflexivity. }
  rewrite <- H3.
  exact (snapshot_is_stable (serve (plain_stream [ReadValue (mkMessage "x" 1)]))
           (options_with None None) [] _ 1%nat _ H1 H2).
Defined.

(** X14.  [clearMessages()] gives the manager a new, empty buffer and
    leaves the old array as it is: [getMessages()] is empty and
    [getLatestMessage()] is [null] right after it, and the array that was
    the buffer (the one earlier [onChange] calls were handed) keeps its
    messages whatever happens to the manager afterwards. *)
Theorem cleared_buffer_is_detached subscribe options before after :
  let w := run subscribe before
             (world_of (createSubscriptionManager subscribe options)) in
  let w1 := world_of (clearMessages w) in
  Forall (step_allowed (fun a' => a' <> messages (this w))) after ->
  contents (getMessages w1) = [] /\
  returned (getLatestMessage w1) = Some None /\
  messages (this w1) <> messages (this w) /\
  heap (run subscribe after w1) !!! messages (this w) = messageLog w.
Proof.
  intros w w1 Hafter.
  pose proof (allocated_history subscribe options before) as Halloc. fold w in Halloc.
  unfold allocated in Halloc.
  assert (Hlog : messageLog w1 = []).
  { unfold messageLog, w1. cbn. apply lookup_total_insert_eq. }
  split; [rewrite getMessages_contents; exact Hlog|].
  split; [rewrite getLatestMessage_spec, Hlog; reflexivity|].
  split; [unfold w1; cbn; lia|].
  refine (proj2 (proj2 (proj2
            (detached_history subscribe (messages (this w)) (messageLog w) after w1
               Hafter _)))).
  unfold detached, allocated, w1. cbn.
  rewrite lookup_total_insert_ne by lia. repeat split; lia.
Qed.

Lemma cleared_buffer_is_detached_witness :
  let A := mkMessage "x" 1 in
  let B := mkMessage "x" 2 in
  let source := serve (plain_stream [ReadValue A]) in
  let w := run source []
             (world_of (createSubscriptionManager source (options_with None None))) in
  let w1 := world_of (clearMessages w) in
  let after := [MoreData [ReadValue B]] in
  Forall (step_allowed (fun a' => a' <> messages (this w))) after /\
  messageLog w = [A] /\
  contents (getMessages (run source after w1)) = [B] /\
  heap (run source after w1) !!! messages (this w) = messageLog w.
Proof.
  cbv zeta.
  split; [repeat constructor|].
  split; [vm_compute; reflexivity|].
  split; [vm_compute; reflexivity|].
  refine (proj2 (proj2 (proj2
            (cleared_buffer_is_detached
               (serve (plain_stream [ReadValue (mkMessage "x" 1)]))
               (options_with None None) [] [MoreData [ReadValue (mkMessage "x" 2)]] _)))).
  repeat constructor.
Defined.

(** X15.  An accepted message is always pushed on the array that is the
    buffer at that moment, so every holder of that array sees it; the
    manager keeps the same array as its buffer exactly when the buffer is
    then within capacity.  Otherwise a new array becomes the buffer, and
    the old one is left with the pushed message, one more than the
    capacity allows when it was full. *)
Theorem accept_pushes_in_place v w :
  allocated w ->
  let w' := world_of (accept v w) in
  heap w' !!! messages (this w) = messageLog w ++ [v] /\
  (messages (this w') = messages (this w) <->
   Z.of_nat (length (messageLog w ++ [v])) <= maxMessages (this w)) /\
  messageLog w' = trimmed (maxMessages (this w)) (messageLog w ++ [v]).
Proof.
  intros Halloc w'. unfold allocated in Halloc.
  pose proof (accept_arrays v w) as Harr. cbv zeta in Harr. fold w' in Harr.
  destruct (accept_this v w) as (_ & _ & _ & _ & _ & Hlog). fold w' in Hlog.
  destruct (Z.gtb_spec (Z.of_nat (length (messageLog w ++ [v]))) (maxMessages (this w)))
    as [Hgt|Hle]; destruct Harr as (Hm & Hn & Hh).
  - split; [|split; [|exact Hlog]].
    + rewrite Hh, lookup_total_insert_ne by lia. apply lookup_total_insert_eq.
    + rewrite Hm. split; lia.
  - split; [|split; [|exact Hlog]].
    + rewrite Hh. apply lookup_total_insert_eq.
    + rewrite Hm. split; [intros _; exact Hle|reflexivity].
Qed.

Lemma accept_pushes_in_place_witness :
  let A := mkMessage "x" 1 in
  let B := mkMessage "x" 2 in
  let w := world_of (createSubscriptionManager (serve (plain_stream [ReadValue A]))
                       (options_with None (Some 1))) in
  allocated w /\
  messageLog w = [A] /\
  heap (world_of (accept B w)) !!! messages (this w) = [A; B] /\
  messageLog (world_of (accept B w)) = [B].
Proof.
  cbv zeta.
  assert (H : allocated
                (world_of (createSubscriptionManager
                             (serve (plain_stream [ReadValue (mkMessage "x" 1)]))
                             (options_with None (Some 1))))).
  { unfold allocated. vm_compute. lia. }
  split; [exact H|]. split; [vm_compute; reflexivity|].
  split.
  - etransitivity; [exact (proj1 (accept_pushes_in_place (mkMessage "x" 2) _ H))|].
    vm_compute. reflexivity.
  - vm_compute. reflexivity.
Defined.

(** ** The calls of [start] *)

Lemma subscribedWith_app a b :
  subscribedWith (a ++ b) = subscribedWith a ++ subscribedWith b.
Proof. apply omap_app. Qed.

Lemma tokensFetched_app a b :
  tokensFetched (a ++ b) = (tokensFetched a + tokensFetched b)%nat.
Proof. unfold tokensFetched. rewrite omap_app, length_app. reflexivity. Qed.

(** Calls among which there is no connection attempt: no token was
    fetched and no stream was opened. *)
Lemma no_attempts evs :
  connectionAttempts evs = 0%nat -> subscribedWith evs = [] /\ tokensFetched evs = 0%nat.
Proof.
  induction evs as [|ev evs IH]; [split; reflexivity|].
  destruct ev; cbn; try exact IH; discriminate.
Qed.

Lemma stateChange_events_no_attempts h s :
  subscribedWith (stateChange_events h s) = [] /\
  tokensFetched (stateChange_events h s) = 0%nat.
Proof. apply no_attempts, stateChange_events_calls. Qed.

Section Opening.

Variable subscribe : nat -> Token -> Outcome StreamSubscription.

Ltac open_split :=
  match goal with
  | |- context [updateState _ _] => rewrite updateState_spec
  | H : ?f (refreshCalls ?w) = _
    |- context [match ?f (refreshCalls ?w) with _ => _ end] => rewrite H
  | H : subscribe ?n ?t = _ |- context [match subscribe ?n ?t with _ => _ end] =>
      rewrite H
  | H : getReader ?s = _ |- context [match getReader ?s with _ => _ end] =>
      rewrite H
  | |- context [match ?f (refreshCalls ?w) with _ => _ end] =>
      destruct (f (refreshCalls w)) as [?t|?e] eqn:?
  | |- context [match subscribe ?n ?t with _ => _ end] =>
      destruct (subscribe n t) as [?s|?e] eqn:?
  | |- context [match getReader ?s with _ => _ end] =>
      destruct (getReader s) as [?rd|?e] eqn:?
  | H : token (this ?w) = _ |- context [match token (this ?w) with _ => _ end] =>
      rewrite H
  | H : refreshToken (this ?w) = _
    |- context [match refreshToken (this ?w) with _ => _ end] =>
      rewrite H
  | |- context [match readLoop ?w with _ => _ end] =>
      change (match readLoop w with
              | Returns a w0 => Returns a w0
              | Throws e w' => handleError e w'
              | Awaiting w0 => Awaiting w0
              end) with (try_catch readLoop handleError w);
      rewrite try_catch_readLoop
  end; exec.

(** From a manager that is not running, [start] makes the calls of the
    acquisition and goes on with the read loop, or with the error path at
    the first failure. *)
Lemma start_opening w :
  isRunning (this w) = false ->
  exists w1,
    start subscribe w =
      match opening subscribe w with
      | Ok _ => readLoop w1
      | Fails e => handleError e w1
      end /\
    events w1 = events w ++ opening_events subscribe w /\
    isRunning (this w1) = true /\
    same_configuration (this w) (this w1) /\
    token (this w1) =
      match credential w with
      | Ok t => Some t
      | Fails _ => token (this w)
      end /\
    (forall rd, opening subscribe w = Ok rd -> reader (this w1) = Some rd).
Proof.
  intros Hrun.
  unfold opening, opening_events, credential, start, call_refreshToken, call_subscribe.
  exec. rewrite Hrun. exec.
  destruct (token (this w)) as [t|] eqn:Htok;
    [|destruct (refreshToken (this w)) as [f|] eqn:Hrt]; exec.
  all: repeat open_split.
  all: eexists; (split; [reflexivity|]); cbn.
  all: split; [rewrite <- ?app_assoc; cbn; rewrite ?app_nil_r; reflexivity|].
  all: split; [reflexivity|].
  all: split; [unfold same_configuration; cbn; tauto|].
  all: split; [first [reflexivity|assumption|symmetry; assumption]|].
  all: intros rd' Hrd'; simplify_eq; reflexivity.
Qed.

Lemma opening_events_calls w :
  let fetched :=
    match token (this w), refreshToken (this w) with
    | None, Some _ => true
    | _, _ => false
    end in
  tokensFetched (opening_events subscribe w) = (if fetched then 1 else 0)%nat /\
  subscribedWith (opening_events subscribe w) =
    match credential w with
    | Ok t => [t]
    | Fails _ => []
    end /\
  stateChanges (opening_events subscribe w) =
    match onStateChange (this w) with
    | None => []
    | Some _ =>
        (if fetched then [SubscriptionState.Connecting] else []) ++
        match credential w with
        | Fails _ => []
        | Ok _ =>
            SubscriptionState.Connecting ::
            match opening subscribe w with
            | Ok _ => [SubscriptionState.Active]
            | Fails _ => []
            end
        end
    end /\
  stopsReported (opening_events subscribe w) = 0%nat /\
  errorsReported (opening_events subscribe w) = [] /\
  changesReported (opening_events subscribe w) = [].
Proof.
  cbn zeta. unfold opening_events, opening, credential, stateChange_events.
  destruct (onStateChange (this w)) as [h|];
    destruct (token (this w)) as [t|];
    destruct (refreshToken (this w)) as [f|];
    try destruct (f (refreshCalls w)) as [t'|e];
    try destruct (h SubscriptionState.Connecting) as [[]|e1];
    try destruct (h SubscriptionState.Active) as [[]|e2];
    repeat match goal with
      | |- context [subscribe ?n ?t] => destruct (subscribe n t) as [s|e3]
      | |- context [getReader ?s] => destruct (getReader s) as [rd|e4]
      end;
    repeat split; reflexivity.
Qed.

End Opening.

(** X16.  With an [onStateChange] callback, [start()] on a manager that is
    not running reports: [Connecting] before it fetches a token, when it
    holds none and has a provider; [Connecting] (again) before it opens the
    stream; [Active] once it holds a reader; then [Closed] when the stream
    ends, [Error] when a read fails, and nothing more while the stream
    stays open.  The first failure of the acquisition ends the sequence
    with [Error]. *)
Theorem start_reports_states subscribe w h :
  isRunning (this w) = false ->
  onStateChange (this w) = Some h ->
  stateChanges (since (length (events w)) (world_of (start subscribe w))) =
    match token (this w), refreshToken (this w) with
    | None, Some _ => [SubscriptionState.Connecting]
    | _, _ => []
    end ++
    match credential w with
    | Fails _ => [SubscriptionState.Error]
    | Ok _ =>
        SubscriptionState.Connecting ::
        match opening subscribe w with
        | Fails _ => [SubscriptionState.Error]
        | Ok rd =>
            SubscriptionState.Active ::
            match ending (rd_reads rd) with
            | Stalls => []
            | Ends => [SubscriptionState.Closed]
            | Breaks _ => [SubscriptionState.Error]
            end
        end
    end.
Proof.
  intros Hrun Hh.
  destruct (start_opening subscribe w Hrun) as (w1 & Hstart & Hev & Hrun1 & Hcfg & _ & Hrd).
  destruct (opening_events_calls subscribe w) as (_ & _ & Hst & _). cbv zeta in Hst.
  rewrite Hh in Hst.
  assert (Hh1 : onStateChange (this w1) = Some h).
  { unfold same_configuration in Hcfg. destruct_and!. congruence. }
  rewrite Hstart.
  destruct (opening subscribe w) as [rd|e] eqn:Hopen.
  - assert (Hcred : exists t, credential w = Ok t).
    { unfold opening in Hopen. destruct (credential w); [eauto|discriminate]. }
    destruct Hcred as (t & Hcred). rewrite Hcred in *.
    destruct (readLoop_outcome w1 rd Hrun1 (Hrd rd eq_refl))
      as (w' & evs & -> & Hev' & H).
    destruct H as (_ & _ & _ & _ & _ & _ & _ & _ & _ & _ & Hend).
    rewrite Hev, <- app_assoc in Hev'. rewrite (since_app _ _ _ Hev').
    rewrite stateChanges_app, Hst, Hh1 in *.
    destruct (token (this w)), (refreshToken (this w));
      destruct (ending (rd_reads rd)); destruct_and!;
      match goal with H : stateChanges evs = _ |- _ => rewrite H end; reflexivity.
  - rewrite handleError_spec. cbn [world_of].
    erewrite since_app; [|cbn; rewrite Hev, <- app_assoc; reflexivity].
    rewrite !stateChanges_app, Hst, Hh1.
    rewrite (proj1 (stateChange_events_calls _ _)), (proj1 (error_events_calls _ _)).
    destruct (credential w);
      destruct (token (this w)), (refreshToken (this w)); reflexivity.
Qed.

Lemma start_reports_states_witness :
  let w := fresh (mkOptions None (Some (fun _ => Ok a_token)) None quiet_onChange
                    (Some (fun _ => Ok tt)) None None None None) in
  isRunning (this w) = false /\
  onStateChange (this w) = Some (fun _ => Ok tt) /\
  stateChanges (since (length (events w))
                  (world_of (start (serve (plain_stream [ReadDone])) w))) =
    [SubscriptionState.Connecting; SubscriptionState.Connecting;
     SubscriptionState.Active; SubscriptionState.Closed].
Proof.
  cbv zeta. split; [reflexivity|]. split; [reflexivity|].
  exact (start_reports_states (serve (plain_stream [ReadDone]))
           (fresh (mkOptions None (Some (fun _ => Ok a_token)) None quiet_onChange
                     (Some (fun _ => Ok tt)) None None None None))
           _ eq_refl eq_refl).
Defined.

(** The calls [start] adds, from a manager that is not running. *)
Lemma start_calls subscribe w :
  isRunning (this w) = false ->
  exists evs,
    events (world_of (start subscribe w)) =
      events w ++ opening_events subscribe w ++ evs /\
    connectionAttempts evs = 0%nat /\
    stopsReported evs = 0%nat /\
    token (this (world_of (start subscribe w))) =
      match credential w with
      | Ok t => Some t
      | Fails _ => token (this w)
      end.
Proof.
  intros Hrun.
  destruct (start_opening subscribe w Hrun) as (w1 & Hstart & Hev & Hrun1 & _ & Htok & Hrd).
  rewrite Hstart. destruct (opening subscribe w) as [rd|e] eqn:Hopen.
  - destruct (readLoop_outcome w1 rd Hrun1 (Hrd rd eq_refl))
      as (w' & evs & -> & Hev' & H).
    destruct_and!. exists evs. rewrite Hev, <- app_assoc in Hev'.
    repeat split; try assumption. congruence.
  - rewrite handleError_spec. cbn [world_of]. eexists. split.
    + cbn. rewrite Hev, <- app_assoc. reflexivity.
    + split; [|split; [|exact Htok]]; calls; reflexivity.
Qed.

(** X17.  [start()] fetches a token exactly when the manager holds none
    and has a provider, and keeps the token it fetched; it opens the stream
    once, with the token it then holds, and does not open it when it has
    no token and could not fetch one. *)
Theorem start_uses_credential subscribe w :
  isRunning (this w) = false ->
  let w' := world_of (start subscribe w) in
  let evs := since (length (events w)) w' in
  tokensFetched evs =
    match token (this w), refreshToken (this w) with
    | None, Some _ => 1%nat
    | _, _ => 0%nat
    end /\
  match credential w with
  | Ok t => subscribedWith evs = [t] /\ token (this w') = Some t
  | Fails _ => subscribedWith evs = [] /\ token (this w') = token (this w)
  end.
Proof.
  intros Hrun. cbn zeta.
  destruct (start_calls subscribe w Hrun) as (evs & Hev & Hatt & _ & Htok).
  rewrite (since_app _ _ _ Hev), tokensFetched_app, subscribedWith_app.
  destruct (no_attempts evs Hatt) as (-> & ->).
  destruct (opening_events_calls subscribe w) as (-> & -> & _). cbv zeta.
  rewrite Htok, app_nil_r, Nat.add_0_r.
  split.
  - destruct (token (this w)), (refreshToken (this w)); reflexivity.
  - destruct (credential w); split; reflexivity.
Qed.

Lemma start_uses_credential_witness :
  let held := mkToken "held" in
  let w := fresh (mkOptions (Some held) (Some (fun _ => Ok a_token)) None quiet_onChange
                    None None None None None) in
  let w' := world_of (start (serve (plain_stream [])) w) in
  isRunning (this w) = false /\
  tokensFetched (since (length (events w)) w') = 0%nat /\
  subscribedWith (since (length (events w)) w') = [held] /\
  token (this w') = Some held.
Proof.
  cbv zeta. split; [reflexivity|].
  exact (start_uses_credential (serve (plain_stream []))
           (fresh (mkOptions (Some (mkToken "held")) (Some (fun _ => Ok a_token)) None
                     quiet_onChange None None None None None))
           eq_refl).
Defined.

(** X18.  [refreshAndRestart()] with a provider that answers with a token
    replaces the token the manager holds by it, and opens the new stream
    with it, not with the token held before. *)
Theorem refreshAndRestart_uses_new_token subscribe w f t :
  refreshToken (this w) = Some f ->
  f (refreshCalls w) = Ok t ->
  let w' := world_of (refreshAndRestart subscribe w) in
  token (this w') = Some t /\
  last (subscribedWith (events w')) = Some t.
Proof.
  intros Hrt Hf. cbn zeta.
  pose proof (refreshAndRestart_spec subscribe w f Hrt) as H. rewrite Hf in H.
  destruct H as (w2 & evs & -> & _ & Hrun & _ & Htok & _).
  destruct (start_calls subscribe w2 Hrun) as (evs2 & Hev & Hatt & _ & Htok').
  assert (Hcred : credential w2 = Ok t) by (unfold credential; rewrite Htok; reflexivity).
  rewrite Hcred in Htok'. split; [exact Htok'|].
  rewrite Hev, !subscribedWith_app.
  destruct (no_attempts evs2 Hatt) as (-> & _).
  destruct (opening_events_calls subscribe w2) as (_ & -> & _).
  rewrite Hcred, app_nil_r. apply last_snoc.
Qed.

Lemma refreshAndRestart_uses_new_token_witness :
  let new := mkToken "new" in
  let options := mkOptions (Some a_token) (Some (fun _ => Ok new)) None quiet_onChange
                   None None None None None in
  let source := serve (plain_stream []) in
  let w := world_of (createSubscriptionManager source options) in
  refreshToken (this w) = Some (fun _ => Ok new) /\
  subscribedWith (events w) = [a_token] /\
  token (this (world_of (refreshAndRestart source w))) = Some new /\
  last (subscribedWith (events (world_of (refreshAndRestart source w)))) = Some new.
Proof.
  cbv zeta. split; [reflexivity|]. split; [reflexivity|].
  exact (refreshAndRestart_uses_new_token (serve (plain_stream []))
           (world_of (createSubscriptionManager (serve (plain_stream []))
                        (mkOptions (Some a_token) (Some (fun _ => Ok (mkToken "new"))) None
                           quiet_onChange None None None None None)))
           _ (mkToken "new") eq_refl eq_refl).
Defined.

(** X19.  [onStop] is called by [stop()] only: [start()] does not call it,
    whether the stream cannot be opened, ends, or fails, and neither does
    the read loop when it goes on with further data. *)
Theorem onStop_is_called_by_stop_only subscribe rs w :
  stopsReported (since (length (events w)) (world_of (start subscribe w))) = 0%nat /\
  stopsReported (since (length (events w)) (world_of (resume rs w))) = 0%nat.
Proof.
  split.
  - destruct (isRunning (this w)) eqn:Hrun.
    + rewrite start_running by exact Hrun. cbn [world_of].
      erewrite since_app by reflexivity. reflexivity.
    + destruct (start_calls subscribe w Hrun) as (evs & Hev & _ & Hstop & _).
      rewrite (since_app _ _ _ Hev), stopsReported_app, Hstop.
      rewrite (proj1 (proj2 (proj2 (proj2 (opening_events_calls subscribe w))))).
      reflexivity.
  - unfold resume. exec.
    destruct (reader (this w)) as [rd|] eqn:Hrd.
    + exec.
      set (rd1 := mkReader (rd_reads rd ++ rs) (rd_cancel rd) (rd_releaseLock rd)).
      set (w1 := mkWorld (set_reader (Some rd1) (this w)) _ _ _ _ _).
      destruct (isRunning (this w1)) eqn:Hrun.
      * destruct (readLoop_outcome w1 rd1 Hrun eq_refl) as (w' & evs & -> & Hev & H).
        destruct_and!. change (events w1) with (events w) in Hev.
        rewrite (since_app _ _ _ Hev). assumption.
      * rewrite readLoop_stopped by exact Hrun. cbn [world_of].
        unfold since. change (events w1) with (events w). rewrite drop_all. reflexivity.
    + cbn [world_of]. unfold since. rewrite drop_all. reflexivity.
Qed.

(** X20.  After [start()] on a manager that was not running, [isActive()]
    is [true] exactly when the stream was opened and is still open; it is
    [false] after a failed acquisition, after the end of the stream and
    after a read error, although the manager still counts as running. *)
Theorem isActive_after_start subscribe w :
  isRunning (this w) = false ->
  let w' := world_of (start subscribe w) in
  isRunning (this w') = true /\
  returned (isActive w') =
    Some match opening subscribe w with
         | Ok rd =>
             match ending (rd_reads rd) with
             | Stalls => true
             | _ => false
             end
         | Fails _ => false
         end.
Proof.
  intros Hrun. cbn zeta.
  assert (Hact : forall w0, returned (isActive w0) =
            Some (isRunning (this w0) &&
                  bool_decide (state (this w0) = SubscriptionState.Active)))
    by reflexivity.
  rewrite Hact.
  destruct (opening subscribe w) as [rd|e] eqn:Hopen.
  - destruct (start_outcome subscribe w rd Hrun Hopen) as (w' & evs & -> & H).
    destruct_and!.
    match goal with H : isRunning (this w') = true |- _ => rewrite H end.
    split; [reflexivity|].
    destruct (ending (rd_reads rd)); destruct_and!;
      match goal with H : state (this w') = _ |- _ => rewrite H end; reflexivity.
  - pose proof (start_spec subscribe w Hrun) as H. rewrite Hopen in H.
    destruct H as (w' & evs & Hstart & H). destruct_and!. rewrite Hstart. cbn [world_of].
    match goal with H : isRunning (this w') = true |- _ => rewrite H end.
    match goal with H : state (this w') = _ |- _ => rewrite H end.
    split; reflexivity.
Qed.

Lemma isActive_after_start_witness :
  let w := fresh (options_with None None) in
  isRunning (this w) = false /\
  returned (isActive (world_of (start (serve (plain_stream [ReadDone])) w))) =
    Some false /\
  isRunning (this (world_of (start (serve (plain_stream [ReadDone])) w))) = true.
Proof.
  cbv zeta. split; [reflexivity|].
  destruct (isActive_after_start (serve (plain_stream [ReadDone]))
              (fresh (options_with None None)) eq_refl) as [H1 H2].
  split; [exact H2|exact H1].
Defined.

(** ** The token of an [Active] manager *)

Section TokenHeld.

Variable subscribe : nat -> Token -> Outcome StreamSubscription.

Lemma active_has_token_start w :
  isRunning (this w) = false -> active_has_token (world_of (start subscribe w)).
Proof.
  intros Hrun Hact.
  pose proof (start_spec subscribe w Hrun) as H.
  destruct (opening subscribe w) as [rd|e] eqn:Hopen.
  - destruct H as (w1 & evs & Hstart & H). destruct_and!.
    rewrite Hstart in *.
    match goal with
    | H1 : isRunning (this w1) = true, H2 : reader (this w1) = Some rd |- _ =>
        destruct (readLoop_outcome w1 rd H1 H2) as (w' & evs' & Hw' & H')
    end.
    rewrite Hw' in *. destruct_and!. congruence.
  - destruct H as (w' & evs & Hstart & H). destruct_and!.
    rewrite Hstart in Hact. cbn in Hact. congruence.
Qed.

Lemma active_has_token_perform s w :
  active_has_token w -> active_has_token (perform subscribe s w).
Proof.
  intros HI. destruct s; cbn [perform].
  - destruct (isRunning (this w)) eqn:Hrun.
    + rewrite start_running by exact Hrun. exact HI.
    + apply active_has_token_start, Hrun.
  - destruct (stop_spec w) as (m' & evs & -> & _ & Htok & _ & _ & _ & _ & _ & Hact & _).
    intros Hs. cbn in *. rewrite Htok. apply HI, Hact, Hs.
  - destruct (restart_spec subscribe w) as (w2 & evs & -> & _ & Hrun & _).
    apply active_has_token_start, Hrun.
  - destruct (refreshToken (this w)) as [f|] eqn:Hrt.
    + pose proof (refreshAndRestart_spec subscribe w f Hrt) as H.
      destruct (f (refreshCalls w)) as [t|e].
      * destruct H as (w2 & evs & -> & _ & Hrun & _).
        apply active_has_token_start, Hrun.
      * rewrite H, handleError_spec. intros Hs. cbn in Hs. discriminate.
    + rewrite refreshAndRestart_unconfigured by exact Hrt. exact HI.
  - exact HI.
  - exact HI.
  - exact HI.
  - unfold resume. exec.
    destruct (reader (this w)) as [rd|] eqn:Hrd; [|exact HI].
    exec.
    set (rd1 := mkReader (rd_reads rd ++ rs) (rd_cancel rd) (rd_releaseLock rd)).
    set (w1 := mkWorld (set_reader (Some rd1) (this w)) _ _ _ _ _).
    destruct (isRunning (this w1)) eqn:Hrun.
    + destruct (readLoop_outcome w1 rd1 Hrun eq_refl) as (w' & evs & -> & H).
      destruct_and!. intros Hs.
      match goal with H : token (this w') = _ |- _ => rewrite H end.
      apply HI.
      destruct (ending (rd_reads rd1)); destruct_and!; try congruence.
      change (state (this w)) with (state (this w1)). congruence.
    + rewrite readLoop_stopped by exact Hrun. exact HI.
  - exact HI.
Qed.

(** X21.  A manager in state [Active] holds a token, whatever happened to
    it since its construction and whatever its collaborators answered. *)
Theorem token_held_while_active w :
  reachable subscribe w ->
  state (this w) = SubscriptionState.Active ->
  token (this w) <> None.
Proof.
  intros Hreach. change (active_has_token w).
  induction Hreach as [options|w s _ IH].
  - unfold createSubscriptionManager.
    destruct (opt_autoStart options) as [[]|];
      try (apply active_has_token_start; reflexivity).
    intros Hs. discriminate.
  - apply active_has_token_perform, IH.
Qed.

End TokenHeld.

Lemma token_held_while_active_witness :
  let provider : nat -> Outcome Token := fun _ => Ok a_token in
  let options := mkOptions None (Some provider) None quiet_onChange
                   None None None None None in
  let w := world_of (createSubscriptionManager (serve (plain_stream [])) options) in
  reachable (serve (plain_stream [])) w /\
  state (this w) = SubscriptionState.Active /\
  token (this w) <> None.
Proof.
  cbv zeta. split; [apply reachable_created|]. split; [reflexivity|].
  exact (token_held_while_active (serve (plain_stream [])) _
           (reachable_created _
              (mkOptions None (Some (fun _ => Ok a_token)) None quiet_onChange
                 None None None None None))
           eq_refl).
Defined.

(** ** Further properties of [stop], [setTopic] and [getLatestMessage] *)

(** X23.  [setTopic()] changes the filter for the messages that arrive
    after it and nothing else: the buffer stays as it is, with the
    messages of other topics it holds, and the messages the read loop
    takes afterwards are accepted, announced and buffered by the new
    filter. *)
Theorem setTopic_applies_to_later_messages t rs w rd :
  isRunning (this w) = true ->
  reader (this w) = Some rd ->
  let later := delivered (rd_reads rd ++ rs) in
  let w' := world_of (resume rs (world_of (setTopic t w))) in
  messageLog (world_of (setTopic t w)) = messageLog w /\
  changesReported (since (length (events w)) w') = accepted t later /\
  messageLog w' =
    foldl (fun l v => trimmed (maxMessages (this w)) (l ++ [v])) (messageLog w)
      (accepted t later).
Proof.
  intros Hrun Hrd. cbn zeta. split; [reflexivity|].
  unfold resume, setTopic. exec. rewrite Hrd. exec.
  set (rd1 := mkReader (rd_reads rd ++ rs) (rd_cancel rd) (rd_releaseLock rd)).
  set (w1 := mkWorld (set_reader (Some rd1) (set_topic t (this w))) _ _ _ _ _).
  assert (Hrun1 : isRunning (this w1) = true) by exact Hrun.
  split.
  - destruct (readLoop_outcome w1 rd1 Hrun1 eq_refl) as (w' & evs & -> & Hev & H).
    destruct_and!. change (events w1) with (events w) in Hev.
    rewrite (since_app _ _ _ Hev). assumption.
  - rewrite (readLoop_messageLog w1 rd1 Hrun1 eq_refl). apply buffer_fold_accepted.
Qed.

Lemma setTopic_applies_to_later_messages_witness :
  let A := mkMessage "x" 1 in
  let B := mkMessage "y" 2 in
  let C := mkMessage "x" 3 in
  let w := world_of (createSubscriptionManager (serve (plain_stream [ReadValue A]))
                       (options_with None None)) in
  isRunning (this w) = true /\
  reader (this w) = Some (plain_reader []) /\
  messageLog w = [A] /\
  messageLog (world_of (resume [ReadValue B; ReadValue C]
                          (world_of (setTopic (Some "y") w)))) = [A; B].
Proof.
  cbv zeta. split; [reflexivity|]. split; [reflexivity|]. split; [reflexivity|].
  etransitivity;
    [exact (proj2 (proj2 (setTopic_applies_to_later_messages (Some "y")
                            [ReadValue (mkMessage "y" 2); ReadValue (mkMessage "x" 3)]
                            (world_of (createSubscriptionManager
                                         (serve (plain_stream [ReadValue (mkMessage "x" 1)]))
                                         (options_with None None)))
                            (plain_reader []) eq_refl eq_refl)))|].
  vm_compute. reflexivity.
Defined.

Lemma last_trimmed max l : 0 < max -> last (trimmed max l) = last l.
Proof.
  intros Hmax. rewrite (trimmed_most_recent max l Hmax).
  destruct l as [|x l]; [reflexivity|].
  pose proof (most_recent_suffix (Z.to_nat max) (x :: l)) as Hsplit.
  pose proof (most_recent_length (Z.to_nat max) (x :: l)) as Hlen.
  rewrite <- Hsplit at 2. rewrite last_app.
  destruct (most_recent (Z.to_nat max) (x :: l)) as [|y k] eqn:Hrec.
  - cbn in Hlen. lia.
  - destruct (last_is_Some (y :: k)) as [_ H]. destruct H as [z Hz]; [discriminate|].
    rewrite Hz. reflexivity.
Qed.

Lemma last_buffer max vs : forall l,
  0 < max -> vs <> [] ->
  last (foldl (fun l v => trimmed max (l ++ [v])) l vs) = last vs.
Proof.
  induction vs as [|v vs IH] using rev_ind; intros l Hmax Hne; [congruence|].
  rewrite foldl_app. cbn. rewrite (last_trimmed max _ Hmax), !last_snoc. reflexivity.
Qed.

(** X24.  For a positive capacity, once [start()] has taken messages that
    pass the filter, [getLatestMessage()] is the last of them, whatever the
    buffer held before and however many messages were evicted. *)
Theorem latest_is_last_accepted subscribe w rd :
  isRunning (this w) = false ->
  opening subscribe w = Ok rd ->
  0 < maxMessages (this w) ->
  accepted (topic (this w)) (delivered (rd_reads rd)) <> [] ->
  returned (getLatestMessage (world_of (start subscribe w))) =
  Some (last (accepted (topic (this w)) (delivered (rd_reads rd)))).
Proof.
  intros Hrun Hopen Hmax Hne.
  rewrite getLatestMessage_spec. cbn [returned]. f_equal.
  rewrite (start_messageLog subscribe w rd Hrun Hopen), buffer_fold_accepted.
  apply last_buffer; assumption.
Qed.

Lemma latest_is_last_accepted_witness :
  let A := mkMessage "x" 1 in
  let B := mkMessage "y" 2 in
  let w := fresh (options_with (Some "x") (Some 1)) in
  let source := serve (plain_stream [ReadValue A; ReadValue B]) in
  isRunning (this w) = false /\
  opening source w = Ok (plain_reader [ReadValue A; ReadValue B]) /\
  0 < maxMessages (this w) /\
  returned (getLatestMessage (world_of (start source w))) = Some (Some A).
Proof.
  cbv zeta. split; [reflexivity|]. split; [reflexivity|].
  assert (Hmax : 0 < maxMessages (this (fresh (options_with (Some "x") (Some 1)))))
    by (cbn; lia).
  split; [exact Hmax|].
  refine (latest_is_last_accepted
            (serve (plain_stream [ReadValue (mkMessage "x" 1); ReadValue (mkMessage "y" 2)]))
            (fresh (options_with (Some "x") (Some 1))) _ eq_refl eq_refl Hmax _).
  vm_compute. discriminate.
Defined.

(** ** Operations that are suspended at their awaits *)

(** What [wp] promises of a run up to the first [await]. *)
Lemma wp_exec I {A} (p : Async A) : forall Q E w,
  wp I p Q E w ->
  match exec p w with
  | Done (Returns a w') => Q a w'
  | Done (Throws e w') => E e w'
  | Done (Awaiting w') => I w'
  | Suspended rest w' => I w' /\ forall w'', I w'' -> wp I rest Q E w''
  end.
Proof.
  induction p as [A m|A B p IHp k IHk|A p IHp h IHh|A promise];
    intros Q E w H; cbn [wp exec] in *.
  - destruct (m w); exact H.
  - specialize (IHp _ _ _ H).
    destruct (exec p w) as [[b w'|e w'|w']|rest w']; try exact IHp.
    apply IHk, IHp.
  - specialize (IHp _ _ _ H).
    destruct (exec p w) as [[b w'|e w'|w']|rest w']; try exact IHp.
    apply IHh, IHp.
  - destruct (promise w) as [answer w'|e w'|w']; try exact H.
    destruct H as [HI Hk]. split; [exact HI|].
    intros w'' Hw''. specialize (Hk w'' Hw''). cbn [wp].
    destruct answer; exact Hk.
Qed.

Lemma wp_mono I {A} (p : Async A) : forall (Q Q' : A -> World -> Prop) (E E' : Error -> World -> Prop) w,
  (forall a w, Q a w -> Q' a w) ->
  (forall e w, E e w -> E' e w) ->
  wp I p Q E w -> wp I p Q' E' w.
Proof.
  induction p as [A m|A B p IHp k IHk|A p IHp h IHh|A promise];
    intros Q Q' E E' w HQ HE H; cbn [wp] in *.
  - destruct (m w); auto.
  - eapply IHp; [| |exact H]; [|exact HE].
    intros b w' Hb. eapply IHk; [..|exact Hb]; assumption.
  - eapply IHp; [| |exact H]; [exact HQ|].
    intros e w' He. eapply IHh; [..|exact He]; assumption.
  - destruct (promise w) as [answer w'|e w'|w']; auto.
    destruct H as [HI Hk]. split; [exact HI|].
    intros w'' Hw''. specialize (Hk w'' Hw''). destruct answer; auto.
Qed.

(** An awaited call of a method that keeps [I]. *)
Lemma wp_awaited I {A} (p : Async A) (Q : A -> World -> Prop) E w :
  (forall a w, I w -> Q a w) ->
  wp I p (fun _ => I) E w ->
  wp I (awaited p) Q E w.
Proof.
  intros HQ H. unfold awaited. cbn [wp].
  eapply wp_mono; [| |exact H]; [|auto].
  intros a w' Hw'. cbn. split; [exact Hw'|]. intros w'' Hw''. apply HQ, Hw''.
Qed.

(** A system in which [I] holds and every suspended operation keeps it. *)
Lemma after_safe I (p : Async unit) w tasks :
  wp I p (fun _ => I) (fun _ => I) w ->
  Forall (safe I) tasks ->
  I (world (after (exec p w) tasks)) /\ Forall (safe I) (pending (after (exec p w) tasks)).
Proof.
  intros Hp Htasks. apply wp_exec in Hp.
  destruct (exec p w) as [[[] w'|e w'|w']|rest w']; cbn; try (split; assumption).
  destruct Hp as [HI Hrest]. split; [exact HI|].
  apply Forall_app. split; [exact Htasks|]. constructor; [exact Hrest|constructor].
Qed.

(** ** The stream of an [Active] manager *)

Lemma call_spec {A} ev (r : Outcome A) w :
  call ev r w =
  match r with
  | Ok a => Returns a (record [ev] w)
  | Fails e => Throws e (record [ev] w)
  end.
Proof. destruct r; reflexivity. Qed.

Lemma promise_of_spec {A} ev (r : Outcome A) w :
  promise_of ev r w = Returns r (record [ev] w).
Proof. reflexivity. Qed.

Lemma same_state_keeps w w' :
  same_state w w' -> active_has_stream w -> active_has_stream w'.
Proof. intros [Hs Hsub] H. unfold active_has_stream. rewrite Hs, Hsub. exact H. Qed.

Lemma promise_read_same_state w : same_state w (world_of (promise_read w)).
Proof.
  unfold promise_read. exec.
  destruct (reader (this w)) as [rd|]; [|split; reflexivity].
  destruct (rd_reads rd) as [|x rest]; split; reflexivity.
Qed.

Lemma accept_same_state v w :
  exists w', accept v w = Returns tt w' /\ same_state w w'.
Proof.
  destruct (accept_spec v w) as (a' & h' & n' & Hacc & _). cbv zeta in Hacc.
  eexists. split; [exact Hacc|]. split; reflexivity.
Qed.

Section ActiveStream.

Variable subscribe : nat -> Token -> Outcome StreamSubscription.

Ltac now_step :=
  repeat (progress (cbn [wp negb]; cbv beta iota delta [get assign ret throw])).

Lemma wp_whileRunning fuel : forall (Q : unit -> World -> Prop) (E : Error -> World -> Prop) w,
  (forall w, active_has_stream w -> Q tt w) ->
  (forall e w, active_has_stream w -> E e w) ->
  active_has_stream w -> wp active_has_stream (whileRunning_async fuel) Q E w.
Proof.
  induction fuel as [|fuel IH]; intros Q E w HQ HE Hw; cbn [whileRunning_async]; now_step.
  - destruct (isRunning (this w)); now_step; [exact Hw|apply HQ, Hw].
  - destruct (isRunning (this w)); now_step; [|apply HQ, Hw].
    pose proof (promise_read_same_state w) as Hread.
    destruct (promise_read w) as [answer w'|e w'|w']; cbn [world_of] in Hread; cbv beta iota.
    + split; [exact (same_state_keeps _ _ Hread Hw)|].
      intros w'' Hw''. destruct answer as [[value|]|e]; [|apply HQ, Hw''|apply HE, Hw''].
      now_step.
      destruct (isRunning (this w'')); now_step; [|apply HQ, Hw''].
      destruct (filtered_out (topic (this w'')) value); [apply IH; assumption|].
      now_step.
      destruct (accept_same_state value w'') as (w3 & Hacc & Hsame).
      unfold accept in Hacc. rewrite Hacc.
      apply IH; [assumption..|]. exact (same_state_keeps _ _ Hsame Hw'').
    + apply HE. exact (same_state_keeps _ _ Hread Hw).
    + exact (same_state_keeps _ _ Hread Hw).
Qed.

Lemma updateState_other s w :
  s <> SubscriptionState.Active -> active_has_stream (world_of (updateState s w)).
Proof. intros Hs. rewrite updateState_spec. intros H. cbn in H. congruence. Qed.

Lemma handleError_stream e w : active_has_stream (world_of (handleError e w)).
Proof. rewrite handleError_spec. intros H. cbn in H. discriminate. Qed.

Lemma wp_readLoop extra (Q : unit -> World -> Prop) (E : Error -> World -> Prop) w :
  (forall w, active_has_stream w -> Q tt w) ->
  active_has_stream w -> wp active_has_stream (readLoop_async extra) Q E w.
Proof.
  intros HQ Hw. unfold readLoop_async. now_step.
  destruct (reader (this w)) as [rd|]; now_step; [|apply HQ, Hw].
  apply wp_whileRunning; [| |exact Hw].
  - intros w1 Hw1. now_step.
    destruct (isRunning (this w1)); now_step; [|apply HQ, Hw1].
    pose proof (updateState_other SubscriptionState.Closed w1) as H.
    rewrite updateState_spec in *. apply HQ, H. discriminate.
  - intros e w1 Hw1. now_step.
    destruct (isRunning (this w1)); now_step; [|apply HQ, Hw1].
    pose proof (handleError_stream e w1) as H.
    rewrite handleError_spec in *. apply HQ, H.
Qed.

(** The end of [stop], from any world: the state is set to [Closed]. *)
Lemma wp_stop_closing (E : Error -> World -> Prop) w :
  wp active_has_stream
    (Now (updateState SubscriptionState.Closed) ;;
     h <- Now (get onStop) ;;
     match h with
     | Some f =>
         Now (try_catch (call OnStop (f tt))
                (fun error => console_error "Error in onStop callback:" error))
     | None => Now (ret tt)
     end)%async
    (fun _ => active_has_stream) E w.
Proof.
  now_step. rewrite updateState_spec. now_step.
  match goal with |- context [onStop ?m] => destruct (onStop m) as [f|] end; now_step.
  - exec. destruct (f tt) as [[]|e]; exec; intros H; cbn in H; discriminate.
  - intros H. cbn in H. discriminate.
Qed.

(** The middle of [stop]: the stream is cancelled and dropped. *)
Lemma wp_stop_stream (E : Error -> World -> Prop) w :
  (forall e w, active_has_stream w -> E e w) ->
  active_has_stream w ->
  wp active_has_stream
    (s <- Now (get subscription) ;;
     match s with
     | Some sub =>
         Await (promise_of StreamCancelCall (cancel sub)) ;;
         Now (assign (set_subscription None))
     | None => Now (ret tt)
     end ;;
     Now (updateState SubscriptionState.Closed) ;;
     h <- Now (get onStop) ;;
     match h with
     | Some f =>
         Now (try_catch (call OnStop (f tt))
                (fun error => console_error "Error in onStop callback:" error))
     | None => Now (ret tt)
     end)%async
    (fun _ => active_has_stream) E w.
Proof.
  intros HE Hw. now_step.
  destruct (subscription (this w)) as [sub|]; now_step.
  - rewrite promise_of_spec. split; [exact Hw|].
    intros w'' Hw''. destruct (cancel sub) as [[]|e]; [|apply HE, Hw''].
    apply (wp_stop_closing E).
  - apply (wp_stop_closing E).
Qed.

Lemma safe_stop : safe active_has_stream stop_async.
Proof.
  intros w Hw. unfold stop_async. now_step.
  set (E := fun (e : Error) (w0 : World) =>
              match console_error "Error stopping subscription:" e w0 with
              | Returns _ w' | Throws _ w' | Awaiting w' => active_has_stream w'
              end).
  assert (HE : forall e w0, active_has_stream w0 -> E e w0).
  { intros e w0 H. exact H. }
  assert (Hw1 : active_has_stream (with_this (set_isRunning false (this w)) w)) by exact Hw.
  generalize dependent (with_this (set_isRunning false (this w)) w). clear w Hw.
  intros w Hw.
  destruct (reader (this w)) as [rd|]; now_step.
  - rewrite promise_of_spec. split; [exact Hw|].
    intros w'' Hw''. destruct (rd_cancel rd) as [[]|e]; [|apply HE, Hw''].
    now_step.
    destruct (reader (this w'')) as [rd'|]; now_step; [|apply HE, Hw''].
    rewrite call_spec. destruct (rd_releaseLock rd') as [[]|e]; [|exact Hw''].
    now_step. apply (wp_stop_stream E); [exact HE|exact Hw''].
  - apply (wp_stop_stream E); [exact HE|exact Hw].
Qed.

Lemma wp_stop (Q : unit -> World -> Prop) (E : Error -> World -> Prop) w :
  (forall w, active_has_stream w -> Q tt w) ->
  (forall e w, active_has_stream w -> E e w) ->
  active_has_stream w ->
  wp active_has_stream stop_async Q E w.
Proof.
  intros HQ HE Hw. eapply wp_mono; [| |exact (safe_stop w Hw)].
  - intros [] w'. apply HQ.
  - exact HE.
Qed.

(** What the error path ends in, from any world. *)
Lemma wp_handleError e (Q : unit -> World -> Prop) (E : Error -> World -> Prop) w :
  (forall w, active_has_stream w -> Q tt w) ->
  wp active_has_stream (Now (handleError e)) Q E w.
Proof.
  intros HQ. cbn [wp]. pose proof (handleError_stream e w) as H.
  rewrite handleError_spec in *. apply HQ, H.
Qed.

(** The end of [start], from any world: a stream has been opened. *)
Lemma wp_start_opened s extra (Q : unit -> World -> Prop) (E : Error -> World -> Prop) w :
  (forall w, active_has_stream w -> Q tt w) ->
  (forall e w, active_has_stream w -> E e w) ->
  wp active_has_stream
    (Now (assign (set_subscription (Some s))) ;;
     rd <- Now (call GetReaderCall (getReader s)) ;;
     Now (assign (set_reader (Some rd))) ;;
     Now (updateState SubscriptionState.Active) ;;
     awaited (readLoop_async extra))%async
    Q E w.
Proof.
  intros HQ HE. now_step. rewrite call_spec.
  destruct (getReader s) as [rd|e].
  - now_step. rewrite updateState_spec.
    apply wp_awaited; [intros [] w'; apply HQ|].
    apply wp_readLoop; [auto|]. intros _. cbn. discriminate.
  - apply HE. intros _. cbn. discriminate.
Qed.

(** The part of [start] that opens the stream. *)
Lemma wp_start_connect t extra (Q : unit -> World -> Prop) (E : Error -> World -> Prop) w :
  (forall w, active_has_stream w -> Q tt w) ->
  (forall e w, active_has_stream w -> E e w) ->
  wp active_has_stream
    (Now (updateState SubscriptionState.Connecting) ;;
     s <- Await (promise_subscribe subscribe t) ;;
     Now (assign (set_subscription (Some s))) ;;
     rd <- Now (call GetReaderCall (getReader s)) ;;
     Now (assign (set_reader (Some rd))) ;;
     Now (updateState SubscriptionState.Active) ;;
     awaited (readLoop_async extra))%async
    Q E w.
Proof.
  intros HQ HE. now_step. rewrite updateState_spec. now_step.
  unfold promise_subscribe at 1. cbv beta iota.
  split; [intros H; cbn in H; discriminate|].
  intros w'' Hw''.
  destruct (subscribe _ t) as [s|e]; [|apply HE, Hw''].
  apply wp_start_opened; assumption.
Qed.

Lemma safe_start extra : safe active_has_stream (start_async subscribe extra).
Proof.
  intros w Hw. unfold start_async. now_step.
  destruct (isRunning (this w)); now_step; [exact Hw|].
  set (E := fun (e : Error) (w0 : World) =>
              match handleError e w0 with
              | Returns _ w' | Throws _ w' | Awaiting w' => active_has_stream w'
              end).
  assert (HE : forall e w0, E e w0).
  { intros e w0. unfold E. pose proof (handleError_stream e w0) as H.
    rewrite handleError_spec in *. exact H. }
  assert (Hw1 : active_has_stream (with_this (set_isRunning true (this w)) w)) by exact Hw.
  generalize dependent (with_this (set_isRunning true (this w)) w). clear w Hw.
  intros w Hw.
  destruct (token (this w)) as [t|] eqn:Htok; now_step.
  - rewrite Htok. apply wp_start_connect; auto.
  - destruct (refreshToken (this w)) as [f|]; now_step.
    + rewrite updateState_spec. now_step.
      unfold promise_refreshToken at 1. cbv beta iota.
      split; [intros H; cbn in H; discriminate|].
      intros w'' Hw''. destruct (f _) as [t|e]; [|apply HE].
      now_step. apply wp_start_connect; auto.
    + rewrite Htok. apply HE.
Qed.

Lemma wp_start extra (Q : unit -> World -> Prop) (E : Error -> World -> Prop) w :
  (forall w, active_has_stream w -> Q tt w) ->
  (forall e w, active_has_stream w -> E e w) ->
  active_has_stream w ->
  wp active_has_stream (start_async subscribe extra) Q E w.
Proof.
  intros HQ HE Hw. eapply wp_mono; [| |exact (safe_start extra w Hw)].
  - intros [] w'. apply HQ.
  - exact HE.
Qed.

Lemma wp_restart extra (Q : unit -> World -> Prop) (E : Error -> World -> Prop) w :
  (forall w, active_has_stream w -> Q tt w) ->
  (forall e w, active_has_stream w -> E e w) ->
  active_has_stream w ->
  wp active_has_stream (restart_async subscribe extra) Q E w.
Proof.
  intros HQ HE Hw. unfold restart_async. cbn [wp].
  apply wp_awaited; [|apply wp_stop; auto].
  intros [] w1 Hw1. cbn [wp].
  assert (H : active_has_stream (world_of (clearMessages w1))) by exact Hw1.
  change (clearMessages w1) with (Returns tt (world_of (clearMessages w1))).
  cbv beta iota.
  apply wp_awaited; [intros [] w'; apply HQ|].
  apply wp_start; auto.
Qed.

Lemma safe_refreshAndRestart extra :
  safe active_has_stream (refreshAndRestart_async subscribe extra).
Proof.
  intros w Hw. unfold refreshAndRestart_async. now_step.
  destruct (refreshToken (this w)) as [f|]; now_step; [|exact Hw].
  unfold promise_refreshToken at 1. cbv beta iota.
  split; [exact Hw|].
  intros w'' Hw''. destruct (f _) as [t|e].
  - now_step. apply wp_awaited; [auto|].
    apply wp_restart; [auto| |exact Hw''].
    intros e w0 _. apply wp_handleError. auto.
  - apply wp_handleError. auto.
Qed.

(** Every observable system keeps the stream of an [Active] manager, and
    so does every operation that is suspended in it. *)
Lemma observable_safe s :
  observable subscribe s ->
  active_has_stream (world s) /\ Forall (safe active_has_stream) (pending s).
Proof.
  induction 1 as [options extra|s m _ [HI Htasks]].
  - unfold construct.
    assert (Hfresh : active_has_stream (fresh options)) by (intros H; discriminate).
    destruct (opt_autoStart options) as [[]|];
      try (apply after_safe; [apply safe_start, Hfresh|constructor]).
    split; [exact Hfresh|constructor].
  - destruct m; cbn [move].
    + apply after_safe; [apply safe_start, HI|exact Htasks].
    + apply after_safe; [apply safe_stop, HI|exact Htasks].
    + apply after_safe; [apply wp_restart; auto|exact Htasks].
    + apply after_safe; [apply safe_refreshAndRestart, HI|exact Htasks].
    + split; [exact HI|exact Htasks].
    + split; [exact HI|exact Htasks].
    + split; [exact HI|exact Htasks].
    + split; [exact HI|exact Htasks].
    + destruct (pending s !! i) as [p|] eqn:Hp; [|split; assumption].
      apply after_safe.
      * apply (proj1 (Forall_lookup _ _) Htasks i p Hp), HI.
      * apply Forall_delete, Htasks.
Qed.

End ActiveStream.

(** ** The asynchronous methods with nothing in between *)

Lemma run_now_awaited {A} (p : Async A) w : run_now (awaited p) w = run_now p w.
Proof.
  unfold awaited. cbn [run_now]. unfold bind.
  destruct (run_now p w) as [a w'|e w'|w']; reflexivity.
Qed.

Lemma run_now_read w : bind promise_read settle w = reader_read w.
Proof.
  unfold promise_read, reader_read. exec.
  destruct (reader (this w)) as [rd|]; [|reflexivity].
  destruct (rd_reads rd) as [|[v| |e] rest]; reflexivity.
Qed.

Lemma bind_ext {A B} (m : Action A) (k k' : A -> Action B) w :
  (forall a w', k a w' = k' a w') -> bind m k w = bind m k' w.
Proof. intros H. unfold bind. destruct (m w); [apply H|reflexivity..]. Qed.

Lemma try_catch_ext {A} (m m' : Action A) h h' w :
  (forall w', m w' = m' w') -> (forall e w', h e w' = h' e w') ->
  try_catch m h w = try_catch m' h' w.
Proof. intros Hm Hh. unfold try_catch. rewrite Hm. destruct (m' w); [reflexivity|apply Hh|reflexivity]. Qed.

Lemma run_now_whileRunning fuel : forall w,
  run_now (whileRunning_async fuel) w = whileRunning fuel w.
Proof.
  induction fuel as [|fuel IH]; intros w.
  - change (whileRunning 0 w) with
      (bind (get isRunning)
         (fun running => if negb running then ret tt else fun w => @Awaiting unit w) w).
    cbn [whileRunning_async run_now].
    apply bind_ext. intros [] w1; reflexivity.
  - rewrite whileRunning_unfold. cbn [whileRunning_async run_now].
    apply bind_ext. intros running w1. destruct running; cbn [negb]; [|reflexivity].
    cbn [run_now].
    rewrite (bind_eq (bind promise_read settle)), (bind_eq reader_read), run_now_read.
    destruct (reader_read w1) as [[value|] w2|e w2|w2]; try reflexivity.
    cbn [run_now]. apply bind_ext. intros running' w3.
    destruct running'; cbn [negb]; [|reflexivity].
    cbn [run_now]. apply bind_ext. intros t w4.
    destruct (filtered_out t value); [apply IH|].
    cbn [run_now]. rewrite accept_then.
    change (push_message value ;; trim_messages ;; fire_onChange value)
      with (accept value).
    rewrite bind_eq.
    destruct (accept_spec value w4) as (a' & h' & n' & Hacc & _). cbv zeta in Hacc.
    rewrite Hacc. cbn [world_of]. apply IH.
Qed.

(** The read loop, followed as far as its reader has answers, is the loop
    of the manager on its own. *)
Lemma run_now_readLoop w : run_now (readLoop_async 0) w = readLoop w.
Proof.
  unfold readLoop_async, readLoop. cbn [run_now].
  apply bind_ext. intros [rd|] w1; [|reflexivity].
  cbn [run_now Nat.add]. apply try_catch_ext.
  - intros w2. rewrite !bind_eq, run_now_whileRunning.
    destruct (whileRunning _ w2) as [[] w3|e w3|w3]; try reflexivity.
    cbn [run_now]. apply bind_ext. intros [] w4; reflexivity.
  - intros e w2. cbn [run_now]. apply bind_ext. intros [] w3; reflexivity.
Qed.

Lemma run_now_stop w : run_now stop_async w = stop w.
Proof.
  unfold stop_async, stop. cbn [run_now].
  apply bind_ext. intros _ w1. apply try_catch_ext; [|reflexivity].
  intros w2. unfold promise_of, call. exec.
  destruct (reader (this w2)) as [rd|] eqn:Hrd; exec.
  - destruct (rd_cancel rd) as [[]|e]; exec; [|reflexivity].
    rewrite Hrd. exec.
    destruct (rd_releaseLock rd) as [[]|e]; exec; [|reflexivity].
    destruct (subscription (this w2)) as [sub|]; exec.
    + destruct (cancel sub) as [[]|e]; exec; [|reflexivity].
      rewrite updateState_spec. exec.
      destruct (onStop (this w2)) as [f|]; reflexivity.
    + rewrite updateState_spec. exec.
      destruct (onStop (this w2)) as [f|]; reflexivity.
  - destruct (subscription (this w2)) as [sub|]; exec.
    + destruct (cancel sub) as [[]|e]; exec; [|reflexivity].
      rewrite updateState_spec. exec.
      destruct (onStop (this w2)) as [f|]; reflexivity.
    + rewrite updateState_spec. exec.
      destruct (onStop (this w2)) as [f|]; reflexivity.
Qed.

Lemma bind_ext2 {A B} (m m' : Action A) (k k' : A -> Action B) w :
  (forall w', m w' = m' w') -> (forall a w', k a w' = k' a w') ->
  bind m k w = bind m' k' w.
Proof. intros Hm Hk. unfold bind. rewrite Hm. destruct (m' w); [apply Hk|reflexivity..]. Qed.

Ltac same_run :=
  repeat first
    [ reflexivity
    | progress cbn [run_now]
    | rewrite run_now_awaited
    | apply run_now_readLoop
    | apply run_now_stop
    | apply bind_ext2; [intros ?|intros ? ?]
    | apply try_catch_ext; [intros ?|intros ? ?]
    | match goal with
      | |- context [match ?x with _ => _ end] => is_var x; destruct x
      end ].

Section RunNow.

Variable subscribe : nat -> Token -> Outcome StreamSubscription.

Lemma run_now_start w : run_now (start_async subscribe 0) w = start subscribe w.
Proof. unfold start_async, start. same_run. Qed.

Lemma run_now_restart w : run_now (restart_async subscribe 0) w = restart subscribe w.
Proof.
  unfold restart_async, restart. same_run; apply run_now_start.
Qed.

Lemma run_now_refreshAndRestart w :
  run_now (refreshAndRestart_async subscribe 0) w = refreshAndRestart subscribe w.
Proof.
  unfold refreshAndRestart_async, refreshAndRestart. same_run; apply run_now_restart.
Qed.

End RunNow.

(** ** The invariant of the [Active] state *)

(** What can be observed of a manager on whose stream source [stop()] is
    called at two moments, with nothing failing.  First, while the
    [start()] of the constructor still awaits the stream: [stop()] finds
    nothing to release and reports [Closed]; [start()] then goes on, takes
    the stream and its reader and sets [Active], and the read loop ends at
    once because the manager is not marked running.  Second, once the read
    loop waits for data: [stop()] has released the reader and awaits the
    cancellation of the stream, and the state is still [Active]. *)
Lemma active_without_reader_or_running_mark :
  let source := serve (plain_stream []) in
  let constructed := construct source (options_with None None) 0 in
  let early := move source (GoOn 0) (move source DoStop constructed) in
  let late := move source (GoOn 0) (move source DoStop (move source (GoOn 0) constructed)) in
  (observable source early /\
   events (world early) =
     [OnStateChange SubscriptionState.Connecting; SubscribeCall a_token;
      OnStateChange SubscriptionState.Closed; OnStop;
      GetReaderCall; OnStateChange SubscriptionState.Active] /\
   state (this (world early)) = SubscriptionState.Active /\
   isRunning (this (world early)) = false /\
   subscription (this (world early)) = Some (plain_stream []) /\
   reader (this (world early)) = Some (plain_reader [])) /\
  (observable source late /\
   events (world late) =
     [OnStateChange SubscriptionState.Connecting; SubscribeCall a_token;
      GetReaderCall; OnStateChange SubscriptionState.Active;
      ReaderCancelCall; ReleaseLockCall; StreamCancelCall] /\
   state (this (world late)) = SubscriptionState.Active /\
   isRunning (this (world late)) = false /\
   subscription (this (world late)) = Some (plain_stream []) /\
   reader (this (world late)) = None).
Proof.
  cbv zeta. split.
  - split; [do 2 apply observable_move; apply observable_constructed|].
    repeat split; vm_compute; reflexivity.
  - split; [do 3 apply observable_move; apply observable_constructed|].
    repeat split; vm_compute; reflexivity.
Qed.

(** C3.  In every system that can be observed (after the construction and
    after any sequence of method calls, array mutations and continuations
    of suspended operations, whatever the collaborators answer), a manager
    in state [Active] holds a stream.  It need not hold a reader nor be
    marked running. *)
Theorem active_implies_stream_held :
  forall (subscribe : nat -> Token -> Outcome StreamSubscription) (s : System),
    observable subscribe s ->
    state (this (world s)) = SubscriptionState.Active ->
    subscription (this (world s)) <> None.
Proof.
  intros subscribe s Hobs. exact (proj1 (observable_safe subscribe s Hobs)).
Qed.

Lemma active_implies_stream_held_witness :
  let source := serve (plain_stream [ReadValue (mkMessage "x" 1)]) in
  let s := move source (GoOn 0) (construct source (options_with None None) 0) in
  observable source s /\
  state (this (world s)) = SubscriptionState.Active /\
  subscription (this (world s)) <> None.
Proof.
  cbv zeta.
  assert (Hobs : observable (serve (plain_stream [ReadValue (mkMessage "x" 1)]))
                   (move (serve (plain_stream [ReadValue (mkMessage "x" 1)])) (GoOn 0)
                      (construct (serve (plain_stream [ReadValue (mkMessage "x" 1)]))
                         (options_with None None) 0))).
  { apply observable_move, observable_constructed. }
  assert (Hact : state (this (world
                   (move (serve (plain_stream [ReadValue (mkMessage "x" 1)])) (GoOn 0)
                      (construct (serve (plain_stream [ReadValue (mkMessage "x" 1)]))
                         (options_with None None) 0)))) = SubscriptionState.Active).
  { vm_compute. reflexivity. }
  split; [exact Hobs|]. split; [exact Hact|].
  exact (active_implies_stream_held _ _ Hobs Hact).
Defined.

(** ** Two calls of [stop] *)

(** How [stop()] runs on a manager that holds a reader: it suspends at the
    cancellation of the reader.  When it goes on and the reader is gone,
    it ends in its [catch]; when a reader and a stream are there and the
    lock can be released, it suspends again at the cancellation of the
    stream, and when it goes on from there it sets [Closed] and calls
    [onStop]. *)
Lemma exec_stop_held w rd :
  reader (this w) = Some rd ->
  rd_cancel rd = Ok tt ->
  exists K,
    exec stop_async w =
      Suspended K (record [ReaderCancelCall] (with_this (set_isRunning false (this w)) w)) /\
    (forall w',
       reader (this w') = None ->
       exec K w' =
         Done (Returns tt
                 (record [ConsoleError "Error stopping subscription:"
                            TypeError_null_releaseLock] w'))) /\
    (forall w' rd' sub,
       reader (this w') = Some rd' ->
       rd_releaseLock rd' = Ok tt ->
       subscription (this w') = Some sub ->
       cancel sub = Ok tt ->
       exists K',
         exec K w' =
           Suspended K'
             (record [ReleaseLockCall; StreamCancelCall]
                (with_this (set_reader None (this w')) w')) /\
         forall w'',
           exec K' w'' =
             Done (Returns tt
                     (record
                        (stateChange_events (onStateChange (this w''))
                           SubscriptionState.Closed ++
                         match onStop (this w'') with
                         | Some f =>
                             OnStop ::
                             match f tt with
                             | Ok _ => []
                             | Fails e => [ConsoleError "Error in onStop callback:" e]
                             end
                         | None => []
                         end)
                        (with_this
                           (set_state SubscriptionState.Closed
                              (set_subscription None (this w''))) w'')))).
Proof.
  intros Hrd Hc. unfold stop_async. cbn [exec]. cbv beta iota delta [assign get].
  cbn [this with_this set_isRunning reader]. rewrite Hrd. cbn [exec].
  unfold promise_of at 1. cbv beta iota delta [bind emit ret]. rewrite Hc.
  eexists. split; [reflexivity|]. split.
  - intros w' Hnone. cbn [exec]. cbv beta iota delta [settle ret get throw].
    rewrite Hnone. cbn [exec]. reflexivity.
  - intros w' rd' sub Hrd' Hl Hsub Hcs. cbn [exec].
    cbv beta iota delta [settle ret get]. rewrite Hrd'. cbn [exec].
    rewrite call_spec, Hl. cbv beta iota delta [assign get].
    cbn [this with_this set_reader subscription record]. rewrite Hsub. cbn [exec].
    rewrite promise_of_spec, Hcs.
    eexists. split.
    { f_equal. unfold record, with_this. cbn. rewrite <- app_assoc. reflexivity. }
    intros w''. cbn [exec]. cbv beta iota delta [settle ret assign get].
    rewrite updateState_spec. cbn [this with_this record set_state set_subscription onStop].
    destruct (onStop (this w'')) as [f|]; cbn [exec].
    + exec. destruct (f tt) as [[]|e]; exec; rewrite <- ?app_assoc; reflexivity.
    + exec. rewrite app_nil_r. reflexivity.
Qed.

(** X22.  [stop()] has no guard against a second call, and what the
    second call does depends on when it is made.  On a manager that holds
    a reader and a stream that can be cancelled: when the second call is
    made after the first has completed, [Closed] is reported twice and
    [onStop] is called twice; when it is made while the first still awaits
    the cancellation of the reader (neither call awaited), the second call
    cancels the reader again, then fails on the reader the first has
    dropped and ends in its [catch], so that [Closed] is reported once and
    [onStop] is called once. *)
Theorem stop_has_no_guard :
  forall (subscribe : nat -> Token -> Outcome StreamSubscription) (w : World) rd sub,
    reader (this w) = Some rd ->
    subscription (this w) = Some sub ->
    rd_cancel rd = Ok tt ->
    rd_releaseLock rd = Ok tt ->
    cancel sub = Ok tt ->
    (let w' := world_of (stop (world_of (stop w))) in
     let evs := since (length (events w)) w' in
     state (this w') = SubscriptionState.Closed /\
     stopsReported evs = (2 * length (fired (onStop (this w)) tt))%nat /\
     stateChanges evs =
       fired (onStateChange (this w)) SubscriptionState.Closed ++
       fired (onStateChange (this w)) SubscriptionState.Closed) /\
    (let s := move subscribe (GoOn 0) (move subscribe (GoOn 0) (move subscribe (GoOn 0)
                (move subscribe DoStop (move subscribe DoStop (mkSystem w []))))) in
     let evs := since (length (events w)) (world s) in
     pending s = [] /\
     state (this (world s)) = SubscriptionState.Closed /\
     stopsReported evs = length (fired (onStop (this w)) tt) /\
     stateChanges evs = fired (onStateChange (this w)) SubscriptionState.Closed /\
     errorsReported evs = [] /\
     exists rest,
       evs = [ReaderCancelCall; ReaderCancelCall; ReleaseLockCall; StreamCancelCall;
              ConsoleError "Error stopping subscription:" TypeError_null_releaseLock]
             ++ rest).
Proof.
  intros subscribe w rd sub Hrd Hsub Hc Hl Hcs. split.
  - assert (Hrel : releases_cleanly (this w)).
    { split.
      - intros x Hx. rewrite Hrd in Hx. injection Hx as <-. split; assumption.
      - intros x Hx. rewrite Hsub in Hx. injection Hx as <-. assumption. }
    cbn zeta.
    destruct (stop_spec w) as (m1 & evs1 & -> & Hcfg1 & _ & _ & _ & _ & _ & _ & _ & Hc1).
    destruct (Hc1 Hrel) as (_ & Hrd1 & Hsub1 & Hst1 & Hstop1).
    cbn [world_of].
    set (w1 := mkWorld m1 _ _ _ _ _).
    assert (Hrel1 : releases_cleanly (this w1)).
    { split; cbn; intros x Hx; congruence. }
    destruct (stop_spec w1) as (m2 & evs2 & -> & Hcfg2 & _ & _ & _ & _ & _ & _ & _ & Hc2).
    destruct (Hc2 Hrel1) as (Hs2 & _ & _ & Hst2 & Hstop2).
    cbn [world_of this].
    erewrite since_app; [|cbn; rewrite <- app_assoc; reflexivity].
    rewrite stopsReported_app, stateChanges_app, Hst1, Hstop1, Hst2, Hstop2.
    destruct Hcfg1 as (_ & _ & _ & Hh & _ & HoS & _).
    subst w1. cbn [this]. rewrite Hh, HoS.
    split; [exact Hs2|].
    destruct (onStop (this w)), (onStateChange (this w)); split; reflexivity.
  - cbn zeta.
    destruct (exec_stop_held w rd Hrd Hc) as (KA & HA & _ & HA2).
    set (w1 := record [ReaderCancelCall] (with_this (set_isRunning false (this w)) w)) in *.
    destruct (exec_stop_held w1 rd Hrd Hc) as (KB & HB & HB1 & _).
    set (w2 := record [ReaderCancelCall] (with_this (set_isRunning false (this w1)) w1)) in *.
    destruct (HA2 w2 rd sub Hrd Hl Hsub Hcs) as (KA' & HA' & HA'').
    set (w3 := record [ReleaseLockCall; StreamCancelCall]
                 (with_this (set_reader None (this w2)) w2)) in *.
    specialize (HB1 w3 eq_refl).
    set (w4 := record [ConsoleError "Error stopping subscription:"
                         TypeError_null_releaseLock] w3) in *.
    specialize (HA'' w4).
    cbn [move world pending]. rewrite HA. cbn [after world pending app].
    rewrite HB. cbn [after world pending app].
    change ([KA; KB] !! 0%nat) with (Some KA). cbv beta iota.
    rewrite HA'. change (delete 0%nat [KA; KB]) with [KB].
    cbn [after world pending app].
    change ([KB; KA'] !! 0%nat) with (Some KB). cbv beta iota.
    rewrite HB1. change (delete 0%nat [KB; KA']) with [KA'].
    cbn [after world pending world_of].
    change ([KA'] !! 0%nat) with (Some KA'). cbv beta iota.
    rewrite HA''. change (delete 0%nat [KA']) with (@nil (Async unit)).
    cbn [after world pending world_of].
    split; [reflexivity|]. split; [reflexivity|].
    assert (Hev : forall tail,
              events (record tail
                        (with_this (set_state SubscriptionState.Closed
                                      (set_subscription None (this w4))) w4)) =
              events w ++
              [ReaderCancelCall; ReaderCancelCall; ReleaseLockCall; StreamCancelCall;
               ConsoleError "Error stopping subscription:" TypeError_null_releaseLock]
              ++ tail).
    { intros tail. cbn. rewrite <- !app_assoc. reflexivity. }
    rewrite (since_app _ _ _ (Hev _)).
    change (onStateChange (this w4)) with (onStateChange (this w)).
    change (onStop (this w4)) with (onStop (this w)).
    split; [|split; [|split]].
    + calls. destruct (onStop (this w)) as [f|]; [destruct (f tt)|]; reflexivity.
    + calls. destruct (onStateChange (this w)), (onStop (this w)) as [f|];
        try destruct (f tt); reflexivity.
    + calls. destruct (onStop (this w)) as [f|]; [destruct (f tt)|]; reflexivity.
    + eexists. reflexivity.
Qed.

Lemma stop_has_no_guard_witness :
  let w := listening None 1000 quiet_onChange [] in
  let source := serve (plain_stream []) in
  (reader (this w) = Some (plain_reader []) /\
   subscription (this w) = Some (plain_stream []) /\
   rd_cancel (plain_reader []) = Ok tt /\
   rd_releaseLock (plain_reader []) = Ok tt /\
   cancel (plain_stream []) = Ok tt) /\
  stopsReported (since (length (events w)) (world_of (stop (world_of (stop w))))) =
    (2 * length (fired (onStop (this w)) tt))%nat /\
  stopsReported
    (since (length (events w))
       (world (move source (GoOn 0) (move source (GoOn 0) (move source (GoOn 0)
                 (move source DoStop (move source DoStop (mkSystem w [])))))))) =
    length (fired (onStop (this w)) tt) /\
  length (fired (onStop (this w)) tt) = 1%nat.
Proof.
  cbv zeta.
  destruct (stop_has_no_guard (serve (plain_stream []))
              (listening None 1000 quiet_onChange [])
              (plain_reader []) (plain_stream [])
              eq_refl eq_refl eq_refl eq_refl eq_refl) as [Hawaited Hnot].
  cbv zeta in Hawaited, Hnot.
  destruct Hawaited as (_ & Htwice & _).
  destruct Hnot as (_ & _ & Honce & _).
  split; [repeat split|].
  split; [exact Htwice|]. split; [exact Honce|]. reflexivity.
Defined.

(** ** Recovery from the [Error] state *)

Section Recovery.

Variable subscribe : nat -> Token -> Outcome StreamSubscription.




End Recovery.



